(** * metalrain / distance-field-generator: SDF engine, atlas packer, registry

    A shallow embedding of the Rust sources that the generator scripts emit
    ([src/sdf/generator.rs], [src/sdf/shapes.rs], [src/sdf/font.rs],
    [src/atlas/packer.rs], [src/atlas/registry.rs], [src/lib.rs] and the
    utilities of [src/utils]), the properties of the specification that
    concern them, and further properties of the code.

    Conventions.
    - A [u32], [i32], [usize] or [u8] is a [Z]; every arithmetic operation of
      the source is written with its overflow behaviour ([checked] below),
      every [as] cast with its wrap-around or saturation.
    - An [f32] is a [spec_float] of the Standard Library, operated at
      precision 24 and maximal exponent 128 (IEEE-754 binary32, round to
      nearest even).
    - A panic, an [Err] and a normal return are the three outcomes of a call;
      every [get_pixel] that is performed is recorded in a read log. *)

From Stdlib Require Import ZArith Lia Bool List Ascii String.
From Stdlib Require Import Floats.SpecFloat.
From stdpp Require Import base tactics option list numbers strings gmap.

Local Open Scope Z_scope.

(** ** IEEE-754 binary32 *)

Module F32.

Definition prec : Z := 24.
Definition emax : Z := 128.

Definition f32 : Type := spec_float.

Definition zero : f32 := S754_zero false.

(** [n as f32] for an integer [n]: rounded to nearest, ties to even. *)
Definition of_Z (n : Z) : f32 := binary_normalize prec emax n 0 false.

Definition one : f32 := Eval vm_compute in of_Z 1.
Definition half : f32 := S754_finite false 8388608 (-24).
Definition c255 : f32 := Eval vm_compute in of_Z 255.

Definition add : f32 -> f32 -> f32 := SFadd prec emax.
Definition mul : f32 -> f32 -> f32 := SFmul prec emax.
Definition div : f32 -> f32 -> f32 := SFdiv prec emax.
Definition sqrt : f32 -> f32 := SFsqrt prec emax.
Definition neg : f32 -> f32 := SFopp.
Definition abs : f32 -> f32 := SFabs.
Definition ltb : f32 -> f32 -> bool := SFltb.
Definition leb : f32 -> f32 -> bool := SFleb.

Definition is_nan (x : f32) : bool :=
  match x with S754_nan => true | _ => false end.

(** [f32::min]: the lesser argument; a NaN argument is ignored. *)
Definition min (a b : f32) : f32 :=
  if is_nan a then b
  else if is_nan b then a
  else if ltb b a then b else a.

(** [f32::clamp(lo, hi)] for [lo <= hi]: a NaN stays a NaN. *)
Definition clamp (x lo hi : f32) : f32 :=
  let x := if ltb x lo then lo else x in
  if ltb hi x then hi else x.

(** The integer [ceil] of a finite value [(-1)^s * m * 2^e]. *)
Definition ceil_Z (s : bool) (m : positive) (e : Z) : Z :=
  let v := if s then Z.neg m else Z.pos m in
  if 0 <=? e then v * 2 ^ e else - ((- v) / 2 ^ (- e)).

(** [f32::ceil]. *)
Definition ceil (x : f32) : f32 :=
  match x with
  | S754_finite s m e =>
      if 0 <=? e then x
      else binary_normalize prec emax (ceil_Z s m e) 0 s
  | _ => x
  end.

(** The integer part of a finite value, rounded toward zero. *)
Definition trunc_Z (s : bool) (m : positive) (e : Z) : Z :=
  let v := if s then Z.neg m else Z.pos m in
  if 0 <=? e then v * 2 ^ e else Z.quot v (2 ^ (- e)).

(** [x as <integer type>] with bounds [lo..hi]: toward zero, saturating,
    NaN to 0. *)
Definition to_int (lo hi : Z) (x : f32) : Z :=
  match x with
  | S754_nan => 0
  | S754_zero _ => 0
  | S754_infinity s => if s then lo else hi
  | S754_finite s m e => Z.max lo (Z.min hi (trunc_Z s m e))
  end.

Definition to_u8 : f32 -> Z := to_int 0 255.
Definition to_u32 : f32 -> Z := to_int 0 4294967295.
Definition to_i32 : f32 -> Z := to_int (-2147483648) 2147483647.

(** Further operations, used by the shape and character generators. *)
Definition two : f32 := Eval vm_compute in of_Z 2.
Definition ten : f32 := Eval vm_compute in of_Z 10.

Definition sub : f32 -> f32 -> f32 := SFsub prec emax.
Definition eqb : f32 -> f32 -> bool := SFeqb.

(** [f32::max]: the greater argument; a NaN argument is ignored. *)
Definition max (a b : f32) : f32 :=
  if is_nan a then b
  else if is_nan b then a
  else if ltb a b then b else a.

(** A decimal literal [n / d], rounded to the nearest binary32. *)
Definition decimal (n d : Z) : f32 := div (of_Z n) (of_Z d).

End F32.

Abbreviation f32 := F32.f32.

(** ** Machine integers and the outcomes of a call *)

Inductive panic : Type :=
| DivideByZero
| ArithmeticOverflow
| IndexOutOfBounds.

Inductive outcome (A : Type) : Type :=
| Ok (a : A)
| Err (msg : string)
| Panic (p : panic).
Arguments Ok {A} a.
Arguments Err {A} msg.
Arguments Panic {A} p.

(** A computation: its outcome and the pixel coordinates it has read. *)
Definition M (A : Type) : Type := outcome A * list (Z * Z).

Definition ret {A} (a : A) : M A := (Ok a, []).
Definition raise {A} (p : panic) : M A := (Panic p, []).

Definition bind {A B} (m : M A) (k : A -> M B) : M B :=
  match m with
  | (Ok a, log) => let '(r, log') := k a in (r, log ++ log')
  | (Err msg, log) => (Err msg, log)
  | (Panic p, log) => (Panic p, log)
  end.

Notation "'let!' x ':=' m 'in' k" := (bind m (fun x => k))
  (at level 10, x name, m at level 100, k at level 200).

Definition result_of {A} (m : M A) : outcome A := fst m.
Definition reads_of {A} (m : M A) : list (Z * Z) := snd m.

Definition outcome_map {A B} (f : A -> B) (o : outcome A) : outcome B :=
  match o with
  | Ok a => Ok (f a)
  | Err msg => Err msg
  | Panic p => Panic p
  end.

(** [for i in lo..hi { s = body i s }], threading the loop state [s]. *)
Fixpoint for_each {A S} (l : list A) (body : A -> S -> M S) (s : S) : M S :=
  match l with
  | [] => ret s
  | i :: l' => let! s' := body i s in for_each l' body s'
  end.

Definition for_range {S} (lo hi : Z) (body : Z -> S -> M S) (s : S) : M S :=
  for_each (seqZ lo (hi - lo)) body s.

(** [for i in lo..=hi]. *)
Definition for_range_incl {S} (lo hi : Z) (body : Z -> S -> M S) (s : S) : M S :=
  for_each (seqZ lo (hi + 1 - lo)) body s.

Definition u32_max : Z := 4294967295.
Definition i32_min : Z := -2147483648.
Definition i32_max : Z := 2147483647.

Definition wrap_u32 (v : Z) : Z := v mod 2 ^ 32.
Definition wrap_i32 (v : Z) : Z := (v + 2 ^ 31) mod 2 ^ 32 - 2 ^ 31.

Section MachineArithmetic.
(** The build profile: with overflow checks (debug) an overflowing
    operation panics, without them (release) it wraps around. *)
Variable overflow_checks : bool.

Definition checked (lo hi : Z) (wrap : Z -> Z) (v : Z) : M Z :=
  if (lo <=? v) && (v <=? hi) then ret v
  else if overflow_checks then raise ArithmeticOverflow
  else ret (wrap v).

Definition u32_add (a b : Z) : M Z := checked 0 u32_max wrap_u32 (a + b).
Definition u32_sub (a b : Z) : M Z := checked 0 u32_max wrap_u32 (a - b).
Definition u32_mul (a b : Z) : M Z := checked 0 u32_max wrap_u32 (a * b).
Definition i32_add (a b : Z) : M Z := checked i32_min i32_max wrap_i32 (a + b).
Definition i32_mul (a b : Z) : M Z := checked i32_min i32_max wrap_i32 (a * b).
Definition i32_neg (a : Z) : M Z := checked i32_min i32_max wrap_i32 (- a).
End MachineArithmetic.

(** Division and remainder panic on a zero divisor in every profile. *)
Definition u32_div (a b : Z) : M Z :=
  if b =? 0 then raise DivideByZero else ret (a / b).
Definition u32_rem (a b : Z) : M Z :=
  if b =? 0 then raise DivideByZero else ret (a mod b).

(** ** Images: the [image] crate's [ImageBuffer], addressed by coordinates *)

Record ImageBuffer (P : Type) : Type := {
  width : Z;
  height : Z;
  pixel_at : Z -> Z -> P
}.
Arguments width {P} _.
Arguments height {P} _.
Arguments pixel_at {P} _ _ _.

Definition Luma : Type := Z.
Definition Rgb : Type := (Z * Z * Z)%type.
Definition Rgba : Type := (Z * Z * Z * Z)%type.

Abbreviation GrayImage := (ImageBuffer Luma).
Abbreviation RgbImage := (ImageBuffer Rgb).
Abbreviation RgbaImage := (ImageBuffer Rgba).

Definition in_bounds {P} (img : ImageBuffer P) (x y : Z) : bool :=
  (0 <=? x) && (x <? width img) && (0 <=? y) && (y <? height img).

(** [ImageBuffer::new]: every pixel is the zero pixel. *)
Definition image_new {P} (w h : Z) (blank : P) : ImageBuffer P :=
  {| width := w; height := h; pixel_at := fun _ _ => blank |}.

(** [get_pixel] panics outside the image; the read is logged. *)
Definition get_pixel {P} (img : ImageBuffer P) (x y : Z) : M P :=
  if in_bounds img x y then (Ok (pixel_at img x y), [(x, y)])
  else (Panic IndexOutOfBounds, [(x, y)]).

(** [put_pixel] panics outside the image. *)
Definition put_pixel {P} (img : ImageBuffer P) (x y : Z) (p : P) : M (ImageBuffer P) :=
  if in_bounds img x y then
    ret {| width := width img; height := height img;
           pixel_at := fun x' y' =>
             if (x' =? x) && (y' =? y) then p else pixel_at img x' y' |}
  else raise IndexOutOfBounds.

(** ** The distance-field engine ([src/sdf/generator.rs]) *)

Section SdfGenerator.
Variable overflow_checks : bool.

Definition is_inside_pixel (p : Luma) : bool := 128 <? p.

Definition search_radius_of (max_range : f32) : Z :=
  F32.to_i32 (F32.ceil max_range).

(** The body of the two nested loops over [dy] and [dx]. *)
Definition scan_neighbor (mask : GrayImage) (x y : Z) (is_inside : bool)
    (dy dx : Z) (min_distance : f32) : M f32 :=
  let! nx := i32_add overflow_checks (wrap_i32 x) dx in
  let! ny := i32_add overflow_checks (wrap_i32 y) dy in
  if (0 <=? nx) && (nx <? wrap_i32 (width mask))
     && (0 <=? ny) && (ny <? wrap_i32 (height mask)) then
    let nx := wrap_u32 nx in
    let ny := wrap_u32 ny in
    let! neighbor_pixel := get_pixel mask nx ny in
    let neighbor_inside := is_inside_pixel neighbor_pixel in
    if negb (eqb is_inside neighbor_inside) then
      let! dx2 := i32_mul overflow_checks dx dx in
      let! dy2 := i32_mul overflow_checks dy dy in
      let! d2 := i32_add overflow_checks dx2 dy2 in
      let distance := F32.sqrt (F32.of_Z d2) in
      ret (F32.min min_distance distance)
    else ret min_distance
  else ret min_distance.

Definition calculate_distance_to_edge (mask : GrayImage) (x y : Z)
    (max_range : f32) : M f32 :=
  let! current_pixel := get_pixel mask x y in
  let is_inside := is_inside_pixel current_pixel in
  let search_radius := search_radius_of max_range in
  let! lo := i32_neg overflow_checks search_radius in
  let! min_distance :=
    for_range_incl lo search_radius (fun dy min_distance =>
      for_range_incl lo search_radius (fun dx min_distance =>
        scan_neighbor mask x y is_inside dy dx min_distance)
      min_distance)
    max_range in
  ret (if is_inside then F32.neg min_distance else min_distance).

(** [((distance / range + 1.0) * 0.5 * 255.0).clamp(0.0, 255.0) as u8] *)
Definition normalize (distance range : f32) : Z :=
  F32.to_u8
    (F32.clamp
       (F32.mul (F32.mul (F32.add (F32.div distance range) F32.one) F32.half)
                F32.c255)
       F32.zero F32.c255).

Definition generate_sdf_from_mask (mask : GrayImage) (range : f32) : M GrayImage :=
  let width := width mask in
  let height := height mask in
  let sdf := image_new width height 0 in
  for_range 0 height (fun y sdf =>
    for_range 0 width (fun x sdf =>
      let! distance := calculate_distance_to_edge mask x y range in
      put_pixel sdf x y (normalize distance range))
    sdf)
  sdf.

Definition generate_msdf_from_mask (mask : GrayImage) (range : f32) : M RgbImage :=
  let! sdf := generate_sdf_from_mask mask range in
  let width := width sdf in
  let height := height sdf in
  let msdf := image_new width height (0, 0, 0) in
  for_range 0 height (fun y msdf =>
    for_range 0 width (fun x msdf =>
      let! gray := get_pixel sdf x y in
      put_pixel msdf x y (gray, gray, gray))
    msdf)
  msdf.
End SdfGenerator.

(** ** The atlas packer ([src/atlas/packer.rs]) *)

Inductive DynamicImage : Type :=
| ImageLuma8 (img : GrayImage)
| ImageRgb8 (img : RgbImage)
| ImageRgba8 (img : RgbaImage).

(** A resampling filter of [image::imageops]: the value of the pixel at
    [(x, y)] of the source resampled to [nwidth x nheight]. *)
Record FilterType : Type := {
  sample_luma : GrayImage -> Z -> Z -> Z -> Z -> Luma;
  sample_rgb : RgbImage -> Z -> Z -> Z -> Z -> Rgb;
  sample_rgba : RgbaImage -> Z -> Z -> Z -> Z -> Rgba
}.

(** [DynamicImage::resize_exact]: the result has exactly the requested
    dimensions and the colour type of the source. *)
Definition resize_exact (image : DynamicImage) (nwidth nheight : Z)
    (filter : FilterType) : DynamicImage :=
  match image with
  | ImageLuma8 img =>
      ImageLuma8 {| width := nwidth; height := nheight;
                    pixel_at := sample_luma filter img nwidth nheight |}
  | ImageRgb8 img =>
      ImageRgb8 {| width := nwidth; height := nheight;
                   pixel_at := sample_rgb filter img nwidth nheight |}
  | ImageRgba8 img =>
      ImageRgba8 {| width := nwidth; height := nheight;
                    pixel_at := sample_rgba filter img nwidth nheight |}
  end.

(** [DynamicImage::to_rgba8]. *)
Definition to_rgba8 (image : DynamicImage) : RgbaImage :=
  match image with
  | ImageLuma8 img =>
      {| width := width img; height := height img;
         pixel_at := fun x y => let l := pixel_at img x y in (l, l, l, 255) |}
  | ImageRgb8 img =>
      {| width := width img; height := height img;
         pixel_at := fun x y => let '(r, g, b) := pixel_at img x y in (r, g, b, 255) |}
  | ImageRgba8 img => img
  end.

Record AtlasPosition : Type := {
  pos_x : Z;
  pos_y : Z;
  pos_width : Z;
  pos_height : Z
}.

(** [iter.enumerate()] *)
Definition enumerate {A} (l : list A) : list (Z * A) :=
  zip (seqZ 0 (Z.of_nat (length l))) l.

Section Packer.
Variable overflow_checks : bool.
Variable Lanczos3 : FilterType.

(** [(image_count as f32).sqrt().ceil() as u32] *)
Definition grid_size_of (image_count : Z) : Z :=
  F32.to_u32 (F32.ceil (F32.sqrt (F32.of_Z image_count))).

(** The two nested loops that copy a resized tile into the atlas. *)
Definition copy_to_atlas (rgba_image : RgbaImage) (x y content_size atlas_size : Z)
    (atlas : RgbaImage) : M RgbaImage :=
  for_range 0 content_size (fun py atlas =>
    for_range 0 content_size (fun px atlas =>
      let! xp := u32_add overflow_checks x px in
      if xp <? atlas_size then
        let! yp := u32_add overflow_checks y py in
        if yp <? atlas_size then
          let! source_pixel := get_pixel rgba_image px py in
          put_pixel atlas xp yp source_pixel
        else ret atlas
      else ret atlas)
    atlas)
  atlas.

(** The body of the loop over the enumerated tiles. *)
Definition place_tile (atlas_size padding grid_size cell_size content_size : Z)
    (entry : Z * (string * DynamicImage))
    (state : RgbaImage * gmap string AtlasPosition)
    : M (RgbaImage * gmap string AtlasPosition) :=
  let '(i, (id, image)) := entry in
  let '(atlas, positions) := state in
  let! grid_x := u32_rem (wrap_u32 i) grid_size in
  let! grid_y := u32_div (wrap_u32 i) grid_size in
  let! gxc := u32_mul overflow_checks grid_x cell_size in
  let! x := u32_add overflow_checks gxc padding in
  let! gyc := u32_mul overflow_checks grid_y cell_size in
  let! y := u32_add overflow_checks gyc padding in
  let resized := resize_exact image content_size content_size Lanczos3 in
  let rgba_image := to_rgba8 resized in
  let! atlas := copy_to_atlas rgba_image x y content_size atlas_size atlas in
  ret (atlas,
       <[id := {| pos_x := x; pos_y := y;
                  pos_width := content_size; pos_height := content_size |}]>
         positions).

Definition pack_atlas (images : list (string * DynamicImage))
    (atlas_size padding : Z) : M (RgbaImage * gmap string AtlasPosition) :=
  let positions : gmap string AtlasPosition := ∅ in
  let atlas := image_new atlas_size atlas_size (0, 0, 0, 0) in
  let image_count := Z.of_nat (length images) in
  let grid_size := grid_size_of image_count in
  let! cell_size := u32_div atlas_size grid_size in
  let! padding2 := u32_mul overflow_checks padding 2 in
  let! content_size := u32_sub overflow_checks cell_size padding2 in
  for_each (enumerate images)
    (place_tile atlas_size padding grid_size cell_size content_size)
    (atlas, positions).
End Packer.

(** ** The pipeline and its registry ([src/lib.rs]) *)

Record SdfConfig : Type := {
  cfg_font_path : option string;
  cfg_sdf_size : Z;
  cfg_atlas_size : Z;
  cfg_sdf_range : f32;
  cfg_padding : Z;
  cfg_include_shapes : bool;
  cfg_multi_channel : bool;
  cfg_characters : string
}.

Record CharacterSdf : Type := {
  sdf_image : DynamicImage;
  sdf_width : Z;
  sdf_height : Z;
  sdf_advance : f32;
  sdf_bearing_x : f32;
  sdf_bearing_y : f32
}.

Record CharacterInfo : Type := {
  ci_x : Z;
  ci_y : Z;
  ci_width : Z;
  ci_height : Z;
  ci_advance : f32;
  ci_bearing_x : f32;
  ci_bearing_y : f32
}.

Record ShapeInfo : Type := {
  si_x : Z;
  si_y : Z;
  si_width : Z;
  si_height : Z
}.

Record RegistryMetadata : Type := {
  md_atlas_width : Z;
  md_atlas_height : Z;
  md_sdf_range : f32;
  md_resolution : Z;
  md_padding : Z;
  md_format : string;
  md_created : string
}.

Record SdfRegistry : Type := {
  reg_metadata : RegistryMetadata;
  reg_characters : gmap ascii CharacterInfo;
  reg_shapes : gmap string ShapeInfo
}.

Record SdfResult : Type := {
  sprite_sheet : DynamicImage;
  registry : SdfRegistry
}.

(** [str::strip_prefix] *)
Fixpoint strip_prefix (prefix s : string) : option string :=
  match prefix with
  | EmptyString => Some s
  | String a prefix' =>
      match s with
      | EmptyString => None
      | String b s' => if Ascii.eqb a b then strip_prefix prefix' s' else None
      end
  end.

(** [s.chars().next()] *)
Definition first_char (s : string) : option ascii :=
  match s with
  | EmptyString => None
  | String c _ => Some c
  end.

(** [format!("char_{}", ch)] and [format!("shape_{}", name)] *)
Definition char_tile_id (ch : ascii) : string := "char_" +:+ String ch EmptyString.
Definition shape_tile_id (name : string) : string := "shape_" +:+ name.

(** The body of the loop "Update positions in registry". *)
Definition update_position (entry : string * AtlasPosition)
    (state : gmap ascii CharacterInfo * gmap string ShapeInfo)
    : gmap ascii CharacterInfo * gmap string ShapeInfo :=
  let '(id, pos) := entry in
  let '(characters, shapes) := state in
  match strip_prefix "char_" id with
  | Some stripped =>
      match first_char stripped with
      | Some ch =>
          match characters !! ch with
          | Some char_info =>
              (<[ch := {| ci_x := pos_x pos; ci_y := pos_y pos;
                          ci_width := ci_width char_info;
                          ci_height := ci_height char_info;
                          ci_advance := ci_advance char_info;
                          ci_bearing_x := ci_bearing_x char_info;
                          ci_bearing_y := ci_bearing_y char_info |}]> characters,
               shapes)
          | None => (characters, shapes)
          end
      | None => (characters, shapes)
      end
  | None =>
      match strip_prefix "shape_" id with
      | Some shape_name =>
          match shapes !! shape_name with
          | Some shape_info =>
              (characters,
               <[shape_name := {| si_x := pos_x pos; si_y := pos_y pos;
                                  si_width := si_width shape_info;
                                  si_height := si_height shape_info |}]> shapes)
          | None => (characters, shapes)
          end
      | None => (characters, shapes)
      end
  end.

(** [for (id, pos) in positions { ... }] over the entries in iteration order. *)
Definition update_positions (entries : list (string * AtlasPosition))
    (characters : gmap ascii CharacterInfo) (shapes : gmap string ShapeInfo)
    : gmap ascii CharacterInfo * gmap string ShapeInfo :=
  foldl (fun state entry => update_position entry state) (characters, shapes) entries.

(** The loop over the character SDFs: the registry entry and the tile of each. *)
Definition add_character (state : gmap ascii CharacterInfo * list (string * DynamicImage))
    (entry : ascii * CharacterSdf)
    : gmap ascii CharacterInfo * list (string * DynamicImage) :=
  let '(characters, sdf_images) := state in
  let '(ch, sdf_data) := entry in
  let char_info :=
    {| ci_x := 0; ci_y := 0;
       ci_width := sdf_width sdf_data; ci_height := sdf_height sdf_data;
       ci_advance := sdf_advance sdf_data;
       ci_bearing_x := sdf_bearing_x sdf_data;
       ci_bearing_y := sdf_bearing_y sdf_data |} in
  (<[ch := char_info]> characters,
   sdf_images ++ [(char_tile_id ch, sdf_image sdf_data)]).

(** The loop over the shape SDFs. *)
Definition add_shape (sdf_size : Z)
    (state : gmap string ShapeInfo * list (string * DynamicImage))
    (entry : string * DynamicImage)
    : gmap string ShapeInfo * list (string * DynamicImage) :=
  let '(shapes, sdf_images) := state in
  let '(name, image) := entry in
  let shape_info :=
    {| si_x := 0; si_y := 0; si_width := sdf_size; si_height := sdf_size |} in
  (<[name := shape_info]> shapes,
   sdf_images ++ [(shape_tile_id name, image)]).

Section Pipeline.
Variable overflow_checks : bool.
Variable Lanczos3 : FilterType.

(** The collaborators of [generate] outside this development: the file
    system, the font rasteriser, the analytic shapes and the clock. *)
Variable FontData : Type.
Variable fs_read : string -> M FontData.
Variable generate_character_sdfs :
  FontData -> string -> Z -> f32 -> bool -> M (gmap ascii CharacterSdf).
Variable generate_basic_shapes : Z -> f32 -> M (gmap string DynamicImage).
Variable utc_now : string.

(** The first half of [generate]: the registry entries and the tiles. *)
Definition generate_tiles (config : SdfConfig)
    : M (gmap ascii CharacterInfo * gmap string ShapeInfo
         * list (string * DynamicImage)) :=
  let characters : gmap ascii CharacterInfo := ∅ in
  let shapes : gmap string ShapeInfo := ∅ in
  let sdf_images : list (string * DynamicImage) := [] in
  let! with_characters :=
    match cfg_font_path config with
    | Some font_path =>
        let! font_data := fs_read font_path in
        let! character_sdfs :=
          generate_character_sdfs font_data (cfg_characters config)
            (cfg_sdf_size config) (cfg_sdf_range config)
            (cfg_multi_channel config) in
        ret (foldl add_character (characters, sdf_images)
               (map_to_list character_sdfs))
    | None => ret (characters, sdf_images)
    end in
  let '(characters, sdf_images) := with_characters in
  let! with_shapes :=
    if cfg_include_shapes config then
      let! shape_sdfs :=
        generate_basic_shapes (cfg_sdf_size config) (cfg_sdf_range config) in
      ret (foldl (add_shape (cfg_sdf_size config)) (shapes, sdf_images)
             (map_to_list shape_sdfs))
    else ret (shapes, sdf_images) in
  let '(shapes, sdf_images) := with_shapes in
  ret (characters, shapes, sdf_images).

Definition generate (config : SdfConfig) : M SdfResult :=
  let! tiles := generate_tiles config in
  let '(characters, shapes, sdf_images) := tiles in
  let! packed :=
    pack_atlas overflow_checks Lanczos3 sdf_images
      (cfg_atlas_size config) (cfg_padding config) in
  let '(atlas_image, positions) := packed in
  let '(characters, shapes) :=
    update_positions (map_to_list positions) characters shapes in
  let registry :=
    {| reg_metadata :=
         {| md_atlas_width := cfg_atlas_size config;
            md_atlas_height := cfg_atlas_size config;
            md_sdf_range := cfg_sdf_range config;
            md_resolution := cfg_sdf_size config;
            md_padding := cfg_padding config;
            md_format := if cfg_multi_channel config then "multi_channel"
                         else "single_channel";
            md_created := utc_now |};
       reg_characters := characters;
       reg_shapes := shapes |} in
  ret {| sprite_sheet := ImageRgba8 atlas_image; registry := registry |}.
End Pipeline.

(** [atlas::registry::create_registry], the sibling assembly of the registry
    from already separated placements ([src/atlas/registry.rs]). *)
Definition create_registry (atlas_width atlas_height : Z) (sdf_range : f32)
    (resolution padding : Z) (multi_channel : bool) (created : string)
    (character_positions : gmap ascii (Z * Z * Z * Z))
    (shape_positions : gmap string (Z * Z * Z * Z)) : SdfRegistry :=
  let characters : gmap ascii CharacterInfo :=
    foldl (fun characters entry =>
             let '(ch, (x, y, width, height)) := entry in
             <[ch := {| ci_x := x; ci_y := y; ci_width := width;
                        ci_height := height;
                        ci_advance := F32.of_Z width;
                        ci_bearing_x := F32.zero;
                        ci_bearing_y := F32.of_Z height |}]> characters)
          ∅ (map_to_list character_positions) in
  let shapes : gmap string ShapeInfo :=
    foldl (fun shapes entry =>
             let '(name, (x, y, width, height)) := entry in
             <[name := {| si_x := x; si_y := y; si_width := width;
                          si_height := height |}]> shapes)
          ∅ (map_to_list shape_positions) in
  {| reg_metadata :=
       {| md_atlas_width := atlas_width; md_atlas_height := atlas_height;
          md_sdf_range := sdf_range; md_resolution := resolution;
          md_padding := padding;
          md_format := if multi_channel then "multi_channel" else "single_channel";
          md_created := created |};
     reg_characters := characters;
     reg_shapes := shapes |}.

(** ** The analytic shapes ([src/sdf/shapes.rs]) *)

(** The literals [0.8], [0.866], [0.433] and [0.75]. *)
Definition c0_8 : f32 := Eval vm_compute in F32.decimal 8 10.
Definition c0_866 : f32 := Eval vm_compute in F32.decimal 866 1000.
Definition c0_433 : f32 := Eval vm_compute in F32.decimal 433 1000.
Definition c0_75 : f32 := Eval vm_compute in F32.decimal 75 100.

Definition generate_circle_sdf (size : Z) (range : f32) : M GrayImage :=
  let image := image_new size size 0 in
  let center := F32.div (F32.of_Z size) F32.two in
  let radius := F32.mul center c0_8 in
  for_range 0 size (fun y image =>
    for_range 0 size (fun x image =>
      let px := F32.sub (F32.of_Z x) center in
      let py := F32.sub (F32.of_Z y) center in
      let distance :=
        F32.sub (F32.sqrt (F32.add (F32.mul px px) (F32.mul py py))) radius in
      let normalized := normalize distance range in
      put_pixel image x y normalized)
    image)
  image.

Definition point_to_line_distance (px py : f32) (p1 p2 : f32 * f32) : f32 :=
  let dx := F32.sub (fst p2) (fst p1) in
  let dy := F32.sub (snd p2) (snd p1) in
  let length_sq := F32.add (F32.mul dx dx) (F32.mul dy dy) in
  if F32.eqb length_sq F32.zero then
    F32.sqrt (F32.add (F32.mul (F32.sub px (fst p1)) (F32.sub px (fst p1)))
                      (F32.mul (F32.sub py (snd p1)) (F32.sub py (snd p1))))
  else
    let t := F32.div (F32.add (F32.mul (F32.sub px (fst p1)) dx)
                              (F32.mul (F32.sub py (snd p1)) dy)) length_sq in
    let t := F32.clamp t F32.zero F32.one in
    let closest_x := F32.add (fst p1) (F32.mul t dx) in
    let closest_y := F32.add (snd p1) (F32.mul t dy) in
    F32.sqrt (F32.add (F32.mul (F32.sub px closest_x) (F32.sub px closest_x))
                      (F32.mul (F32.sub py closest_y) (F32.sub py closest_y))).

(** The barycentric test; [a >= 0.0] is [0.0 <= a]. *)
Definition is_point_in_triangle (px py : f32) (v0 v1 v2 : f32 * f32) : bool :=
  let denom :=
    F32.add (F32.mul (F32.sub (snd v1) (snd v2)) (F32.sub (fst v0) (fst v2)))
            (F32.mul (F32.sub (fst v2) (fst v1)) (F32.sub (snd v0) (snd v2))) in
  let a :=
    F32.div (F32.add (F32.mul (F32.sub (snd v1) (snd v2)) (F32.sub px (fst v2)))
                     (F32.mul (F32.sub (fst v2) (fst v1)) (F32.sub py (snd v2))))
            denom in
  let b :=
    F32.div (F32.add (F32.mul (F32.sub (snd v2) (snd v0)) (F32.sub px (fst v2)))
                     (F32.mul (F32.sub (fst v0) (fst v2)) (F32.sub py (snd v2))))
            denom in
  let c := F32.sub (F32.sub F32.one a) b in
  F32.leb F32.zero a && F32.leb F32.zero b && F32.leb F32.zero c.

Definition triangle_sdf (px py : f32) (v0 v1 v2 : f32 * f32) : f32 :=
  let d1 := point_to_line_distance px py v0 v1 in
  let d2 := point_to_line_distance px py v1 v2 in
  let d3 := point_to_line_distance px py v2 v0 in
  let inside := is_point_in_triangle px py v0 v1 v2 in
  let min_dist := F32.min (F32.min d1 d2) d3 in
  if inside then F32.neg min_dist else min_dist.

Definition generate_triangle_sdf (size : Z) (range : f32) : M GrayImage :=
  let image := image_new size size 0 in
  let center := F32.div (F32.of_Z size) F32.two in
  let scale := F32.mul center c0_8 in
  let v0 := (F32.zero, F32.neg c0_866) in
  let v1 := (F32.neg c0_75, c0_433) in
  let v2 := (c0_75, c0_433) in
  for_range 0 size (fun y image =>
    for_range 0 size (fun x image =>
      let px := F32.div (F32.sub (F32.of_Z x) center) scale in
      let py := F32.div (F32.sub (F32.of_Z y) center) scale in
      let distance := F32.mul (triangle_sdf px py v0 v1 v2) scale in
      let normalized := normalize distance range in
      put_pixel image x y normalized)
    image)
  image.

Definition generate_square_sdf (size : Z) (range : f32) : M GrayImage :=
  let image := image_new size size 0 in
  let center := F32.div (F32.of_Z size) F32.two in
  let half_size := F32.mul center c0_8 in
  for_range 0 size (fun y image =>
    for_range 0 size (fun x image =>
      let px := F32.abs (F32.sub (F32.of_Z x) center) in
      let py := F32.abs (F32.sub (F32.of_Z y) center) in
      let distance := F32.max (F32.sub px half_size) (F32.sub py half_size) in
      let normalized := normalize distance range in
      put_pixel image x y normalized)
    image)
  image.

Definition generate_basic_shapes (size : Z) (range : f32)
    : M (gmap string DynamicImage) :=
  let shapes : gmap string DynamicImage := ∅ in
  let! circle := generate_circle_sdf size range in
  let shapes := <["circle"%string := ImageLuma8 circle]> shapes in
  let! triangle := generate_triangle_sdf size range in
  let shapes := <["triangle"%string := ImageLuma8 triangle]> shapes in
  let! square := generate_square_sdf size range in
  let shapes := <["square"%string := ImageLuma8 square]> shapes in
  ret shapes.

(** ** The character tiles ([src/sdf/font.rs]) *)

(** The literals [0.1] and [0.6]. *)
Definition c0_1 : f32 := Eval vm_compute in F32.decimal 1 10.
Definition c0_6 : f32 := Eval vm_compute in F32.decimal 6 10.

(** [Err(anyhow!(...))] *)
Definition fail {A} (msg : string) : M A := (Err msg, []).

(** [ch as u32] *)
Definition char_code (ch : ascii) : Z := Z.of_N (N_of_ascii ch).

Definition generate_character_placeholder_sdf (ch : ascii) (size : Z) (range : f32)
    (multi_channel : bool) : M DynamicImage :=
  if multi_channel then
    let image : RgbImage := image_new size size (0, 0, 0) in
    let center := F32.div (F32.of_Z size) F32.two in
    let char_code := char_code ch in
    let pattern_freq := F32.add (F32.div (F32.of_Z (char_code mod 10)) F32.ten) c0_1 in
    let! image :=
      for_range 0 size (fun y image =>
        for_range 0 size (fun x image =>
          let px := F32.div (F32.sub (F32.of_Z x) center) center in
          let py := F32.div (F32.sub (F32.of_Z y) center) center in
          let distance :=
            F32.sub (F32.sqrt (F32.add (F32.mul px px) (F32.mul py py))) c0_6 in
          let normalized := normalize distance range in
          let r := normalized in
          let g := F32.to_u8 (F32.mul (F32.of_Z normalized)
                                (F32.add F32.one (F32.mul pattern_freq c0_1))) in
          let b := F32.to_u8 (F32.mul (F32.of_Z normalized)
                                (F32.sub F32.one (F32.mul pattern_freq c0_1))) in
          put_pixel image x y (r, g, b))
        image)
      image in
    ret (ImageRgb8 image)
  else
    let image : GrayImage := image_new size size 0 in
    let center := F32.div (F32.of_Z size) F32.two in
    let! image :=
      for_range 0 size (fun y image =>
        for_range 0 size (fun x image =>
          let px := F32.div (F32.sub (F32.of_Z x) center) center in
          let py := F32.div (F32.sub (F32.of_Z y) center) center in
          let distance :=
            F32.sub (F32.sqrt (F32.add (F32.mul px px) (F32.mul py py))) c0_6 in
          let normalized := normalize distance range in
          put_pixel image x y normalized)
        image)
      image in
    ret (ImageLuma8 image).

(** [ttf_parser::Rect] and the part of [ttf_parser::Face] that is used. *)
Record Rect : Type := {
  x_min : Z;
  y_min : Z;
  x_max : Z;
  y_max : Z
}.

Record Face : Type := {
  units_per_em : Z;
  glyph_index : ascii -> option Z;
  glyph_hor_advance : Z -> option Z;
  glyph_bounding_box : Z -> option Rect
}.

Section Font.
Variable FontData : Type.
(** [Face::parse(font_data, 0)]: a face, or the text of the parsing error. *)
Variable parse : FontData -> Face + string.

Definition character_sdf_of (face : Face) (scale : f32) (sdf_size : Z)
    (glyph_id : Z) (sdf_image : DynamicImage) : CharacterSdf :=
  let advance :=
    match glyph_hor_advance face glyph_id with
    | Some a => F32.mul (F32.of_Z a) scale
    | None => F32.of_Z sdf_size
    end in
  let bbox := glyph_bounding_box face glyph_id in
  let '(bearing_x, bearing_y) :=
    match bbox with
    | Some bbox => (F32.mul (F32.of_Z (x_min bbox)) scale,
                    F32.mul (F32.of_Z (y_max bbox)) scale)
    | None => (F32.zero, F32.zero)
    end in
  {| sdf_image := sdf_image; sdf_width := sdf_size; sdf_height := sdf_size;
     sdf_advance := advance; sdf_bearing_x := bearing_x;
     sdf_bearing_y := bearing_y |}.

Definition generate_character_sdfs (font_data : FontData) (characters : string)
    (sdf_size : Z) (range : f32) (multi_channel : bool)
    : M (gmap ascii CharacterSdf) :=
  match parse font_data with
  | inr e => fail ("Failed to parse font: " +:+ e)
  | inl face =>
      let results : gmap ascii CharacterSdf := ∅ in
      let scale := F32.div (F32.of_Z sdf_size) (F32.of_Z (units_per_em face)) in
      for_each (list_ascii_of_string characters) (fun ch results =>
        match glyph_index face ch with
        | Some glyph_id =>
            let! sdf_image :=
              generate_character_placeholder_sdf ch sdf_size range multi_channel in
            ret (<[ch := character_sdf_of face scale sdf_size glyph_id sdf_image]>
                   results)
        | None => ret results
        end) results
  end.
End Font.

(** ** Image and arithmetic utilities ([src/utils/image.rs], [src/utils/math.rs]) *)

(** [ImageUtils::create_mask] *)
Definition create_mask (image : GrayImage) (threshold : Z) : M GrayImage :=
  let width := width image in
  let height := height image in
  let mask := image_new width height 0 in
  for_range 0 height (fun y mask =>
    for_range 0 width (fun x mask =>
      let! pixel := get_pixel image x y in
      let value := if threshold <? pixel then 255 else 0 in
      put_pixel mask x y value)
    mask)
  mask.

(** [MathUtils::clamp]: [value.max(min).min(max)] *)
Definition math_clamp (value min max : f32) : f32 :=
  F32.min (F32.max value min) max.

(** * Specification-side definitions *)

(** ** Outcomes of computations *)

(** [returns m Q R]: [m] returns normally with a value satisfying [Q], and
    every read it logged satisfies [R]. *)
Definition returns {A} (m : M A) (Q : A -> Prop) (R : Z * Z -> Prop) : Prop :=
  exists a log, m = (Ok a, log) /\ Q a /\ Forall R log.

Definition same_outcome {A B} (rel : A -> B -> Prop)
    (o1 : outcome A) (o2 : outcome B) : Prop :=
  match o1, o2 with
  | Ok a, Ok b => rel a b
  | Err e1, Err e2 => e1 = e2
  | Panic p1, Panic p2 => p1 = p2
  | _, _ => False
  end.

Definition agree {A B} (rel : A -> B -> Prop) (m1 : M A) (m2 : M B) : Prop :=
  same_outcome rel (result_of m1) (result_of m2).

(** ** Binary32 values *)

Definition emin32 : Z := emin F32.prec F32.emax.

(** A strictly positive float whose exponent is at least [L]. *)
Definition positive_from (L : Z) (x : f32) : Prop :=
  match x with
  | S754_finite false _ e => L <= e
  | S754_infinity false => True
  | _ => False
  end.

Definition is_positive (x : f32) : Prop :=
  match x with
  | S754_finite false _ _ | S754_infinity false => True
  | _ => False
  end.

(** ** The distance field *)

(** The search of radius [ceil(max_range)] stays within [i32]: neither a
    window coordinate [x + dx] nor the squared distance [dx * dx + dy * dy]
    of a neighbour inside the mask overflows. *)
Definition search_fits_i32 (mask : GrayImage) (max_range : f32) : Prop :=
  let r := search_radius_of max_range in
  let a := Z.min r (width mask - 1) in
  let b := Z.min r (height mask - 1) in
  width mask + r <= i32_max /\ height mask + r <= i32_max /\
  a * a + b * b <= i32_max.

Definition read_in_bounds (mask : GrayImage) (p : Z * Z) : Prop :=
  0 <= fst p < width mask /\ 0 <= snd p < height mask.

(** The loop invariant of the search: the running minimum is a strictly
    positive number that does not exceed the range. *)
Definition within_range (max_range min_distance : f32) : Prop :=
  is_positive min_distance /\ F32.leb min_distance max_range = true.

Definition replicated (sdf : GrayImage) (msdf : RgbImage) (x y : Z) : Prop :=
  pixel_at msdf x y = (pixel_at sdf x y, pixel_at sdf x y, pixel_at sdf x y).

(** ** Placements *)

(** The integer ceiling of the square root. *)
Definition ceil_sqrt (n : Z) : Z := Z.sqrt_up n.

(** Tile counts up to this bound are exact in binary32. *)
Definition max_exact_count : Z := 16777215.

(** The placement of tile [i] among [n], in the words of the specification:
    grid side [g = ceil(sqrt n)], cell [c = atlasSize / g], content size
    [s = c - 2 * padding], cell [(i mod g, i div g)]. *)
Definition spec_placement (n atlas_size padding i : Z) : AtlasPosition :=
  let g := ceil_sqrt n in
  let c := atlas_size / g in
  let s := c - 2 * padding in
  {| pos_x := (i mod g) * c + padding;
     pos_y := (i / g) * c + padding;
     pos_width := s;
     pos_height := s |}.

(** The placement map of an ordered list of tile ids. *)
Definition spec_placements (atlas_size padding : Z) (ids : list string)
    : gmap string AtlasPosition :=
  let n := Z.of_nat (length ids) in
  foldl (fun positions entry =>
           <[snd entry := spec_placement n atlas_size padding (fst entry)]> positions)
        ∅ (enumerate ids).

(** Lookups in a map built by inserting, in order, [f k], [f (k+1)], ... at
    the keys of a list: the last occurrence of a key wins. *)
Definition insert_indexed (f : Z -> AtlasPosition) (ids : list string) (k : Z)
    (t : gmap string AtlasPosition) : gmap string AtlasPosition :=
  foldl (fun positions (entry : Z * string) => <[snd entry := f (fst entry)]> positions)
        t (zip (seqZ k (Z.of_nat (length ids))) ids).

Definition inside_atlas (atlas_size : Z) (p : AtlasPosition) : Prop :=
  0 <= pos_x p /\ 0 <= pos_y p /\
  pos_x p + pos_width p <= atlas_size /\ pos_y p + pos_height p <= atlas_size.

Definition disjoint_rectangles (p1 p2 : AtlasPosition) : Prop :=
  pos_x p1 + pos_width p1 <= pos_x p2 \/ pos_x p2 + pos_width p2 <= pos_x p1 \/
  pos_y p1 + pos_height p1 <= pos_y p2 \/ pos_y p2 + pos_height p2 <= pos_y p1.

Definition same_dimensions {P Q} (a : ImageBuffer P) (b : ImageBuffer Q) : Prop :=
  width a = width b /\ height a = height b.

Definition same_packing (s1 s2 : RgbaImage * gmap string AtlasPosition) : Prop :=
  same_dimensions (fst s1) (fst s2) /\ snd s1 = snd s2.

(** ** Registry entries *)

(** A key of the registry: a character or a shape name. *)
Inductive registry_key : Type :=
| CharKey (ch : ascii)
| ShapeKey (name : string).

(** The tile id under which the pipeline packs the entry of a key. *)
Definition tile_id_of (k : registry_key) : string :=
  match k with
  | CharKey ch => char_tile_id ch
  | ShapeKey name => shape_tile_id name
  end.


(** The tiles handed to the packer: one per registry entry, under the id of
    its key, without repetition. *)
Definition tiles_match_entries (characters : gmap ascii CharacterInfo)
    (shapes : gmap string ShapeInfo) (ids : list string) : Prop :=
  exists (chs : list ascii) (names : list string),
    NoDup chs /\ NoDup names /\
    (forall ch, is_Some (characters !! ch) <-> ch ∈ chs) /\
    (forall name, is_Some (shapes !! name) <-> name ∈ names) /\
    ids = map char_tile_id chs ++ map shape_tile_id names.

(** ** Sample inputs *)

(** Nearest-neighbour sampling, a stand-in filter for running the packer. *)
Definition nearest : FilterType := {|
  sample_luma := fun img w h x y => pixel_at img (x * width img / w) (y * height img / h);
  sample_rgb := fun img w h x y => pixel_at img (x * width img / w) (y * height img / h);
  sample_rgba := fun img w h x y => pixel_at img (x * width img / w) (y * height img / h)
|}.

(** A uniform grey tile of side [size]. *)
Definition grey_tile (size value : Z) : DynamicImage :=
  ImageLuma8 (image_new size size value).

(** The tiles A, B, C of the specification's scenario. *)
Definition tiles_ABC : list (string * DynamicImage) :=
  [("A", grey_tile 64 10); ("B", grey_tile 64 20); ("C", grey_tile 64 30)].

(** The same ids over other pixels. *)
Definition tiles_ABC' : list (string * DynamicImage) :=
  [("A", grey_tile 64 200); ("B", grey_tile 32 0); ("C", grey_tile 64 77)].

Definition five_tiles : list (string * DynamicImage) :=
  [("a", grey_tile 8 1); ("b", grey_tile 8 2); ("c", grey_tile 8 3);
   ("d", grey_tile 8 4); ("e", grey_tile 8 5)].

(** A 3 x 2 mask whose left column is inside. *)
Definition column_mask : GrayImage :=
  {| width := 3; height := 2; pixel_at := fun x _ => if x =? 0 then 255 else 0 |}.

Definition range4 : f32 := Eval vm_compute in F32.of_Z 4.

(** Stand-ins for the collaborators of [generate]. *)
Definition sample_fs_read (path : string) : M unit := ret tt.

Definition sample_character_sdf (sdf_size : Z) : CharacterSdf :=
  {| sdf_image := grey_tile sdf_size 128;
     sdf_width := sdf_size; sdf_height := sdf_size;
     sdf_advance := F32.of_Z sdf_size;
     sdf_bearing_x := F32.zero; sdf_bearing_y := F32.of_Z sdf_size |}.

Definition sample_character_sdfs (font_data : unit) (characters : string)
    (sdf_size : Z) (range : f32) (multi_channel : bool)
    : M (gmap ascii CharacterSdf) :=
  ret (list_to_map
         (map (fun ch => (ch, sample_character_sdf sdf_size))
              (list_ascii_of_string characters))).

Definition sample_basic_shapes (size : Z) (range : f32)
    : M (gmap string DynamicImage) :=
  ret (list_to_map [("circle", grey_tile size 64); ("triangle", grey_tile size 96);
                    ("square", grey_tile size 160)]).

(** Shapes only, 8-pixel tiles in an atlas of 64 with padding 2. *)
Definition shapes_config : SdfConfig :=
  {| cfg_font_path := None; cfg_sdf_size := 8; cfg_atlas_size := 64;
     cfg_sdf_range := range4; cfg_padding := 2; cfg_include_shapes := true;
     cfg_multi_channel := false; cfg_characters := "" |}.


(** ** Further notions used by the properties *)

(** The neighbour at offset [(dx, dy)] lies inside the mask and is classified
    unlike the pixel [(x, y)] itself. *)
Definition other_class (mask : GrayImage) (x y dx dy : Z) : bool :=
  in_bounds mask (x + dx) (y + dy) &&
  negb (eqb (is_inside_pixel (pixel_at mask x y))
            (is_inside_pixel (pixel_at mask (x + dx) (y + dy)))).

(** [((dx * dx + dy * dy) as f32).sqrt()] *)
Definition pixel_distance (dx dy : Z) : f32 := F32.sqrt (F32.of_Z (dx * dx + dy * dy)).

(** What the search has found once it has looked at the offsets [seen]: the
    range itself or the distance of a seen pixel of the other class, and no
    seen pixel of the other class is nearer. *)
Definition nearest_among (mask : GrayImage) (x y : Z) (max_range : f32)
    (seen : Z -> Z -> Prop) (min_distance : f32) : Prop :=
  within_range max_range min_distance /\
  (min_distance = max_range \/
   exists dx dy, seen dx dy /\ other_class mask x y dx dy = true /\
                 min_distance = pixel_distance dx dy) /\
  (forall dx dy, seen dx dy -> other_class mask x y dx dy = true ->
     F32.leb min_distance (pixel_distance dx dy) = true).

(** The value the engine encodes at a pixel: the normalised distance. *)
Definition encoded_distance (oc : bool) (mask : GrayImage) (range : f32) (x y : Z) : Z :=
  match result_of (calculate_distance_to_edge oc mask x y range) with
  | Ok distance => normalize distance range
  | _ => 0
  end.

(** The pixel [(X, Y)] lies in the content rectangle of a placement. *)
Definition in_rectangle (p : AtlasPosition) (X Y : Z) : Prop :=
  pos_x p <= X < pos_x p + pos_width p /\ pos_y p <= Y < pos_y p + pos_height p.

(** A tile as it is copied: resampled to the content size, in RGBA. *)
Definition resized_tile (filter : FilterType) (content_size : Z)
    (image : DynamicImage) : RgbaImage :=
  to_rgba8 (resize_exact image content_size content_size filter).

(** The atlas after the tiles [placed] of [n]: each of them in its rectangle,
    the background everywhere else. *)
Definition atlas_holds (filter : FilterType) (n atlas_size padding : Z)
    (placed : list (Z * (string * DynamicImage))) (atlas : RgbaImage) : Prop :=
  let s := atlas_size / ceil_sqrt n - 2 * padding in
  let P := spec_placement n atlas_size padding in
  width atlas = atlas_size /\ height atlas = atlas_size /\
  (forall i id image, (i, (id, image)) ∈ placed ->
     forall px py, 0 <= px < s -> 0 <= py < s ->
       pixel_at atlas (pos_x (P i) + px) (pos_y (P i) + py)
       = pixel_at (resized_tile filter s image) px py) /\
  (forall X Y, (forall i id image, (i, (id, image)) ∈ placed -> ~ in_rectangle (P i) X Y) ->
     pixel_at atlas X Y = (0, 0, 0, 0)).

(** A registry entry moved to a placement: x and y of the placement, the
    other fields kept. *)
Definition move_character (pos : option AtlasPosition) (info : CharacterInfo)
    : CharacterInfo :=
  match pos with
  | Some p => {| ci_x := pos_x p; ci_y := pos_y p;
                 ci_width := ci_width info; ci_height := ci_height info;
                 ci_advance := ci_advance info;
                 ci_bearing_x := ci_bearing_x info;
                 ci_bearing_y := ci_bearing_y info |}
  | None => info
  end.

Definition move_shape (pos : option AtlasPosition) (info : ShapeInfo) : ShapeInfo :=
  match pos with
  | Some p => {| si_x := pos_x p; si_y := pos_y p;
                 si_width := si_width info; si_height := si_height info |}
  | None => info
  end.

(** [create_registry]'s entry for a rectangle. *)
Definition character_entry (r : Z * Z * Z * Z) : CharacterInfo :=
  let '(x, y, width, height) := r in
  {| ci_x := x; ci_y := y; ci_width := width; ci_height := height;
     ci_advance := F32.of_Z width; ci_bearing_x := F32.zero;
     ci_bearing_y := F32.of_Z height |}.

Definition shape_entry (r : Z * Z * Z * Z) : ShapeInfo :=
  let '(x, y, width, height) := r in
  {| si_x := x; si_y := y; si_width := width; si_height := height |}.

(** The shape names of [generate_basic_shapes]. *)
Definition shape_names : list string := ["circle"; "triangle"; "square"]%string.

(** The signed distance of pixel [(x, y)] to the circle, as the loop body
    computes it. *)
Definition circle_distance (size x y : Z) : f32 :=
  let center := F32.div (F32.of_Z size) F32.two in
  let radius := F32.mul center c0_8 in
  let px := F32.sub (F32.of_Z x) center in
  let py := F32.sub (F32.of_Z y) center in
  F32.sub (F32.sqrt (F32.add (F32.mul px px) (F32.mul py py))) radius.

(** [(char_code % 10) as f32 / 10.0 + 0.1] *)
Definition pattern_freq_of (ch : ascii) : f32 :=
  F32.add (F32.div (F32.of_Z (char_code ch mod 10)) F32.ten) c0_1.

(** The green and the blue channel of a pixel whose red channel is
    [normalized]. *)
Definition green_of (pattern_freq : f32) (normalized : Z) : Z :=
  F32.to_u8 (F32.mul (F32.of_Z normalized)
               (F32.add F32.one (F32.mul pattern_freq c0_1))).

Definition blue_of (pattern_freq : f32) (normalized : Z) : Z :=
  F32.to_u8 (F32.mul (F32.of_Z normalized)
               (F32.sub F32.one (F32.mul pattern_freq c0_1))).

(** The distance of pixel [(x, y)] in a character tile, as the loop body
    computes it. *)
Definition placeholder_distance (size x y : Z) : f32 :=
  let center := F32.div (F32.of_Z size) F32.two in
  let px := F32.div (F32.sub (F32.of_Z x) center) center in
  let py := F32.div (F32.sub (F32.of_Z y) center) center in
  F32.sub (F32.sqrt (F32.add (F32.mul px px) (F32.mul py py))) c0_6.

(** The channels are bytes, and no pixel has [blue > red] or [red > green]. *)
Definition channels_ordered (code normalized : Z) : bool :=
  let pattern_freq := F32.add (F32.div (F32.of_Z code) F32.ten) c0_1 in
  (0 <=? blue_of pattern_freq normalized)
  && (blue_of pattern_freq normalized <=? normalized)
  && (normalized <=? green_of pattern_freq normalized)
  && (green_of pattern_freq normalized <=? 255).

(** The registry entry of a character tile before packing. *)
Definition character_info_of (sdf_data : CharacterSdf) : CharacterInfo :=
  {| ci_x := 0; ci_y := 0;
     ci_width := sdf_width sdf_data; ci_height := sdf_height sdf_data;
     ci_advance := sdf_advance sdf_data;
     ci_bearing_x := sdf_bearing_x sdf_data;
     ci_bearing_y := sdf_bearing_y sdf_data |}.

(** Two masks of the same dimensions whose pixels fall in the same class. *)
Definition same_classes (m1 m2 : GrayImage) : Prop :=
  width m1 = width m2 /\ height m1 = height m2 /\
  forall x y, in_bounds m1 x y = true ->
    is_inside_pixel (pixel_at m1 x y) = is_inside_pixel (pixel_at m2 x y).

(** The placement of tile [i] on a grid of side [g], as the packer computes
    it. *)
Definition grid_placement (g atlas_size padding i : Z) : AtlasPosition :=
  let c := atlas_size / g in
  let s := c - 2 * padding in
  {| pos_x := (i mod g) * c + padding;
     pos_y := (i / g) * c + padding;
     pos_width := s;
     pos_height := s |}.

(** ** Further sample inputs *)

(** A 4 x 4 mask that is inside everywhere. *)
Definition filled_mask : GrayImage := image_new 4 4 255.

(** No font and no shapes. *)
Definition empty_config : SdfConfig :=
  {| cfg_font_path := None; cfg_sdf_size := 64; cfg_atlas_size := 1024;
     cfg_sdf_range := range4; cfg_padding := 2; cfg_include_shapes := false;
     cfg_multi_channel := false;
     cfg_characters := "abcdefghijklmnopqrstuvwxyzABCDEFGHIJKLMNOPQRSTUVWXYZ0123456789" |}.

(** Shapes only: 4-pixel tiles in an atlas of 16 with padding 1. *)
Definition shapes_only_config : SdfConfig :=
  {| cfg_font_path := None; cfg_sdf_size := 4; cfg_atlas_size := 16;
     cfg_sdf_range := range4; cfg_padding := 1; cfg_include_shapes := true;
     cfg_multi_channel := false; cfg_characters := "" |}.

(** A face with glyphs for the lower-case letters only. *)
Definition sample_face : Face :=
  {| units_per_em := 1000;
     glyph_index := fun ch =>
       let c := char_code ch in
       if (97 <=? c) && (c <=? 122) then Some (c - 96) else None;
     glyph_hor_advance := fun g => if g =? 1 then None else Some 600;
     glyph_bounding_box := fun g =>
       if g =? 2 then None
       else Some {| x_min := 50; y_min := -10; x_max := 550; y_max := 700 |} |}.

Definition sample_parse (font_data : list Z) : Face + string :=
  match font_data with
  | [] => inr "unknown magic"%string
  | _ => inl sample_face
  end.

Definition sample_font_read (path : string) : M (list Z) := ret [0; 1; 0; 0].

(** Two characters and the shapes: 4-pixel tiles in an atlas of 16. *)
Definition small_config : SdfConfig :=
  {| cfg_font_path := Some "font.ttf"%string; cfg_sdf_size := 4; cfg_atlas_size := 16;
     cfg_sdf_range := range4; cfg_padding := 1; cfg_include_shapes := true;
     cfg_multi_channel := false; cfg_characters := "ab"%string |}.

(** A mask with grey levels on both sides of 128. *)
Definition grey_mask : GrayImage :=
  {| width := 3; height := 2;
     pixel_at := fun x y => if x =? 0 then 200 + y else 40 * x + y |}.

(** A mask of one row whose last pixel alone is outside. *)
Definition long_row_mask : GrayImage :=
  {| width := 46342; height := 1;
     pixel_at := fun x _ => if x <? 46341 then 255 else 0 |}.

Definition range46341 : f32 := Eval vm_compute in F32.of_Z 46341.

(** A mask of two pixels, both inside. *)
Definition two_pixel_mask : GrayImage :=
  {| width := 2; height := 1; pixel_at := fun _ _ => 255 |}.

(** The range [2^31]. *)
Definition range_2_31 : f32 := Eval vm_compute in F32.of_Z 2147483648.

(** [2^24] tiles "a" and one more tile "z", all of one pixel. *)
Definition many_tiles : list (string * DynamicImage) :=
  replicate (Z.to_nat 16777216) ("a"%string, grey_tile 1 0) ++ [("z"%string, grey_tile 1 0)].

(** * Properties *)

(** ** Reasoning about computations *)

Lemma returns_ret {A} (a : A) (Q : A -> Prop) R : Q a -> returns (ret a) Q R.
Proof. intros HQ. exists a, []. repeat split; auto. Qed.

Lemma returns_bind {A B} (m : M A) (k : A -> M B) Q1 Q2 R :
  returns m Q1 R ->
  (forall a, Q1 a -> returns (k a) Q2 R) ->
  returns (bind m k) Q2 R.
Proof.
  intros (a & log & -> & Ha & Hlog) Hk.
  destruct (Hk a Ha) as (b & log' & Hkb & Hb & Hlog').
  exists b, (log ++ log'). simpl. rewrite Hkb.
  repeat split; auto. apply Forall_app; auto.
Qed.

Lemma returns_weaken {A} (m : M A) (Q Q' : A -> Prop) R :
  returns m Q R -> (forall a, Q a -> Q' a) -> returns m Q' R.
Proof.
  intros (a & log & -> & Ha & Hlog) HQ. exists a, log. auto.
Qed.

Lemma returns_for_each {A S} (l : list A) (body : A -> S -> M S)
    (I : S -> Prop) R (s : S) :
  (forall i s, In i l -> I s -> returns (body i s) I R) ->
  I s -> returns (for_each l body s) I R.
Proof.
  revert s. induction l as [|i l IH]; intros s Hbody Hs; simpl.
  - apply returns_ret; auto.
  - eapply returns_bind.
    + apply Hbody; auto. now left.
    + intros s' Hs'. apply IH; auto. intros j t Hj. apply Hbody. now right.
Qed.

Lemma In_seqZ (i lo len : Z) : In i (seqZ lo len) <-> lo <= i < lo + len.
Proof.
  rewrite <- list_elem_of_In, elem_of_seqZ. tauto.
Qed.

Lemma returns_for_range {S} (lo hi : Z) (body : Z -> S -> M S) (I : S -> Prop) R s :
  (forall i s, lo <= i < hi -> I s -> returns (body i s) I R) ->
  I s -> returns (for_range lo hi body s) I R.
Proof.
  intros Hbody Hs. apply returns_for_each; auto.
  intros i t Hi. apply Hbody. apply In_seqZ in Hi. lia.
Qed.

Lemma returns_for_range_incl {S} (lo hi : Z) (body : Z -> S -> M S)
    (I : S -> Prop) R s :
  (forall i s, lo <= i <= hi -> I s -> returns (body i s) I R) ->
  I s -> returns (for_range_incl lo hi body s) I R.
Proof.
  intros Hbody Hs. apply returns_for_each; auto.
  intros i t Hi. apply Hbody. apply In_seqZ in Hi. lia.
Qed.

Lemma returns_checked oc lo hi wrap v R :
  lo <= v <= hi -> returns (checked oc lo hi wrap v) (fun r => r = v) R.
Proof.
  intros Hv. unfold checked.
  assert ((lo <=? v) && (v <=? hi) = true) as ->
    by (apply andb_true_iff; split; apply Z.leb_le; lia).
  apply returns_ret; auto.
Qed.

Lemma returns_get_pixel {P} (img : ImageBuffer P) x y (R : Z * Z -> Prop) :
  in_bounds img x y = true -> R (x, y) ->
  returns (get_pixel img x y) (fun p => p = pixel_at img x y) R.
Proof.
  intros Hb HR. unfold get_pixel. rewrite Hb.
  exists (pixel_at img x y), [(x, y)]. repeat split; auto.
Qed.

Lemma returns_put_pixel {P} (img : ImageBuffer P) x y p R :
  in_bounds img x y = true ->
  returns (put_pixel img x y p)
    (fun img' => width img' = width img /\ height img' = height img /\
       forall x' y', pixel_at img' x' y' =
         if (x' =? x) && (y' =? y) then p else pixel_at img x' y') R.
Proof.
  intros Hb. unfold put_pixel. rewrite Hb. apply returns_ret. simpl. auto.
Qed.

Lemma in_bounds_true {P} (img : ImageBuffer P) x y :
  in_bounds img x y = true <-> 0 <= x < width img /\ 0 <= y < height img.
Proof.
  unfold in_bounds. rewrite !andb_true_iff, !Z.leb_le, !Z.ltb_lt. lia.
Qed.

(** ** Binary32 arithmetic *)

Lemma digits2_pos_size p : digits2_pos p = Pos.size p.
Proof. induction p; simpl; congruence. Qed.

Lemma Zdigits2_bounds (m : Z) : 0 < m -> 2 ^ (Zdigits2 m - 1) <= m < 2 ^ Zdigits2 m.
Proof.
  intros Hm. destruct m as [|p|p]; try lia. simpl Zdigits2.
  rewrite digits2_pos_size.
  assert (Z.pos (Pos.size p) = Z.succ (Z.log2 (Z.pos p))) as ->.
  { destruct p; simpl; try rewrite Pos.add_1_r; try lia. }
  replace (Z.succ (Z.log2 (Z.pos p)) - 1) with (Z.log2 (Z.pos p)) by lia.
  apply Z.log2_spec. lia.
Qed.

Lemma shr_1_div2 mrs : 0 <= shr_m mrs -> shr_m (shr_1 mrs) = shr_m mrs / 2.
Proof.
  destruct mrs as [m r s]. simpl. intros Hm.
  destruct m as [|p|p]; try lia; simpl; auto.
  destruct p; simpl; auto.
  - rewrite Pos2Z.inj_xI. apply Z.div_unique with 1; lia.
  - rewrite Pos2Z.inj_xO. apply Z.div_unique with 0; lia.
Qed.

Lemma pow2_xI p : 2 ^ Z.pos p~1 = 2 * (2 ^ Z.pos p * 2 ^ Z.pos p).
Proof.
  assert (Z.pos p~1 = 1 + Z.pos p + Z.pos p) as -> by lia.
  rewrite !Z.pow_add_r by lia. lia.
Qed.

Lemma pow2_xO p : 2 ^ Z.pos p~0 = 2 ^ Z.pos p * 2 ^ Z.pos p.
Proof.
  assert (Z.pos p~0 = Z.pos p + Z.pos p) as -> by lia.
  rewrite !Z.pow_add_r by lia. lia.
Qed.

Lemma shr_iter_div p : forall mrs, 0 <= shr_m mrs ->
  shr_m (SpecFloat.iter_pos shr_1 p mrs) = shr_m mrs / 2 ^ Z.pos p.
Proof.
  induction p as [p IH|p IH|]; intros mrs Hm; simpl SpecFloat.iter_pos.
  - assert (H1 : 0 <= shr_m (shr_1 mrs)) by (rewrite shr_1_div2; auto; apply Z.div_pos; lia).
    assert (H2 : 0 <= shr_m (SpecFloat.iter_pos shr_1 p (shr_1 mrs))) by (rewrite IH; auto; apply Z.div_pos; lia).
    rewrite IH, IH, shr_1_div2; auto.
    rewrite !Z.div_div by lia. now rewrite pow2_xI.
  - assert (H2 : 0 <= shr_m (SpecFloat.iter_pos shr_1 p mrs)) by (rewrite IH; auto; apply Z.div_pos; lia).
    rewrite IH, IH; auto. rewrite Z.div_div by lia. now rewrite pow2_xO.
  - rewrite shr_1_div2; auto.
Qed.

Lemma shr_record_of_loc_m m l : shr_m (shr_record_of_loc m l) = m.
Proof. destruct l as [|[]]; reflexivity. Qed.

(** A right shift to the format's exponent keeps a mantissa positive as long
    as the value lies above the least subnormal. *)
Lemma shr_fexp_positive m e l :
  0 < m -> emin32 < Zdigits2 m + e ->
  let '(mrs, e') := shr_fexp F32.prec F32.emax m e l in
  0 < shr_m mrs /\ e <= e' /\ (e' = e /\ shr_m mrs = m \/ emin32 <= e').
Proof.
  intros Hm He. unfold shr_fexp, shr.
  pose proof (Zdigits2_bounds m Hm) as [Hlo Hhi].
  set (d := Zdigits2 m) in *.
  assert (Hd : 0 < d).
  { destruct m; try lia. unfold d. simpl. lia. }
  unfold fexp. fold emin32. unfold F32.prec.
  destruct (Z.max (d + e - 24) emin32 - e) as [|n|n] eqn:Hn.
  - rewrite shr_record_of_loc_m. lia.
  - rewrite shr_iter_div by (rewrite shr_record_of_loc_m; lia).
    rewrite shr_record_of_loc_m.
    split; [|lia].
    assert (Z.pos n <= d - 1) by lia.
    apply Z.div_str_pos. split; [lia|].
    eapply Z.le_trans; [|apply Hlo].
    apply Z.pow_le_mono_r; lia.
  - rewrite shr_record_of_loc_m. lia.
Qed.

Lemma Zdigits2_log2 (m : Z) : 0 < m -> Zdigits2 m = Z.log2 m + 1.
Proof.
  intros Hm. destruct m as [|p|p]; try lia. simpl Zdigits2.
  rewrite digits2_pos_size. destruct p; simpl; try rewrite Pos.add_1_r; lia.
Qed.

Lemma round_nearest_even_ge m l : m <= round_nearest_even m l.
Proof. destruct l as [|[]]; simpl; try lia. destruct (Z.even m); lia. Qed.

Lemma binary_round_aux_positive mx ex lx :
  0 < mx -> emin32 < Zdigits2 mx + ex ->
  positive_from ex (binary_round_aux F32.prec F32.emax false mx ex lx).
Proof.
  intros Hm He. unfold binary_round_aux.
  pose proof (shr_fexp_positive mx ex lx Hm He) as H1.
  destruct (shr_fexp F32.prec F32.emax mx ex lx) as [mrs' e'].
  destruct H1 as (Hpos & Hle & Hcase).
  set (m1 := round_nearest_even (shr_m mrs') (loc_of_shr_record mrs')).
  assert (Hm1 : shr_m mrs' <= m1) by apply round_nearest_even_ge.
  assert (He1 : emin32 < Zdigits2 m1 + e').
  { rewrite Zdigits2_log2 by lia.
    destruct Hcase as [[-> Hmx]|Hmin].
    - rewrite Zdigits2_log2 in He by lia.
      assert (Z.log2 mx <= Z.log2 m1) by (apply Z.log2_le_mono; lia). lia.
    - pose proof (Z.log2_nonneg m1). lia. }
  pose proof (shr_fexp_positive m1 e' loc_Exact ltac:(lia) He1) as H2.
  destruct (shr_fexp F32.prec F32.emax m1 e' loc_Exact) as [mrs'' e''].
  destruct H2 as (Hpos2 & Hle2 & _).
  destruct (shr_m mrs'') as [|m|m]; try lia.
  destruct (e'' <=? F32.emax - F32.prec); simpl; auto. lia.
Qed.

Lemma of_Z_positive (k : Z) : 0 < k -> positive_from emin32 (F32.of_Z k).
Proof.
  intros Hk. destruct k as [|p|p]; try lia.
  unfold F32.of_Z, binary_normalize, binary_round.
  destruct (shl_align p 0 _) as [mz ez] eqn:Hs.
  assert (Hez : emin32 <= ez).
  { unfold shl_align in Hs.
    destruct (fexp F32.prec F32.emax (Z.pos (digits2_pos p) + 0) - 0) eqn:Hd;
      inversion Hs; subst; try (unfold emin32; vm_compute; discriminate).
    unfold fexp. fold emin32. lia. }
  assert (Hpos : positive_from ez
            (binary_round_aux F32.prec F32.emax false (Z.pos mz) ez loc_Exact)).
  { apply binary_round_aux_positive; [lia|]. simpl Zdigits2. lia. }
  destruct (binary_round_aux _ _ _ _ _ _) as [| [] | | [] m e]; simpl in *; auto. lia.
Qed.

Lemma sqrt_positive (x : f32) :
  positive_from emin32 x -> positive_from emin32 (F32.sqrt x).
Proof.
  destruct x as [s|[]| |[] m e]; simpl; try tauto. intros He.
  unfold F32.sqrt, SFsqrt, SFsqrt_core_binary.
  set (e' := Z.min _ _).
  set (s := e - 2 * e').
  set (m' := match s with Z.pos _ => Z.shiftl (Z.pos m) s | 0 => Z.pos m | Z.neg _ => 0 end).
  assert (He' : emin32 <= e' /\ 2 * e' <= e).
  { unfold e'. rewrite Z.div2_div. unfold fexp. fold emin32.
    assert (emin32 = -149) as Hmin by reflexivity.
    pose proof (Z.div_mod e 2 ltac:(lia)). pose proof (Z.mod_pos_bound e 2 ltac:(lia)).
    lia. }
  assert (Hm' : 1 <= m').
  { unfold m'. destruct s as [|n|n] eqn:Hs; try lia.
    rewrite Z.shiftl_mul_pow2 by lia.
    assert (0 < 2 ^ Z.pos n) by (apply Z.pow_pos_nonneg; lia). nia. }
  pose proof (Z.sqrtrem_spec m' ltac:(lia)) as Hspec.
  destruct (Z.sqrtrem m') as [q r].
  assert (Hq : 0 < q) by nia.
  assert (Hpos : forall l, positive_from e' (binary_round_aux F32.prec F32.emax false q e' l)).
  { intros l. apply binary_round_aux_positive; auto.
    rewrite Zdigits2_log2 by lia. pose proof (Z.log2_nonneg q). lia. }
  match goal with |- positive_from _ (binary_round_aux _ _ _ _ _ ?l) => specialize (Hpos l);
    destruct (binary_round_aux F32.prec F32.emax false q e' l) as [| [] | | [] ? ?] end;
    simpl in *; auto; lia.
Qed.

Lemma positive_from_is_positive L x : positive_from L x -> is_positive x.
Proof. destruct x as [|[]| |[] ? ?]; simpl; tauto. Qed.

Lemma zero_ltb_is_positive (x : f32) : F32.ltb F32.zero x = true <-> is_positive x.
Proof.
  destruct x as [[]|[]| |[] m e]; simpl; unfold F32.ltb, SFltb; simpl; intuition congruence.
Qed.

Lemma leb_refl_positive (x : f32) : is_positive x -> F32.leb x x = true.
Proof.
  destruct x as [|[]| |[] m e]; simpl; try tauto; intros _; unfold F32.leb, SFleb; simpl; auto.
  rewrite Z.compare_refl. change (Pos.compare_cont Eq m m) with (Pos.compare m m).
  now rewrite Pos.compare_refl.
Qed.

Lemma ltb_leb_trans (b a r : f32) :
  is_positive a -> is_positive b ->
  F32.ltb b a = true -> F32.leb a r = true -> F32.leb b r = true.
Proof.
  unfold F32.ltb, F32.leb, SFltb, SFleb.
  destruct a as [|[]| |[] ma ea]; simpl; try tauto;
  destruct b as [|[]| |[] mb eb]; simpl; try tauto; intros _ _;
  destruct r as [[]|[]| |[] mr er]; simpl; try congruence.
  change (Pos.compare_cont Eq mb ma) with (Pos.compare mb ma).
  change (Pos.compare_cont Eq ma mr) with (Pos.compare ma mr).
  change (Pos.compare_cont Eq mb mr) with (Pos.compare mb mr).
  destruct (Z.compare_spec eb ea); try congruence;
  destruct (Z.compare_spec ea er); try congruence;
  destruct (Z.compare_spec eb er); try lia; auto;
  destruct (Pos.compare_spec mb ma); try congruence;
  destruct (Pos.compare_spec ma mr); try congruence;
  destruct (Pos.compare_spec mb mr); try lia; auto.
Qed.

Lemma min_invariant (a b r : f32) :
  is_positive a -> F32.leb a r = true -> is_positive b ->
  is_positive (F32.min a b) /\ F32.leb (F32.min a b) r = true.
Proof.
  intros Ha Hle Hb. unfold F32.min.
  assert (F32.is_nan a = false) as -> by (destruct a as [|[]| |[] ? ?]; simpl in *; tauto).
  assert (F32.is_nan b = false) as -> by (destruct b as [|[]| |[] ? ?]; simpl in *; tauto).
  destruct (F32.ltb b a) eqn:Hlt; split; auto.
  apply (ltb_leb_trans b a r); auto.
Qed.

Lemma to_i32_positive (x : f32) : is_positive x -> 0 <= F32.to_i32 x <= i32_max.
Proof.
  unfold F32.to_i32, F32.to_int, i32_max.
  destruct x as [|[]| |[] m e]; simpl; try tauto; intros _; try lia.
  assert (0 <= F32.trunc_Z false m e); [|lia].
  unfold F32.trunc_Z. destruct (0 <=? e) eqn:He.
  - apply Z.mul_nonneg_nonneg; [lia|]. apply Z.pow_nonneg; lia.
  - apply Z.leb_gt in He. apply Z.quot_pos; [lia|]. apply Z.pow_pos_nonneg; lia.
Qed.

Lemma ceil_positive (x : f32) : is_positive x -> is_positive (F32.ceil x).
Proof.
  destruct x as [|[]| |[] m e]; try (simpl; tauto); intros _.
  unfold F32.ceil. destruct (0 <=? e) eqn:He; [exact I|].
  pose proof He as He'. apply Z.leb_gt in He'.
  apply positive_from_is_positive with emin32.
  apply (of_Z_positive (F32.ceil_Z false m e)).
  unfold F32.ceil_Z. rewrite He.
  assert (0 < 2 ^ (- e)) by (apply Z.pow_pos_nonneg; lia).
  change (- Z.pos m) with (Z.neg m).
  assert ((- Z.pos m) / 2 ^ (- e) < 0); [|lia].
  apply Z.div_lt_upper_bound; lia.
Qed.

Lemma search_radius_bounds (r : f32) :
  F32.ltb F32.zero r = true -> 0 <= search_radius_of r <= i32_max.
Proof.
  intros Hr. apply to_i32_positive, ceil_positive, zero_ltb_is_positive, Hr.
Qed.

Lemma wrap_i32_small v : i32_min <= v <= i32_max -> wrap_i32 v = v.
Proof.
  unfold wrap_i32, i32_min, i32_max. intros Hv.
  rewrite Z.mod_small; lia.
Qed.

Lemma wrap_u32_small v : 0 <= v <= u32_max -> wrap_u32 v = v.
Proof.
  unfold wrap_u32, u32_max. intros Hv. rewrite Z.mod_small; lia.
Qed.

Lemma square_le_square (d a : Z) : - a <= d <= a -> 0 <= d * d <= a * a.
Proof. intros Hd. nia. Qed.

Lemma square_nonzero (d : Z) : d <> 0 -> 1 <= d * d.
Proof. intros Hd. nia. Qed.

Section DistanceToEdge.
Variable oc : bool.
Variable mask : GrayImage.
Variables x y : Z.
Variable max_range : f32.
Hypothesis Hx : 0 <= x < width mask.
Hypothesis Hy : 0 <= y < height mask.
Hypothesis Hrange : F32.ltb F32.zero max_range = true.
Hypothesis Hfits : search_fits_i32 mask max_range.

Let R := search_radius_of max_range.
Let inside := is_inside_pixel (pixel_at mask x y).

Lemma scan_neighbor_returns dy dx min_distance :
  - R <= dy <= R -> - R <= dx <= R ->
  within_range max_range min_distance ->
  returns (scan_neighbor oc mask x y inside dy dx min_distance)
    (within_range max_range) (read_in_bounds mask).
Proof.
  intros Hdy Hdx Hinv. unfold scan_neighbor.
  pose proof (search_radius_bounds max_range Hrange) as HR. fold R in HR.
  destruct Hfits as (Hw & Hh & Hsq). fold R in Hw, Hh, Hsq.
  unfold i32_max in *.
  rewrite !wrap_i32_small by (unfold i32_min, i32_max; lia).
  eapply returns_bind.
  { apply returns_checked. unfold i32_min, i32_max. lia. }
  intros nx ->.
  eapply returns_bind.
  { apply returns_checked. unfold i32_min, i32_max. lia. }
  intros ny ->.
  destruct ((0 <=? x + dx) && (x + dx <? width mask)
            && (0 <=? y + dy) && (y + dy <? height mask)) eqn:Hguard;
    [|apply returns_ret; auto].
  rewrite !andb_true_iff, !Z.leb_le, !Z.ltb_lt in Hguard.
  rewrite !wrap_u32_small by (unfold u32_max; lia).
  eapply returns_bind.
  { apply returns_get_pixel.
    - apply in_bounds_true. lia.
    - unfold read_in_bounds. simpl. lia. }
  intros neighbor_pixel ->.
  destruct (negb (eqb inside (is_inside_pixel (pixel_at mask (x + dx) (y + dy)))))
    eqn:Hdiff; [|apply returns_ret; auto].
  assert (Hnz : dx <> 0 \/ dy <> 0).
  { destruct (Z.eq_dec dx 0) as [->|]; auto.
    destruct (Z.eq_dec dy 0) as [->|]; auto.
    rewrite !Z.add_0_r in Hdiff. unfold inside in Hdiff.
    rewrite eqb_reflx in Hdiff. discriminate. }
  assert (Hdx2 : 0 <= dx * dx <= Z.min R (width mask - 1) * Z.min R (width mask - 1))
    by (apply square_le_square; lia).
  assert (Hdy2 : 0 <= dy * dy <= Z.min R (height mask - 1) * Z.min R (height mask - 1))
    by (apply square_le_square; lia).
  assert (Hd2 : 1 <= dx * dx + dy * dy).
  { destruct Hnz as [Hnz|Hnz]; apply square_nonzero in Hnz; lia. }
  eapply returns_bind.
  { apply returns_checked. unfold i32_min, i32_max. lia. }
  intros dx2 ->.
  eapply returns_bind.
  { apply returns_checked. unfold i32_min, i32_max. lia. }
  intros dy2 ->.
  eapply returns_bind.
  { apply returns_checked. unfold i32_min, i32_max. lia. }
  intros d2 ->.
  apply returns_ret. destruct Hinv as [Hpos Hle].
  apply min_invariant; auto.
  apply positive_from_is_positive with emin32.
  apply sqrt_positive, of_Z_positive. lia.
Qed.

Lemma calculate_distance_to_edge_returns :
  returns (calculate_distance_to_edge oc mask x y max_range)
    (fun d => exists min_distance, within_range max_range min_distance /\
               d = if inside then F32.neg min_distance else min_distance)
    (read_in_bounds mask).
Proof.
  unfold calculate_distance_to_edge.
  pose proof (search_radius_bounds max_range Hrange) as HR. fold R in HR.
  eapply returns_bind.
  { apply returns_get_pixel.
    - apply in_bounds_true. lia.
    - unfold read_in_bounds. simpl. lia. }
  intros current_pixel ->.
  eapply returns_bind.
  { apply returns_checked. fold R. unfold i32_min, i32_max in *. lia. }
  intros lo ->. fold R.
  eapply returns_bind.
  { apply returns_for_range_incl with (I := within_range max_range).
    - intros dy md Hdy Hmd.
      apply returns_for_range_incl; auto.
      intros dx md' Hdx Hmd'. apply scan_neighbor_returns; auto.
    - split.
      + now apply zero_ltb_is_positive.
      + apply leb_refl_positive. now apply zero_ltb_is_positive. }
  intros md Hmd. apply returns_ret. exists md. auto.
Qed.
End DistanceToEdge.

Lemma returns_for_range_indexed {S} (lo hi : Z) (body : Z -> S -> M S)
    (I : Z -> S -> Prop) R s :
  lo <= hi ->
  (forall i s, lo <= i < hi -> I i s -> returns (body i s) (I (i + 1)) R) ->
  I lo s -> returns (for_range lo hi body s) (I hi) R.
Proof.
  unfold for_range. intros Hle.
  remember (Z.to_nat (hi - lo)) as n eqn:Hn.
  revert lo s Hle Hn. induction n as [|n IH]; intros lo s Hle Hn Hbody Hs.
  - assert (lo = hi) as -> by lia. rewrite seqZ_nil by lia. now apply returns_ret.
  - rewrite seqZ_cons by lia. simpl.
    eapply returns_bind.
    + apply Hbody; [lia|exact Hs].
    + intros s' Hs'. replace (Z.pred (hi - lo)) with (hi - Z.succ lo) by lia.
      apply IH; try lia; auto.
      intros i t Hi. apply Hbody. lia.
Qed.

Section Replication.
Variable oc : bool.
Variable mask : GrayImage.
Variable range : f32.
Hypothesis Hrange : F32.ltb F32.zero range = true.
Hypothesis Hfits : search_fits_i32 mask range.

Lemma generate_sdf_from_mask_returns :
  returns (generate_sdf_from_mask oc mask range)
    (fun sdf => width sdf = width mask /\ height sdf = height mask)
    (read_in_bounds mask).
Proof.
  unfold generate_sdf_from_mask.
  apply returns_for_range; [|simpl; auto].
  intros py sdf Hpy Hsdf.
  apply returns_for_range; auto.
  intros px sdf' Hpx [Hw Hh].
  eapply returns_bind.
  { apply calculate_distance_to_edge_returns; auto; lia. }
  intros d _.
  eapply returns_weaken.
  { apply returns_put_pixel. apply in_bounds_true. lia. }
  simpl. intros img (Hw' & Hh' & _). lia.
Qed.

Lemma replicate_channels_returns (sdf : GrayImage) :
  0 <= width sdf -> 0 <= height sdf ->
  returns
    (let msdf := image_new (width sdf) (height sdf) (0, 0, 0) in
     for_range 0 (height sdf) (fun y msdf =>
       for_range 0 (width sdf) (fun x msdf =>
         let! gray := get_pixel sdf x y in
         put_pixel msdf x y (gray, gray, gray))
       msdf)
     msdf)
    (fun msdf => width msdf = width sdf /\ height msdf = height sdf /\
       forall x y, 0 <= x < width sdf -> 0 <= y < height sdf ->
         replicated sdf msdf x y)
    (read_in_bounds sdf).
Proof.
  intros Hw Hh. cbv zeta.
  set (rows := fun (y : Z) (msdf : RgbImage) =>
    width msdf = width sdf /\ height msdf = height sdf /\
    forall x' y', 0 <= x' < width sdf -> 0 <= y' < y -> replicated sdf msdf x' y').
  eapply returns_weaken.
  { apply returns_for_range_indexed with (I := rows); [lia| |].
    - intros y msdf Hy (Hdw & Hdh & Hrows).
      set (cols := fun (x : Z) (msdf : RgbImage) =>
        width msdf = width sdf /\ height msdf = height sdf /\
        (forall x' y', 0 <= x' < width sdf -> 0 <= y' < y -> replicated sdf msdf x' y') /\
        (forall x', 0 <= x' < x -> replicated sdf msdf x' y)).
      eapply returns_weaken.
      { apply returns_for_range_indexed with (I := cols); [lia| |].
        - intros x m Hx (Hmw & Hmh & Hdone & Hrow).
          eapply returns_bind.
          { apply returns_get_pixel.
            - apply in_bounds_true. lia.
            - unfold read_in_bounds. simpl. lia. }
          intros gray ->.
          eapply returns_weaken.
          { apply returns_put_pixel. apply in_bounds_true. lia. }
          simpl. intros m' (Hw' & Hh' & Hpx).
          unfold cols, replicated. repeat split; try lia.
          + intros x' y' Hx' Hy'. rewrite Hpx.
            assert ((y' =? y) = false) as -> by (apply Z.eqb_neq; lia).
            rewrite andb_false_r. now apply Hdone.
          + intros x' Hx'. rewrite Hpx. rewrite Z.eqb_refl, andb_true_r.
            destruct (Z.eqb_spec x' x) as [->|Hne]; auto.
            apply Hrow. lia.
        - unfold cols. repeat split; auto. intros; lia. }
      simpl. intros m (Hmw & Hmh & Hdone & Hrow).
      unfold rows. repeat split; auto.
      intros x' y' Hx' Hy'.
      destruct (Z.eq_dec y' y) as [->|Hne]; [now apply Hrow|].
      apply Hdone; lia.
    - unfold rows. simpl. repeat split; auto. intros; lia. }
  simpl. intros m (Hmw & Hmh & Hdone). auto.
Qed.
End Replication.

(** *** The grid side computed in binary32 is the integer ceiling root *)

Lemma Zdigits2_unique (m d : Z) : 2 ^ (d - 1) <= m < 2 ^ d -> 0 < d -> Zdigits2 m = d.
Proof.
  intros Hm Hd.
  assert (0 < m).
  { assert (0 < 2 ^ (d - 1)) by (apply Z.pow_pos_nonneg; lia). lia. }
  rewrite Zdigits2_log2 by lia.
  rewrite (Z.log2_unique m (d - 1)); try lia.
  replace (Z.succ (d - 1)) with d by lia. lia.
Qed.

Lemma loc_of_shr_record_of_loc m l : loc_of_shr_record (shr_record_of_loc m l) = l.
Proof. destruct l as [|[]]; reflexivity. Qed.

(** Rounding a 24-bit mantissa: the only effect is the carry of a round-up
    from [2^24 - 1]. *)
Lemma binary_round_aux_canonical (q e : Z) (l : location) :
  2 ^ 23 <= q < 2 ^ 24 -> emin32 <= e <= 103 ->
  binary_round_aux F32.prec F32.emax false q e l =
    let m1 := round_nearest_even q l in
    if m1 <? 2 ^ 24 then S754_finite false (Z.to_pos m1) e
    else S754_finite false (Z.to_pos (2 ^ 23)) (e + 1).
Proof.
  intros Hq He. unfold emin32 in He.
  assert (Hemin : emin F32.prec F32.emax = -149) by reflexivity.
  rewrite Hemin in He.
  unfold binary_round_aux, shr_fexp.
  rewrite (Zdigits2_unique q 24) by lia.
  unfold fexp. rewrite Hemin. unfold F32.prec at 1.
  replace (Z.max (24 + e - 24) (-149) - e) with 0 by lia.
  cbn [shr]. rewrite shr_record_of_loc_m, loc_of_shr_record_of_loc.
  set (m1 := round_nearest_even q l). cbv zeta.
  assert (Hm1 : q <= m1 <= q + 1).
  { unfold m1. destruct l as [|[]]; simpl; try lia. destruct (Z.even q); lia. }
  destruct (Z.ltb_spec m1 (2 ^ 24)) as [Hlt|Hge].
  - rewrite (Zdigits2_unique m1 24) by lia. unfold F32.prec at 1.
    replace (Z.max (24 + e - 24) (-149) - e) with 0 by lia.
    cbn [shr shr_record_of_loc shr_m].
    destruct m1 as [|p|p]; try lia.
    assert ((e <=? F32.emax - F32.prec) = true) as -> by (apply Z.leb_le; unfold F32.emax, F32.prec; lia).
    reflexivity.
  - assert (m1 = 2 ^ 24) as -> by lia.
    rewrite (Zdigits2_unique (2 ^ 24) 25) by lia. unfold F32.prec at 1.
    replace (Z.max (25 + e - 24) (-149) - e) with 1 by lia.
    cbn [shr SpecFloat.iter_pos shr_record_of_loc].
    change (shr_m (shr_1 {| shr_m := 2 ^ 24; shr_r := false; shr_s := false |}))
      with (2 ^ 23).
    change (2 ^ 23) with (Z.pos (Z.to_pos (2 ^ 23))) at 1. cbv iota beta.
    assert ((e + 1 <=? F32.emax - F32.prec) = true) as -> by (apply Z.leb_le; unfold F32.emax, F32.prec; lia).
    reflexivity.
Qed.

Lemma Pos_iter_xO (p k : positive) : Z.pos (Pos.iter xO p k) = Z.pos p * 2 ^ Z.pos k.
Proof.
  induction k as [|k IH] using Pos.peano_ind.
  - simpl. lia.
  - rewrite Pos.iter_succ, Pos2Z.inj_xO, IH, Pos2Z.inj_succ, Z.pow_succ_r by lia. lia.
Qed.

(** An integer below [2^24] converts exactly. *)
Lemma of_Z_exact (n : Z) :
  0 < n < 2 ^ 24 ->
  let d := Zdigits2 n in
  F32.of_Z n = S754_finite false (Z.to_pos (n * 2 ^ (24 - d))) (d - 24).
Proof.
  intros Hn d.
  pose proof (Zdigits2_bounds n ltac:(lia)) as Hd. fold d in Hd.
  assert (Hd24 : 0 < d <= 24).
  { split.
    - unfold d. rewrite Zdigits2_log2 by lia. pose proof (Z.log2_nonneg n). lia.
    - destruct (Z_le_gt_dec d 24); auto.
      assert (2 ^ 24 <= 2 ^ (d - 1)) by (apply Z.pow_le_mono_r; lia). lia. }
  destruct n as [|p|p]; try lia.
  unfold F32.of_Z, binary_normalize, binary_round.
  change (Z.pos (digits2_pos p)) with d.
  assert (Hfexp : fexp F32.prec F32.emax (d + 0) = d - 24).
  { unfold fexp, emin, F32.prec, F32.emax. lia. }
  rewrite Hfexp.
  assert (Hcanon : 2 ^ 23 <= Z.pos p * 2 ^ (24 - d) < 2 ^ 24).
  { assert (H23 : 2 ^ 23 = 2 ^ (d - 1) * 2 ^ (24 - d))
      by (rewrite <- Z.pow_add_r by lia; f_equal; lia).
    assert (H24 : 2 ^ 24 = 2 ^ d * 2 ^ (24 - d))
      by (rewrite <- Z.pow_add_r by lia; f_equal; lia).
    rewrite H23, H24.
    assert (0 < 2 ^ (24 - d)) by (apply Z.pow_pos_nonneg; lia). nia. }
  assert (Hshl : shl_align p 0 (d - 24) = (Z.to_pos (Z.pos p * 2 ^ (24 - d)), d - 24)).
  { unfold shl_align. destruct (d - 24 - 0) as [|k|k] eqn:Hk; try lia.
    - replace (24 - d) with 0 by lia. replace (d - 24) with 0 by lia.
      simpl. rewrite Pos.mul_1_r. reflexivity.
    - f_equal. apply Pos2Z.inj. rewrite Pos_iter_xO.
      rewrite Z2Pos.id by lia. replace (24 - d) with (Z.pos k) by lia. reflexivity. }
  rewrite Hshl. rewrite Z2Pos.id by lia.
  rewrite binary_round_aux_canonical; try lia.
  - cbn [round_nearest_even]. cbv zeta.
    assert ((Z.pos p * 2 ^ (24 - d) <? 2 ^ 24) = true) as -> by (apply Z.ltb_lt; lia).
    reflexivity.
  - unfold emin32, emin, F32.prec, F32.emax. lia.
Qed.

Lemma to_u32_of_Z (n : Z) : 0 < n < 2 ^ 24 -> F32.to_u32 (F32.of_Z n) = n.
Proof.
  intros Hn. rewrite of_Z_exact by lia. cbv zeta.
  pose proof (Zdigits2_bounds n ltac:(lia)) as Hd.
  set (d := Zdigits2 n) in *.
  assert (Hd24 : 0 < d <= 24).
  { split.
    - unfold d. rewrite Zdigits2_log2 by lia. pose proof (Z.log2_nonneg n). lia.
    - destruct (Z_le_gt_dec d 24); auto.
      assert (2 ^ 24 <= 2 ^ (d - 1)) by (apply Z.pow_le_mono_r; lia). lia. }
  assert (Hp : 0 < 2 ^ (24 - d)) by (apply Z.pow_pos_nonneg; lia).
  unfold F32.to_u32, F32.to_int, F32.trunc_Z.
  rewrite Z2Pos.id by nia.
  destruct (Z.leb_spec 0 (d - 24)).
  - replace (d - 24) with 0 by lia. replace (24 - d) with 0 by lia.
    rewrite !Z.pow_0_r. lia.
  - replace (- (d - 24)) with (24 - d) by lia.
    rewrite Z.quot_mul by lia. lia.
Qed.
Lemma rounded_root_bounds (n T q r k : Z) :
  0 < T -> 0 < k <= T -> (k - 1) * (k - 1) < n <= k * k ->
  n * (T * T) = q * q + r -> 0 <= r <= 2 * q -> 0 <= q ->
  let m1 := if r =? 0 then q else if r <=? q then q else q + 1 in
  (k - 1) * T < m1 <= k * T.
Proof.
  intros HT Hk Hn Hqr Hr Hq m1.
  assert (Hup : n * (T * T) <= (k * T) * (k * T)) by nia.
  assert (Hlo : ((k - 1) * T) * ((k - 1) * T) + T * T <= n * (T * T)) by nia.
  assert (Hq1 : q <= k * T) by nia.
  assert (Hq2 : (k - 1) * T <= q) by nia.
  unfold m1.
  destruct (Z.eqb_spec r 0) as [Hr0|Hr0].
  - split; [|lia]. nia.
  - destruct (Z.leb_spec r q) as [Hle|Hgt].
    + split; [|lia]. nia.
    + split; [lia|]. nia.
Qed.

Lemma ceil_div_unique (m T k : Z) :
  0 < T -> (k - 1) * T < m <= k * T -> - ((- m) / T) = k.
Proof.
  intros HT Hm.
  assert ((- m) / T = - k); [|lia].
  symmetry. apply Z.div_unique with (k * T - m); lia.
Qed.

Lemma digits_below_24 (n : Z) : 0 < n < 2 ^ 24 -> 0 < Zdigits2 n <= 24.
Proof.
  intros Hn. pose proof (Zdigits2_bounds n ltac:(lia)) as Hd. split.
  - rewrite Zdigits2_log2 by lia. pose proof (Z.log2_nonneg n). lia.
  - destruct (Z_le_gt_dec (Zdigits2 n) 24); auto.
    assert (2 ^ 24 <= 2 ^ (Zdigits2 n - 1)) by (apply Z.pow_le_mono_r; lia). lia.
Qed.

(** The binary32 square root of a tile count, as integers: with the scale
    [T = 2^t], the mantissa is the integer root of [n * T^2], rounded to
    nearest by its remainder. *)
Lemma sqrt_of_Z (n : Z) :
  0 < n < 2 ^ 24 ->
  let t := 24 - (Zdigits2 n + 1) / 2 in
  let T := 2 ^ t in
  let q := Z.sqrt (n * (T * T)) in
  let r := n * (T * T) - q * q in
  let m1 := if r =? 0 then q else if r <=? q then q else q + 1 in
  12 <= t <= 23 /\ 2 ^ 23 <= q < 2 ^ 24 /\
  F32.sqrt (F32.of_Z n) =
    if m1 <? 2 ^ 24 then S754_finite false (Z.to_pos m1) (- t)
    else S754_finite false (Z.to_pos (2 ^ 23)) (- t + 1).
Proof.
  intros Hn t T q r m1.
  pose proof (digits_below_24 n Hn) as Hd24.
  pose proof (Zdigits2_bounds n ltac:(lia)) as Hd.
  set (d := Zdigits2 n) in *.
  assert (Htd : t = 24 - (d + 1) / 2) by reflexivity.
  clearbody t.
  assert (Ht : 12 <= t <= 23) by (clear - Htd Hd24; Z.div_mod_to_equations; lia).
  assert (Ht2 : 47 - d <= 2 * t <= 48 - d) by (clear - Htd Hd24; Z.div_mod_to_equations; lia).
  assert (HT : 0 < T) by (apply Z.pow_pos_nonneg; lia).
  assert (Hp : 0 < 2 ^ (24 - d)) by (apply Z.pow_pos_nonneg; lia).
  assert (HTT : T * T = 2 ^ (2 * t)).
  { unfold T. rewrite <- Z.pow_add_r by lia. f_equal. lia. }
  assert (Hm' : 2 ^ 46 <= n * (T * T) < 2 ^ 48).
  { rewrite HTT.
    assert (H46 : 2 ^ 46 <= 2 ^ (d - 1) * 2 ^ (2 * t)).
    { rewrite <- Z.pow_add_r by lia. apply Z.pow_le_mono_r; lia. }
    assert (H48 : 2 ^ d * 2 ^ (2 * t) <= 2 ^ 48).
    { rewrite <- Z.pow_add_r by lia. apply Z.pow_le_mono_r; lia. }
    assert (0 < 2 ^ (2 * t)) by (apply Z.pow_pos_nonneg; lia). nia. }
  assert (Hq : 2 ^ 23 <= q < 2 ^ 24).
  { unfold q. split.
    - apply Z.sqrt_le_square; lia.
    - apply Z.sqrt_lt_square; lia. }
  split; [exact Ht|]. split; [exact Hq|].
  rewrite of_Z_exact by lia. cbv zeta. fold d.
  assert (Hmx : 2 ^ 23 <= n * 2 ^ (24 - d) < 2 ^ 24).
  { assert (H23 : 2 ^ 23 = 2 ^ (d - 1) * 2 ^ (24 - d))
      by (rewrite <- Z.pow_add_r by lia; f_equal; lia).
    assert (H24 : 2 ^ 24 = 2 ^ d * 2 ^ (24 - d))
      by (rewrite <- Z.pow_add_r by lia; f_equal; lia).
    rewrite H23, H24. nia. }
  unfold F32.sqrt, SFsqrt, SFsqrt_core_binary.
  rewrite Z2Pos.id by lia.
  rewrite (Zdigits2_unique _ 24) by lia.
  assert (He' : Z.min (fexp F32.prec F32.emax (Z.div2 (24 + (d - 24) + 1)))
                      (Z.div2 (d - 24)) = - t).
  { rewrite !Z.div2_div. unfold fexp, emin, F32.prec, F32.emax.
    clear - Htd Hd24. Z.div_mod_to_equations. lia. }
  rewrite He'.
  assert (Hs : d - 24 - 2 * - t = 2 * t - (24 - d)) by lia.
  rewrite Hs.
  assert (Hshift : match 2 * t - (24 - d) with
                   | 0 => n * 2 ^ (24 - d)
                   | Z.pos _ => Z.shiftl (n * 2 ^ (24 - d)) (2 * t - (24 - d))
                   | Z.neg _ => 0
                   end = n * (T * T)).
  { assert (Hsplit : 2 ^ (2 * t) = 2 ^ (24 - d) * 2 ^ (2 * t - (24 - d))).
    { rewrite <- Z.pow_add_r by lia. f_equal. lia. }
    destruct (2 * t - (24 - d)) as [|s|s] eqn:Es; try lia.
    rewrite Z.shiftl_mul_pow2 by lia. rewrite HTT, Hsplit. lia. }
  rewrite Hshift.
  pose proof (Z.sqrtrem_spec (n * (T * T)) ltac:(lia)) as Hspec.
  pose proof (Z.sqrtrem_sqrt (n * (T * T))) as Hfst.
  destruct (Z.sqrtrem (n * (T * T))) as [q' r']. simpl in Hfst. fold q in Hfst. subst q'.
  assert (r' = r) as -> by (unfold r; lia).
  rewrite binary_round_aux_canonical by (unfold emin32, emin, F32.prec, F32.emax; lia).
  cbv zeta.
  assert (Hround : round_nearest_even q
            (if r =? 0 then loc_Exact else loc_Inexact (if r <=? q then Lt else Gt)) = m1).
  { unfold m1. destruct (r =? 0); [reflexivity|]. destruct (r <=? q); reflexivity. }
  rewrite Hround. reflexivity.
Qed.

Lemma grid_size_of_exact (n : Z) :
  0 <= n <= max_exact_count -> grid_size_of n = ceil_sqrt n.
Proof.
  unfold max_exact_count. intros Hn.
  destruct (Z.eq_dec n 0) as [->|Hn0]; [reflexivity|].
  assert (Hn' : 0 < n < 2 ^ 24) by lia.
  pose proof (sqrt_of_Z n Hn') as Hsqrt. cbv zeta in Hsqrt.
  set (t := 24 - (Zdigits2 n + 1) / 2) in *.
  set (T := 2 ^ t) in *.
  set (q := Z.sqrt (n * (T * T))) in *.
  set (r := n * (T * T) - q * q) in *.
  set (m1 := if r =? 0 then q else if r <=? q then q else q + 1) in *.
  destruct Hsqrt as (Ht & Hq & Hsqrt).
  assert (HT : 0 < T) by (apply Z.pow_pos_nonneg; lia).
  set (k := ceil_sqrt n).
  assert (Hk : 0 < k /\ (k - 1) * (k - 1) < n <= k * k).
  { unfold k, ceil_sqrt. pose proof (Z.sqrt_up_spec n ltac:(lia)) as Hs.
    pose proof (proj2 (Z.sqrt_up_pos n) ltac:(lia)).
    unfold Z.pred in Hs. replace (Z.sqrt_up n - 1) with (Z.sqrt_up n + -1) by lia.
    split; [lia|exact Hs]. }
  assert (Hk12 : k <= 2 ^ 12).
  { destruct (Z_le_gt_dec k (2 ^ 12)); auto. exfalso.
    assert (2 ^ 12 * 2 ^ 12 <= (k - 1) * (k - 1)) by nia. lia. }
  assert (HkT : k <= T).
  { assert (2 ^ 12 <= T) by (apply Z.pow_le_mono_r; lia). lia. }
  assert (Hspec : n * (T * T) = q * q + r) by (unfold r; lia).
  assert (Hr : 0 <= r <= 2 * q).
  { pose proof (Z.sqrt_spec (n * (T * T)) ltac:(nia)) as Hs. cbv zeta in Hs.
    fold q in Hs. unfold r. unfold Z.succ in Hs. lia. }
  pose proof (rounded_root_bounds n T q r k HT ltac:(lia) ltac:(lia) Hspec Hr ltac:(lia))
    as Hm1. cbv zeta in Hm1. fold m1 in Hm1.
  assert (Hceil : - ((- m1) / T) = k) by (apply ceil_div_unique; lia).
  assert (Hk24 : 0 < k < 2 ^ 24) by lia.
  assert (Hm1q : q <= m1 <= q + 1)
    by (unfold m1; destruct (r =? 0); [lia|]; destruct (r <=? q); lia).
  unfold grid_size_of. rewrite Hsqrt.
  destruct (Z.ltb_spec m1 (2 ^ 24)) as [Hlt|Hge].
  - unfold F32.ceil.
    assert ((0 <=? - t) = false) as -> by (apply Z.leb_gt; lia).
    change (binary_normalize F32.prec F32.emax ?z 0 false) with (F32.of_Z z).
    assert (F32.ceil_Z false (Z.to_pos m1) (- t) = k) as ->.
    { unfold F32.ceil_Z.
      assert ((0 <=? - t) = false) as -> by (apply Z.leb_gt; lia).
      rewrite Z2Pos.id by lia. rewrite Z.opp_involutive. exact Hceil. }
    now apply to_u32_of_Z.
  - assert (m1 = 2 ^ 24) by lia.
    unfold F32.ceil.
    assert ((0 <=? - t + 1) = false) as -> by (apply Z.leb_gt; lia).
    change (binary_normalize F32.prec F32.emax ?z 0 false) with (F32.of_Z z).
    assert (F32.ceil_Z false (Z.to_pos (2 ^ 23)) (- t + 1) = k) as ->.
    { unfold F32.ceil_Z.
      assert ((0 <=? - t + 1) = false) as -> by (apply Z.leb_gt; lia).
      rewrite Z2Pos.id by lia.
      replace (- (- t + 1)) with (t - 1) by lia.
      rewrite <- Hceil. f_equal.
      assert (HT2 : T = 2 * 2 ^ (t - 1)).
      { unfold T. rewrite <- Z.pow_succ_r by lia. f_equal. lia. }
      assert (0 < 2 ^ (t - 1)) by (apply Z.pow_pos_nonneg; lia).
      replace (- m1) with (- 2 ^ 23 * 2) by lia.
      rewrite HT2. rewrite Z.mul_comm with (n := 2).
      rewrite Z.div_mul_cancel_r by lia. reflexivity. }
    now apply to_u32_of_Z.
Qed.

(** ** The atlas packer *)

Lemma resized_dimensions image w h filter :
  width (to_rgba8 (resize_exact image w h filter)) = w /\
  height (to_rgba8 (resize_exact image w h filter)) = h.
Proof. destruct image; simpl; auto. Qed.

Lemma returns_u32_div a b R :
  b <> 0 -> returns (u32_div a b) (fun q => q = a / b) R.
Proof.
  intros Hb. unfold u32_div.
  destruct (Z.eqb_spec b 0); [contradiction|]. now apply returns_ret.
Qed.

Lemma returns_u32_rem a b R :
  b <> 0 -> returns (u32_rem a b) (fun q => q = a mod b) R.
Proof.
  intros Hb. unfold u32_rem.
  destruct (Z.eqb_spec b 0); [contradiction|]. now apply returns_ret.
Qed.

Lemma returns_for_each_fold {A S T} (l : list A) (body : A -> S -> M S)
    (step : T -> A -> T) (rel : S -> T -> Prop) R s t :
  (forall a s t, In a l -> rel s t ->
     returns (body a s) (fun s' => rel s' (step t a)) R) ->
  rel s t ->
  returns (for_each l body s) (fun s' => rel s' (foldl step t l)) R.
Proof.
  revert s t. induction l as [|a l IH]; intros s t Hbody Hrel; simpl.
  - now apply returns_ret.
  - eapply returns_bind.
    + apply Hbody; [now left|exact Hrel].
    + intros s' Hs'. apply IH; auto. intros b u v Hb. apply Hbody. now right.
Qed.

Lemma copy_to_atlas_returns oc rgba_image x y content_size atlas_size atlas :
  width rgba_image = content_size -> height rgba_image = content_size ->
  width atlas = atlas_size -> height atlas = atlas_size ->
  0 <= x -> 0 <= y ->
  x + content_size <= u32_max -> y + content_size <= u32_max ->
  returns (copy_to_atlas oc rgba_image x y content_size atlas_size atlas)
    (fun atlas' => width atlas' = atlas_size /\ height atlas' = atlas_size)
    (fun _ => True).
Proof.
  intros Hrw Hrh Haw Hah Hx Hy Hxs Hys. unfold copy_to_atlas.
  apply returns_for_range; [|auto].
  intros py a Hpy Ha.
  apply returns_for_range; [|auto].
  intros px a' Hpx [Haw' Hah'].
  eapply returns_bind.
  { apply returns_checked. lia. }
  intros xp ->.
  destruct (Z.ltb_spec (x + px) atlas_size); [|now apply returns_ret].
  eapply returns_bind.
  { apply returns_checked. lia. }
  intros yp ->.
  destruct (Z.ltb_spec (y + py) atlas_size); [|now apply returns_ret].
  eapply returns_bind.
  { apply returns_get_pixel; [|exact I]. apply in_bounds_true. lia. }
  intros source_pixel _.
  eapply returns_weaken.
  { apply returns_put_pixel. apply in_bounds_true. lia. }
  simpl. intros a'' (Hw & Hh & _). lia.
Qed.

Lemma ceil_sqrt_spec (n : Z) :
  0 < n -> 0 < ceil_sqrt n /\ (ceil_sqrt n - 1) * (ceil_sqrt n - 1) < n <= ceil_sqrt n * ceil_sqrt n.
Proof.
  intros Hn. unfold ceil_sqrt. pose proof (Z.sqrt_up_spec n ltac:(lia)) as Hs.
  pose proof (proj2 (Z.sqrt_up_pos n) ltac:(lia)).
  unfold Z.pred in Hs. replace (Z.sqrt_up n - 1) with (Z.sqrt_up n + -1) by lia.
  split; [lia|exact Hs].
Qed.

Lemma In_enumerate {A} (l : list A) (i : Z) (a : A) :
  In (i, a) (enumerate l) -> 0 <= i < Z.of_nat (length l).
Proof.
  unfold enumerate. intros Hin. apply list_elem_of_In in Hin.
  apply elem_of_zip_l in Hin. apply elem_of_seqZ in Hin. lia.
Qed.

(** The cell of tile [i] lies inside the atlas. *)
Lemma cell_in_atlas (n atlas_size i : Z) :
  0 < n -> 0 <= atlas_size -> 0 <= i < n ->
  let g := ceil_sqrt n in
  let c := atlas_size / g in
  0 <= i mod g < g /\ 0 <= i / g < g /\ 0 <= c /\
  (i mod g) * c + c <= atlas_size /\ (i / g) * c + c <= atlas_size.
Proof.
  intros Hn Ha Hi g c.
  pose proof (ceil_sqrt_spec n Hn) as (Hg & Hlo & Hhi). fold g in Hg, Hlo, Hhi.
  assert (Hmod : 0 <= i mod g < g) by (apply Z.mod_pos_bound; lia).
  assert (Hdiv : 0 <= i / g < g).
  { split; [apply Z.div_pos; lia|]. apply Z.div_lt_upper_bound; lia. }
  assert (Hc : 0 <= c) by (apply Z.div_pos; lia).
  assert (Hgc : g * c <= atlas_size) by (apply Z.mul_div_le; lia).
  repeat split; try lia; nia.
Qed.

Lemma seqZ_succ_length {A} (k : Z) (a : A) (l : list A) :
  seqZ k (Z.of_nat (length (a :: l))) = k :: seqZ (Z.succ k) (Z.of_nat (length l)).
Proof.
  cbn [length]. rewrite seqZ_cons by lia. f_equal. f_equal. lia.
Qed.

Lemma foldl_enumerate_ids {T} (step : T -> Z * string -> T)
    (images : list (string * DynamicImage)) (t : T) :
  foldl step t (enumerate (map fst images)) =
  foldl (fun t (entry : Z * (string * DynamicImage)) =>
           step t (fst entry, fst (snd entry))) t (enumerate images).
Proof.
  unfold enumerate. generalize 0 as k. revert t.
  induction images as [|[id image] images IH]; intros t k; [reflexivity|].
  rewrite length_map. cbn [map]. rewrite !seqZ_succ_length. simpl.
  rewrite <- IH. now rewrite length_map.
Qed.

Section PackerSucceeds.
Variable oc : bool.
Variable filter : FilterType.
Variable images : list (string * DynamicImage).
Variables atlas_size padding : Z.
Let n := Z.of_nat (length images).
Hypothesis Hcount : 0 < n <= max_exact_count.
Hypothesis Hatlas : 0 <= atlas_size <= u32_max.
Hypothesis Hpadding : 0 <= padding.
Hypothesis Hcontent : 2 * padding <= atlas_size / ceil_sqrt n.

Lemma place_tile_returns i id image atlas positions :
  0 <= i < n ->
  width atlas = atlas_size -> height atlas = atlas_size ->
  returns
    (place_tile oc filter atlas_size padding (ceil_sqrt n)
       (atlas_size / ceil_sqrt n) (atlas_size / ceil_sqrt n - 2 * padding)
       (i, (id, image)) (atlas, positions))
    (fun state' =>
       (width (fst state') = atlas_size /\ height (fst state') = atlas_size) /\
       snd state' = <[id := spec_placement n atlas_size padding i]> positions)
    (fun _ => True).
Proof.
  intros Hi Hw Hh. unfold place_tile.
  pose proof (cell_in_atlas n atlas_size i ltac:(lia) ltac:(lia) Hi) as Hcell.
  cbv zeta in Hcell. destruct Hcell as (Hmod & Hdiv & Hc & Hxc & Hyc).
  assert (Hn24 : n <= u32_max) by (unfold max_exact_count, u32_max in *; lia).
  rewrite wrap_u32_small by lia.
  pose proof (ceil_sqrt_spec n ltac:(lia)) as (Hg & _).
  assert (Hgx : 0 <= i mod ceil_sqrt n * (atlas_size / ceil_sqrt n))
    by (apply Z.mul_nonneg_nonneg; lia).
  assert (Hgy : 0 <= i / ceil_sqrt n * (atlas_size / ceil_sqrt n))
    by (apply Z.mul_nonneg_nonneg; lia).
  unfold u32_max in *.
  eapply returns_bind; [apply returns_u32_rem; lia|]. intros grid_x ->.
  eapply returns_bind; [apply returns_u32_div; lia|]. intros grid_y ->.
  eapply returns_bind; [apply returns_checked; unfold u32_max; lia|]. intros gxc ->.
  eapply returns_bind; [apply returns_checked; unfold u32_max; lia|]. intros x ->.
  eapply returns_bind; [apply returns_checked; unfold u32_max; lia|]. intros gyc ->.
  eapply returns_bind; [apply returns_checked; unfold u32_max; lia|]. intros y ->.
  destruct (resized_dimensions image (atlas_size / ceil_sqrt n - 2 * padding)
              (atlas_size / ceil_sqrt n - 2 * padding) filter) as [Hrw Hrh].
  eapply returns_bind.
  { apply copy_to_atlas_returns; auto; unfold u32_max; lia. }
  intros atlas' [Hw' Hh']. apply returns_ret. simpl. split; auto.
Qed.

Lemma pack_atlas_returns :
  returns (pack_atlas oc filter images atlas_size padding)
    (fun packed => snd packed = spec_placements atlas_size padding (map fst images))
    (fun _ => True).
Proof.
  unfold pack_atlas. fold n.
  rewrite grid_size_of_exact by lia.
  pose proof (ceil_sqrt_spec n ltac:(lia)) as (Hg & _).
  assert (Hc : 0 <= atlas_size / ceil_sqrt n <= atlas_size).
  { split; [apply Z.div_pos; lia|]. apply Z.div_le_upper_bound; nia. }
  eapply returns_bind; [apply returns_u32_div; lia|]. intros cell_size ->.
  eapply returns_bind; [apply returns_checked; unfold u32_max in *; lia|].
  intros padding2 ->.
  eapply returns_bind; [apply returns_checked; unfold u32_max in *; lia|].
  intros content_size ->.
  unfold spec_placements. rewrite length_map. fold n.
  rewrite (foldl_enumerate_ids
             (fun positions entry =>
                <[snd entry := spec_placement n atlas_size padding (fst entry)]> positions)).
  eapply returns_weaken.
  { apply returns_for_each_fold with
      (step := fun (t : gmap string AtlasPosition)
                   (entry : Z * (string * DynamicImage)) =>
                 <[fst (snd entry) :=
                     spec_placement n atlas_size padding (fst entry)]> t)
      (rel := fun (state : RgbaImage * gmap string AtlasPosition) t =>
                (width (fst state) = atlas_size /\ height (fst state) = atlas_size) /\
                snd state = t).
    - intros [i [id image]] [atlas positions] t Hin [Hdims Hpos].
      simpl in Hdims, Hpos. subst t.
      apply In_enumerate in Hin. fold n in Hin.
      replace (padding * 2) with (2 * padding) by lia.
      apply place_tile_returns; tauto.
    - simpl. auto. }
  simpl. intros state [_ Hstate]. exact Hstate.
Qed.
End PackerSucceeds.

Lemma insert_indexed_cons f id ids k t :
  insert_indexed f (id :: ids) k t = insert_indexed f ids (Z.succ k) (<[id := f k]> t).
Proof. unfold insert_indexed. now rewrite seqZ_succ_length. Qed.

Lemma insert_indexed_absent f (ids : list string) k t (id : string) :
  (forall j : nat, ids !! j <> Some id) -> insert_indexed f ids k t !! id = t !! id.
Proof.
  revert k t. induction ids as [|a ids IH]; intros k t Hno; [reflexivity|].
  rewrite insert_indexed_cons, IH.
  - apply lookup_insert_ne. intros ->. now apply (Hno 0%nat).
  - intros j. apply (Hno (S j)).
Qed.

Lemma insert_indexed_last f (ids : list string) k t (i : nat) (id : string) :
  ids !! i = Some id ->
  (forall j : nat, (i < j)%nat -> ids !! j <> Some id) ->
  insert_indexed f ids k t !! id = Some (f (k + Z.of_nat i)).
Proof.
  revert k t i. induction ids as [|a ids IH]; intros k t i Hi Hlast; [discriminate|].
  rewrite insert_indexed_cons. destruct i as [|i]; simpl in Hi.
  - inversion Hi; subst a. rewrite insert_indexed_absent.
    + rewrite lookup_insert_eq. f_equal. f_equal. lia.
    + intros j. apply (Hlast (S j)). lia.
  - rewrite (IH _ _ i Hi).
    + f_equal. f_equal. lia.
    + intros j Hj. apply (Hlast (S j)). lia.
Qed.

Lemma insert_indexed_inv f (ids : list string) k t (id : string) pos :
  insert_indexed f ids k t !! id = Some pos ->
  t !! id = Some pos \/
  exists i : nat, ids !! i = Some id /\ pos = f (k + Z.of_nat i).
Proof.
  revert k t. induction ids as [|a ids IH]; intros k t Hlook; [now left|].
  rewrite insert_indexed_cons in Hlook.
  destruct (IH _ _ Hlook) as [Ht|(i & Hi & Hpos)].
  - destruct (decide (a = id)) as [->|Hne].
    + rewrite lookup_insert_eq in Ht. inversion Ht; subst pos.
      right. exists 0%nat. split; [reflexivity|]. f_equal. lia.
    + rewrite lookup_insert_ne in Ht by exact Hne. now left.
  - right. exists (S i). split; [exact Hi|]. rewrite Hpos. f_equal. lia.
Qed.

Lemma spec_placements_last atlas_size padding (ids : list string) (i : nat) id :
  ids !! i = Some id ->
  (forall j : nat, (i < j)%nat -> ids !! j <> Some id) ->
  spec_placements atlas_size padding ids !! id =
    Some (spec_placement (Z.of_nat (length ids)) atlas_size padding (Z.of_nat i)).
Proof.
  intros Hi Hlast.
  change (spec_placements atlas_size padding ids) with
    (insert_indexed (spec_placement (Z.of_nat (length ids)) atlas_size padding) ids 0 ∅).
  now rewrite (insert_indexed_last _ _ _ _ i id Hi Hlast).
Qed.

Lemma spec_placements_inv atlas_size padding (ids : list string) id pos :
  spec_placements atlas_size padding ids !! id = Some pos ->
  exists i : nat, ids !! i = Some id /\
    pos = spec_placement (Z.of_nat (length ids)) atlas_size padding (Z.of_nat i).
Proof.
  intros Hlook.
  change (spec_placements atlas_size padding ids) with
    (insert_indexed (spec_placement (Z.of_nat (length ids)) atlas_size padding) ids 0 ∅)
    in Hlook.
  apply insert_indexed_inv in Hlook. destruct Hlook as [Hempty|Hex]; [|exact Hex].
  rewrite lookup_empty in Hempty. discriminate.
Qed.

(** *** Two runs of the packer on tiles that differ only in their pixels *)

Lemma agree_ret {A B} (rel : A -> B -> Prop) a b : rel a b -> agree rel (ret a) (ret b).
Proof. intros H. exact H. Qed.

Lemma agree_same {A} (m : M A) : agree eq m m.
Proof. destruct m as [[a|e|p] log]; reflexivity. Qed.

Lemma agree_bind {A1 A2 B1 B2} (rel1 : A1 -> A2 -> Prop) (rel2 : B1 -> B2 -> Prop)
    (m1 : M A1) (m2 : M A2) (k1 : A1 -> M B1) (k2 : A2 -> M B2) :
  agree rel1 m1 m2 ->
  (forall a b, rel1 a b -> agree rel2 (k1 a) (k2 b)) ->
  agree rel2 (bind m1 k1) (bind m2 k2).
Proof.
  unfold agree, result_of.
  destruct m1 as [[a|e1|p1] log1], m2 as [[b|e2|p2] log2]; simpl; try tauto.
  intros Hab Hk. specialize (Hk a b Hab).
  destruct (k1 a) as [r1 l1], (k2 b) as [r2 l2]. exact Hk.
Qed.

Lemma agree_for_each2 {A1 A2 S1 S2} (P : A1 -> A2 -> Prop) (rel : S1 -> S2 -> Prop)
    (l1 : list A1) (l2 : list A2) body1 body2 s1 s2 :
  Forall2 P l1 l2 ->
  (forall a b s t, P a b -> rel s t -> agree rel (body1 a s) (body2 b t)) ->
  rel s1 s2 ->
  agree rel (for_each l1 body1 s1) (for_each l2 body2 s2).
Proof.
  intros Hl Hbody. revert s1 s2.
  induction Hl as [|a b l1 l2 Hab Hl IH]; intros s1 s2 Hs; simpl.
  - now apply agree_ret.
  - eapply agree_bind; [apply Hbody; eauto|]. intros s t Hst. now apply IH.
Qed.

Lemma agree_for_range {S1 S2} (rel : S1 -> S2 -> Prop) lo hi
    (body1 : Z -> S1 -> M S1) (body2 : Z -> S2 -> M S2) s1 s2 :
  (forall i s t, rel s t -> agree rel (body1 i s) (body2 i t)) ->
  rel s1 s2 ->
  agree rel (for_range lo hi body1 s1) (for_range lo hi body2 s2).
Proof.
  intros Hbody Hs. unfold for_range.
  apply agree_for_each2 with (P := eq); auto.
  - apply Forall2_same_length_lookup_2; [reflexivity|]. intros; congruence.
  - intros a b s t <-. apply Hbody.
Qed.

Lemma agree_get_pixel {P Q} (a : ImageBuffer P) (b : ImageBuffer Q) x y :
  same_dimensions a b -> agree (fun _ _ => True) (get_pixel a x y) (get_pixel b x y).
Proof.
  intros [Hw Hh]. unfold agree, get_pixel, in_bounds. rewrite Hw, Hh.
  destruct (_ && _); simpl; auto.
Qed.

Lemma agree_put_pixel {P} (a b : ImageBuffer P) x y p q :
  same_dimensions a b -> agree same_dimensions (put_pixel a x y p) (put_pixel b x y q).
Proof.
  intros [Hw Hh]. unfold agree, put_pixel, in_bounds. rewrite Hw, Hh.
  destruct (_ && _); simpl; auto. split; simpl; auto.
Qed.

Lemma agree_copy_to_atlas oc rgba1 rgba2 x y content_size atlas_size atlas1 atlas2 :
  same_dimensions rgba1 rgba2 -> same_dimensions atlas1 atlas2 ->
  agree same_dimensions
    (copy_to_atlas oc rgba1 x y content_size atlas_size atlas1)
    (copy_to_atlas oc rgba2 x y content_size atlas_size atlas2).
Proof.
  intros Hrgba Hatlas. unfold copy_to_atlas.
  apply agree_for_range; [|exact Hatlas]. intros py a1 a2 Ha.
  apply agree_for_range; [|exact Ha]. intros px b1 b2 Hb.
  eapply agree_bind; [apply agree_same|]. intros xp ? <-.
  destruct (xp <? atlas_size); [|now apply agree_ret].
  eapply agree_bind; [apply agree_same|]. intros yp ? <-.
  destruct (yp <? atlas_size); [|now apply agree_ret].
  eapply agree_bind; [apply agree_get_pixel; exact Hrgba|]. intros p q _.
  now apply agree_put_pixel.
Qed.

Lemma agree_place_tile oc filter atlas_size padding grid_size cell_size content_size
    i id image1 image2 s1 s2 :
  same_packing s1 s2 ->
  agree same_packing
    (place_tile oc filter atlas_size padding grid_size cell_size content_size
       (i, (id, image1)) s1)
    (place_tile oc filter atlas_size padding grid_size cell_size content_size
       (i, (id, image2)) s2).
Proof.
  destruct s1 as [atlas1 positions1], s2 as [atlas2 positions2].
  intros [Hdims Hpos]. simpl in Hdims, Hpos. subst positions2. unfold place_tile.
  eapply agree_bind; [apply agree_same|]. intros grid_x ? <-.
  eapply agree_bind; [apply agree_same|]. intros grid_y ? <-.
  eapply agree_bind; [apply agree_same|]. intros gxc ? <-.
  eapply agree_bind; [apply agree_same|]. intros x ? <-.
  eapply agree_bind; [apply agree_same|]. intros gyc ? <-.
  eapply agree_bind; [apply agree_same|]. intros y ? <-.
  eapply agree_bind.
  { apply agree_copy_to_atlas; [|exact Hdims].
    destruct (resized_dimensions image1 content_size content_size filter) as [Hw1 Hh1].
    destruct (resized_dimensions image2 content_size content_size filter) as [Hw2 Hh2].
    split; congruence. }
  intros a1 a2 Ha. apply agree_ret. split; simpl; auto.
Qed.

Lemma enumerate_same_ids (images1 images2 : list (string * DynamicImage)) :
  map fst images1 = map fst images2 ->
  Forall2 (fun e1 e2 : Z * (string * DynamicImage) =>
             fst e1 = fst e2 /\ fst (snd e1) = fst (snd e2))
          (enumerate images1) (enumerate images2).
Proof.
  unfold enumerate. generalize 0 as k. revert images2.
  induction images1 as [|[id1 im1] l1 IH]; intros [|[id2 im2] l2] k Hids;
    try discriminate; [constructor|].
  simpl in Hids. inversion Hids; subst.
  rewrite !seqZ_succ_length. simpl. constructor; [split; reflexivity|].
  now apply IH.
Qed.

Lemma returns_result {A} (m : M A) Q R :
  returns m Q R -> exists a, result_of m = Ok a /\ Q a /\ Forall R (reads_of m).
Proof. intros (a & log & -> & Ha & Hlog). exists a. auto. Qed.

(** C1. The packer, called on an empty tile list, divides by the grid side
    zero and panics: the specified empty atlas and empty placement map are
    not returned. *)
Theorem pack_atlas_empty_panics oc filter atlas_size padding :
  result_of (pack_atlas oc filter [] atlas_size padding) = Panic DivideByZero.
Proof. reflexivity. Qed.

(** C2, as stated, fails: with one tile, an atlas of side 4 and padding 2
    the cell size 4 does not exceed twice the padding, yet the packer
    reports no error and returns a placement of size zero. *)
Lemma pack_atlas_no_overflow_error :
  4 / ceil_sqrt 1 <= 2 * 2 /\
  (forall msg, result_of (pack_atlas true nearest [("A", grey_tile 8 10)] 4 2) <> Err msg) /\
  exists atlas positions,
    result_of (pack_atlas true nearest [("A", grey_tile 8 10)] 4 2) = Ok (atlas, positions) /\
    positions !! "A" = Some {| pos_x := 2; pos_y := 2; pos_width := 0; pos_height := 0 |}.
Proof.
  split; [vm_compute; discriminate|]. split.
  - intros msg. vm_compute. discriminate.
  - eexists _, _. split; [vm_compute; reflexivity|]. reflexivity.
Qed.

Lemma insert_indexed_keeps f (ids : list string) k t (id : string) :
  is_Some (t !! id) -> is_Some (insert_indexed f ids k t !! id).
Proof.
  revert k t. induction ids as [|a ids IH]; intros k t Ht; [exact Ht|].
  rewrite insert_indexed_cons. apply IH. apply lookup_insert_is_Some.
  destruct (decide (a = id)); auto.
Qed.

Lemma insert_indexed_present f (ids : list string) k t (i : nat) (id : string) :
  ids !! i = Some id -> is_Some (insert_indexed f ids k t !! id).
Proof.
  revert k t i. induction ids as [|a ids IH]; intros k t i Hi; [discriminate|].
  rewrite insert_indexed_cons. destruct i as [|i]; simpl in Hi.
  - inversion Hi; subst a. apply insert_indexed_keeps.
    rewrite lookup_insert_eq. eauto.
  - now apply (IH _ _ i).
Qed.

(** C2, amended. When the cell size equals twice the padding, the packer
    raises no error: it returns a placement for every tile, each an empty
    rectangle (width and height zero). *)
Theorem pack_atlas_zero_content oc filter (images : list (string * DynamicImage))
    atlas_size padding :
  let n := Z.of_nat (length images) in
  0 < n <= max_exact_count ->
  0 < atlas_size <= u32_max ->
  0 <= padding ->
  atlas_size / ceil_sqrt n = 2 * padding ->
  exists atlas positions,
    result_of (pack_atlas oc filter images atlas_size padding) = Ok (atlas, positions) /\
    (forall (i : nat) id, map fst images !! i = Some id -> is_Some (positions !! id)) /\
    (forall id pos, positions !! id = Some pos ->
       pos_width pos = 0 /\ pos_height pos = 0).
Proof.
  intros n Hn Ha Hp Hc.
  destruct (returns_result _ _ _
              (pack_atlas_returns oc filter images atlas_size padding
                 Hn ltac:(lia) Hp ltac:(fold n; lia)))
    as ([atlas positions] & Hres & Hpos & _).
  simpl in Hpos. exists atlas, positions. split; [exact Hres|]. subst positions. split.
  - intros i id Hi.
    exact (insert_indexed_present _ (map fst images) 0 ∅ i id Hi).
  - intros id pos Hlook. apply spec_placements_inv in Hlook.
    destruct Hlook as (i & _ & ->). rewrite length_map. fold n.
    unfold spec_placement. simpl. lia.
Qed.

Lemma pack_atlas_zero_content_witness :
  exists atlas positions,
    result_of (pack_atlas true nearest tiles_ABC 8 2) = Ok (atlas, positions) /\
    (forall (i : nat) id, map fst tiles_ABC !! i = Some id -> is_Some (positions !! id)) /\
    (forall id pos, positions !! id = Some pos ->
       pos_width pos = 0 /\ pos_height pos = 0).
Proof.
  apply (pack_atlas_zero_content true nearest tiles_ABC 8 2).
  - vm_compute. split; [reflexivity|discriminate].
  - vm_compute. split; [reflexivity|discriminate].
  - lia.
  - reflexivity.
Defined.

(** X26. For 1 to [2^24 - 1] tiles and a positive content size
    [s = atlasSize / g - 2 * padding], [g = ceil(sqrt n)] and
    [c = atlasSize / g], the packer computes the grid side [g] and places
    tile [i] (the last tile carrying its id) at cell [(i mod g, i div g)]:
    origin [(gridX * c + padding, gridY * c + padding)], size [s x s]. *)
Theorem pack_atlas_grid_placement oc filter (images : list (string * DynamicImage))
    atlas_size padding (i : nat) (id : string) :
  let n := Z.of_nat (length images) in
  let g := ceil_sqrt n in
  let c := atlas_size / g in
  let s := c - 2 * padding in
  0 < n <= max_exact_count ->
  0 < atlas_size <= u32_max ->
  0 <= padding ->
  0 < s ->
  map fst images !! i = Some id ->
  (forall j : nat, (i < j)%nat -> map fst images !! j <> Some id) ->
  grid_size_of n = g /\
  exists atlas positions,
    result_of (pack_atlas oc filter images atlas_size padding) = Ok (atlas, positions) /\
    positions !! id =
      Some {| pos_x := (Z.of_nat i mod g) * c + padding;
              pos_y := (Z.of_nat i / g) * c + padding;
              pos_width := s;
              pos_height := s |}.
Proof.
  intros n g c s Hn Ha Hp Hs Hi Hlast.
  split; [apply grid_size_of_exact; lia|].
  destruct (returns_result _ _ _
              (pack_atlas_returns oc filter images atlas_size padding
                 Hn ltac:(lia) Hp ltac:(fold n g c; lia)))
    as ([atlas positions] & Hres & Hpos & _).
  simpl in Hpos. exists atlas, positions. split; [exact Hres|]. subst positions.
  rewrite (spec_placements_last _ _ _ i id Hi Hlast), length_map. reflexivity.
Qed.

(** The scenario of the specification: A, B and C of 64 x 64 in an atlas of
    192 with no padding give [g = 2], [c = 96]. *)
Lemma pack_atlas_grid_placement_witness :
  grid_size_of 3 = 2 /\
  exists atlas positions,
    result_of (pack_atlas true nearest tiles_ABC 192 0) = Ok (atlas, positions) /\
    positions !! "A" = Some {| pos_x := 0; pos_y := 0; pos_width := 96; pos_height := 96 |} /\
    positions !! "B" = Some {| pos_x := 96; pos_y := 0; pos_width := 96; pos_height := 96 |} /\
    positions !! "C" = Some {| pos_x := 0; pos_y := 96; pos_width := 96; pos_height := 96 |}.
Proof.
  assert (Hn : 0 < Z.of_nat (length tiles_ABC) <= max_exact_count)
    by (vm_compute; split; [reflexivity|discriminate]).
  assert (Ha : 0 < 192 <= u32_max) by (vm_compute; split; [reflexivity|discriminate]).
  assert (Hs : 0 < 192 / ceil_sqrt (Z.of_nat (length tiles_ABC)) - 2 * 0) by reflexivity.
  assert (Hlast : forall (i : nat) (id : string), (i < 3)%nat ->
            map fst tiles_ABC !! i = Some id ->
            forall j : nat, (i < j)%nat -> map fst tiles_ABC !! j <> Some id).
  { intros i id Hi Hlook j Hj.
    destruct i as [|[|[|i]]]; try lia; inversion Hlook; subst id;
      destruct j as [|[|[|j]]]; try lia; discriminate. }
  destruct (pack_atlas_grid_placement true nearest tiles_ABC 192 0 0 "A"
              Hn Ha ltac:(lia) Hs eq_refl (Hlast 0%nat "A" ltac:(lia) eq_refl))
    as (Hg & atlas & positions & Hres & HA).
  destruct (pack_atlas_grid_placement true nearest tiles_ABC 192 0 1 "B"
              Hn Ha ltac:(lia) Hs eq_refl (Hlast 1%nat "B" ltac:(lia) eq_refl))
    as (_ & atlasB & positionsB & HresB & HB).
  destruct (pack_atlas_grid_placement true nearest tiles_ABC 192 0 2 "C"
              Hn Ha ltac:(lia) Hs eq_refl (Hlast 2%nat "C" ltac:(lia) eq_refl))
    as (_ & atlasC & positionsC & HresC & HC).
  rewrite Hres in HresB, HresC.
  inversion HresB; subst. inversion HresC; subst.
  split; [exact Hg|]. exists atlasC, positionsC. repeat split; assumption.
Defined.

(** X27. For 1 to [2^24 - 1] tiles and a non-negative content size the
    packer returns, every placement lies inside the atlas and the placements
    of distinct ids do not overlap, whether or not the grid side divides the
    atlas size. *)
Theorem pack_atlas_placements_disjoint oc filter (images : list (string * DynamicImage))
    atlas_size padding :
  let n := Z.of_nat (length images) in
  0 < n <= max_exact_count ->
  0 < atlas_size <= u32_max ->
  0 <= padding ->
  2 * padding <= atlas_size / ceil_sqrt n ->
  exists atlas positions,
    result_of (pack_atlas oc filter images atlas_size padding) = Ok (atlas, positions) /\
    (forall id pos, positions !! id = Some pos -> inside_atlas atlas_size pos) /\
    (forall id1 id2 pos1 pos2, id1 <> id2 ->
       positions !! id1 = Some pos1 -> positions !! id2 = Some pos2 ->
       disjoint_rectangles pos1 pos2).
Proof.
  intros n Hn Ha Hp Hc.
  destruct (returns_result _ _ _
              (pack_atlas_returns oc filter images atlas_size padding
                 Hn ltac:(lia) Hp Hc))
    as ([atlas positions] & Hres & Hpos & _).
  simpl in Hpos. exists atlas, positions. split; [exact Hres|]. subst positions.
  pose proof (ceil_sqrt_spec n ltac:(lia)) as (Hg & _).
  assert (Hcell : forall (i : nat) (id : string), map fst images !! i = Some id ->
            0 <= Z.of_nat i < n).
  { intros i id Hi. apply lookup_lt_Some in Hi. rewrite length_map in Hi. lia. }
  split.
  - intros id pos Hlook. apply spec_placements_inv in Hlook.
    destruct Hlook as (i & Hi & ->). rewrite length_map. fold n.
    pose proof (cell_in_atlas n atlas_size (Z.of_nat i) ltac:(lia) ltac:(lia)
                  (Hcell i id Hi)) as Hin.
    cbv zeta in Hin. destruct Hin as (Hmod & Hdiv & Hc0 & Hx & Hy).
    unfold inside_atlas, spec_placement. simpl.
    assert (0 <= Z.of_nat i mod ceil_sqrt n * (atlas_size / ceil_sqrt n))
      by (apply Z.mul_nonneg_nonneg; lia).
    assert (0 <= Z.of_nat i / ceil_sqrt n * (atlas_size / ceil_sqrt n))
      by (apply Z.mul_nonneg_nonneg; lia).
    lia.
  - intros id1 id2 pos1 pos2 Hne Hlook1 Hlook2.
    apply spec_placements_inv in Hlook1, Hlook2.
    destruct Hlook1 as (i1 & Hi1 & ->). destruct Hlook2 as (i2 & Hi2 & ->).
    rewrite length_map. fold n.
    assert (Hi : i1 <> i2) by congruence.
    pose proof (Hcell i1 id1 Hi1) as Hb1. pose proof (Hcell i2 id2 Hi2) as Hb2.
    set (g := ceil_sqrt n) in *. set (c := atlas_size / g) in *.
    assert (Hc0 : 0 <= c) by (apply Z.div_pos; lia).
    pose proof (Z.div_mod (Z.of_nat i1) g ltac:(lia)) as Hdm1.
    pose proof (Z.div_mod (Z.of_nat i2) g ltac:(lia)) as Hdm2.
    unfold disjoint_rectangles, spec_placement. simpl. fold g c.
    set (x1 := Z.of_nat i1 mod g) in *. set (y1 := Z.of_nat i1 / g) in *.
    set (x2 := Z.of_nat i2 mod g) in *. set (y2 := Z.of_nat i2 / g) in *.
    destruct (Z.lt_total x1 x2) as [Hx|[Hx|Hx]].
    + left. nia.
    + destruct (Z.lt_total y1 y2) as [Hy|[Hy|Hy]].
      * right. right. left. nia.
      * exfalso. apply Hi. apply Nat2Z.inj. lia.
      * right. right. right. nia.
    + right. left. nia.
Qed.

Lemma pack_atlas_placements_disjoint_witness :
  exists atlas positions,
    result_of (pack_atlas true nearest five_tiles 100 3) = Ok (atlas, positions) /\
    (forall id pos, positions !! id = Some pos -> inside_atlas 100 pos) /\
    (forall id1 id2 pos1 pos2, id1 <> id2 ->
       positions !! id1 = Some pos1 -> positions !! id2 = Some pos2 ->
       disjoint_rectangles pos1 pos2).
Proof.
  apply (pack_atlas_placements_disjoint true nearest five_tiles 100 3).
  - vm_compute. split; [reflexivity|discriminate].
  - vm_compute. split; [reflexivity|discriminate].
  - lia.
  - vm_compute. discriminate.
Defined.

(** C7. Two runs of the packer on tile lists with the same ids in the same
    order, the same atlas size and the same padding end alike, and when they
    return, return the same placement map, whatever the pixels of the tiles. *)
Theorem pack_atlas_deterministic oc filter
    (images1 images2 : list (string * DynamicImage)) atlas_size padding :
  map fst images1 = map fst images2 ->
  outcome_map snd (result_of (pack_atlas oc filter images1 atlas_size padding)) =
  outcome_map snd (result_of (pack_atlas oc filter images2 atlas_size padding)).
Proof.
  intros Hids.
  assert (Hagree : agree same_packing
            (pack_atlas oc filter images1 atlas_size padding)
            (pack_atlas oc filter images2 atlas_size padding)).
  { unfold pack_atlas.
    assert (length images1 = length images2) as <-
      by (rewrite <- (length_map fst images1), Hids; apply length_map).
    eapply agree_bind; [apply agree_same|]. intros cell_size ? <-.
    eapply agree_bind; [apply agree_same|]. intros padding2 ? <-.
    eapply agree_bind; [apply agree_same|]. intros content_size ? <-.
    eapply agree_for_each2.
    - apply enumerate_same_ids, Hids.
    - intros [i1 [id1 im1]] [i2 [id2 im2]] s t [Hi Hid] Hst. simpl in Hi, Hid. subst.
      now apply agree_place_tile.
    - split; simpl; [split|]; reflexivity. }
  unfold agree in Hagree.
  destruct (result_of (pack_atlas oc filter images1 atlas_size padding)) as [[a1 p1]|e1|q1],
           (result_of (pack_atlas oc filter images2 atlas_size padding)) as [[a2 p2]|e2|q2];
    simpl in *; try contradiction; try congruence.
  destruct Hagree as [_ Hp]. simpl in Hp. congruence.
Qed.

Lemma pack_atlas_deterministic_witness :
  outcome_map snd (result_of (pack_atlas true nearest tiles_ABC 192 0)) =
  outcome_map snd (result_of (pack_atlas true nearest tiles_ABC' 192 0)).
Proof.
  apply (pack_atlas_deterministic true nearest tiles_ABC tiles_ABC' 192 0).
  reflexivity.
Defined.

(** X25. For an in-bounds pixel, a positive range and a search window whose
    [i32] arithmetic does not overflow, the signed distance is negative
    exactly when the pixel is inside, positive exactly when it is outside,
    and its magnitude does not exceed the range. *)
Theorem distance_sign_matches_membership oc (mask : GrayImage) (x y : Z)
    (max_range : f32) :
  0 <= x < width mask ->
  0 <= y < height mask ->
  F32.ltb F32.zero max_range = true ->
  search_fits_i32 mask max_range ->
  exists distance,
    result_of (calculate_distance_to_edge oc mask x y max_range) = Ok distance /\
    F32.ltb distance F32.zero = is_inside_pixel (pixel_at mask x y) /\
    F32.ltb F32.zero distance = negb (is_inside_pixel (pixel_at mask x y)) /\
    F32.leb (F32.abs distance) max_range = true.
Proof.
  intros Hx Hy Hr HR.
  destruct (returns_result _ _ _
              (calculate_distance_to_edge_returns oc mask x y max_range
                 Hx Hy Hr HR))
    as (d & Hres & (md & [Hpos Hle] & Hd) & _).
  exists d. split; [exact Hres|]. subst d.
  destruct (is_inside_pixel (pixel_at mask x y));
    destruct md as [|[]| |[] m e]; simpl in Hpos; try contradiction;
    repeat split; auto.
Qed.

Lemma distance_sign_matches_membership_witness :
  exists distance,
    result_of (calculate_distance_to_edge true column_mask 0 1 range4) = Ok distance /\
    F32.ltb distance F32.zero = is_inside_pixel (pixel_at column_mask 0 1) /\
    F32.ltb F32.zero distance = negb (is_inside_pixel (pixel_at column_mask 0 1)) /\
    F32.leb (F32.abs distance) range4 = true.
Proof.
  apply (distance_sign_matches_membership true column_mask 0 1 range4).
  - simpl. lia.
  - simpl. lia.
  - reflexivity.
  - vm_compute. repeat split; discriminate.
Defined.

(** ** The registry *)

Lemma bind_Ok_inv {A B} (m : M A) (k : A -> M B) (b : B) :
  result_of (bind m k) = Ok b ->
  exists a, result_of m = Ok a /\ result_of (k a) = Ok b.
Proof.
  destruct m as [[a|e|p] log]; simpl; try discriminate.
  intros H. exists a. split; [reflexivity|].
  destruct (k a) as [r log']. exact H.
Qed.

Lemma for_each_Ok_inv {A S} (J : list A -> S -> Prop) (l : list A)
    (body : A -> S -> M S) (s0 s' : S) :
  J [] s0 ->
  (forall pre a s s1, J pre s -> result_of (body a s) = Ok s1 -> J (pre ++ [a]) s1) ->
  result_of (for_each l body s0) = Ok s' -> J l s'.
Proof.
  intros H0 Hstep.
  assert (Hgen : forall pre s, J pre s ->
            result_of (for_each l body s) = Ok s' -> J (pre ++ l) s').
  { induction l as [|a l IH]; intros pre s Hpre Hres; simpl in Hres.
    - inversion Hres; subst. now rewrite app_nil_r.
    - apply bind_Ok_inv in Hres. destruct Hres as (s1 & Hbody & Hrest).
      replace (pre ++ a :: l) with ((pre ++ [a]) ++ l) by (rewrite <- app_assoc; reflexivity).
      eapply IH; [|exact Hrest]. eapply Hstep; eauto. }
  apply (Hgen [] s0 H0).
Qed.

Lemma place_tile_Ok_inv oc filter atlas_size padding grid_size cell_size content_size
    i id image atlas positions atlas' positions' :
  result_of (place_tile oc filter atlas_size padding grid_size cell_size content_size
               (i, (id, image)) (atlas, positions)) = Ok (atlas', positions') ->
  exists pos, positions' = <[id := pos]> positions.
Proof.
  unfold place_tile. intros H.
  do 7 (apply bind_Ok_inv in H; destruct H as (? & _ & H)).
  inversion H; subst. eauto.
Qed.

Lemma enumerate_ids {A B} (l : list (A * B)) :
  map (fun e : Z * (A * B) => fst (snd e)) (enumerate l) = map fst l.
Proof.
  unfold enumerate. rewrite <- (map_map snd fst).
  change (map snd (zip (seqZ 0 (Z.of_nat (length l))) l))
    with ((zip (seqZ 0 (Z.of_nat (length l))) l).*2).
  rewrite snd_zip; [reflexivity|]. rewrite length_seqZ. lia.
Qed.

(** Whenever the packer returns, its map has exactly the ids of the tiles. *)
Lemma pack_atlas_Ok_ids oc filter (images : list (string * DynamicImage))
    atlas_size padding atlas (positions : gmap string AtlasPosition) :
  result_of (pack_atlas oc filter images atlas_size padding) = Ok (atlas, positions) ->
  forall id : string, is_Some (positions !! id) <-> id ∈ map fst images.
Proof.
  unfold pack_atlas. intros H.
  do 3 (apply bind_Ok_inv in H; destruct H as (? & _ & H)).
  rewrite <- enumerate_ids.
  revert H.
  apply (for_each_Ok_inv
           (fun pre (state : RgbaImage * gmap string AtlasPosition) =>
              forall id : string, is_Some (snd state !! id) <->
                id ∈ map (fun e : Z * (string * DynamicImage) => fst (snd e)) pre)).
  - intros id. simpl. rewrite lookup_empty. split; [intros [? ?]; discriminate|].
    intros Hin. inversion Hin.
  - intros pre [i [id image]] [a p] [a1 p1] Hpre Hres id'.
    apply place_tile_Ok_inv in Hres. destruct Hres as [pos ->]. simpl.
    rewrite map_app, elem_of_app, lookup_insert_is_Some. simpl.
    rewrite list_elem_of_singleton. specialize (Hpre id'). simpl in Hpre.
    destruct (decide (id = id')); intuition congruence.
Qed.

Lemma char_tile_id_inj ch1 ch2 : char_tile_id ch1 = char_tile_id ch2 -> ch1 = ch2.
Proof. unfold char_tile_id. intros H. now injection H. Qed.

Lemma shape_tile_id_inj n1 n2 : shape_tile_id n1 = shape_tile_id n2 -> n1 = n2.
Proof. unfold shape_tile_id. intros H. now injection H. Qed.

Lemma char_shape_tile_id_ne ch name : char_tile_id ch <> shape_tile_id name.
Proof. unfold char_tile_id, shape_tile_id. intros H. discriminate H. Qed.


Lemma foldl_add_character (l : list (ascii * CharacterSdf)) characters sdf_images :
  let r := foldl add_character (characters, sdf_images) l in
  (forall ch, is_Some (fst r !! ch) <-> ch ∈ map fst l \/ is_Some (characters !! ch)) /\
  map fst (snd r) = map fst sdf_images ++ map (fun e => char_tile_id (fst e)) l.
Proof.
  revert characters sdf_images.
  induction l as [|[ch sdf_data] l IH]; intros characters sdf_images; simpl.
  - split; [|now rewrite app_nil_r]. intros ch. rewrite elem_of_nil. tauto.
  - destruct (IH (<[ch := {| ci_x := 0; ci_y := 0;
                             ci_width := sdf_width sdf_data;
                             ci_height := sdf_height sdf_data;
                             ci_advance := sdf_advance sdf_data;
                             ci_bearing_x := sdf_bearing_x sdf_data;
                             ci_bearing_y := sdf_bearing_y sdf_data |}]> characters)
                 (sdf_images ++ [(char_tile_id ch, sdf_image sdf_data)])) as [Hdom Hids].
    split.
    + intros ch'. rewrite Hdom, lookup_insert_is_Some, elem_of_cons.
      destruct (decide (ch = ch')); intuition congruence.
    + rewrite Hids, map_app, <- app_assoc. reflexivity.
Qed.

Lemma foldl_add_shape sdf_size (l : list (string * DynamicImage)) shapes sdf_images :
  let r := foldl (add_shape sdf_size) (shapes, sdf_images) l in
  (forall name, is_Some (fst r !! name) <-> name ∈ map fst l \/ is_Some (shapes !! name)) /\
  map fst (snd r) = map fst sdf_images ++ map (fun e => shape_tile_id (fst e)) l.
Proof.
  revert shapes sdf_images.
  induction l as [|[name image] l IH]; intros shapes sdf_images; simpl.
  - split; [|now rewrite app_nil_r]. intros name. rewrite elem_of_nil. tauto.
  - destruct (IH (<[name := {| si_x := 0; si_y := 0;
                               si_width := sdf_size; si_height := sdf_size |}]> shapes)
                 (sdf_images ++ [(shape_tile_id name, image)])) as [Hdom Hids].
    split.
    + intros name'. rewrite Hdom, lookup_insert_is_Some, elem_of_cons.
      destruct (decide (name = name')); intuition congruence.
    + rewrite Hids, map_app, <- app_assoc. reflexivity.
Qed.

Lemma generate_tiles_Ok FontData fs_read generate_character_sdfs generate_basic_shapes
    config characters shapes sdf_images :
  result_of (generate_tiles FontData fs_read generate_character_sdfs
               generate_basic_shapes config) = Ok (characters, shapes, sdf_images) ->
  tiles_match_entries characters shapes (map fst sdf_images).
Proof.
  unfold generate_tiles. intros H.
  apply bind_Ok_inv in H. destruct H as ([cs ims] & Hchars & H).
  apply bind_Ok_inv in H. destruct H as ([ss ims'] & Hshapes & H).
  inversion H; subst cs ss ims'. clear H.
  assert (Hc : exists chs : list ascii, NoDup chs /\
            (forall ch, is_Some (characters !! ch) <-> ch ∈ chs) /\
            map fst ims = map char_tile_id chs).
  { destruct (cfg_font_path config) as [font_path|].
    - apply bind_Ok_inv in Hchars. destruct Hchars as (font_data & _ & Hchars).
      apply bind_Ok_inv in Hchars. destruct Hchars as (character_sdfs & _ & Hchars).
      inversion Hchars as [Hfold]. clear Hchars.
      destruct (foldl_add_character (map_to_list character_sdfs) ∅ []) as [Hdom Hids].
      rewrite Hfold in Hdom, Hids. simpl in Hdom, Hids.
      exists (map fst (map_to_list character_sdfs)). split; [|split].
      + apply NoDup_fst_map_to_list.
      + intros ch. rewrite Hdom, lookup_empty. split; [intros [?|[? ?]]|]; auto; discriminate.
      + rewrite Hids, map_map. reflexivity.
    - inversion Hchars; subst. exists []. split; [constructor|]. split; [|reflexivity].
      intros ch. rewrite lookup_empty, elem_of_nil. split; [intros [? ?]; discriminate|tauto]. }
  destruct Hc as (chs & Hnd & Hcdom & Hcids).
  assert (Hs : exists names : list string, NoDup names /\
            (forall name, is_Some (shapes !! name) <-> name ∈ names) /\
            map fst sdf_images = map fst ims ++ map shape_tile_id names).
  { destruct (cfg_include_shapes config).
    - apply bind_Ok_inv in Hshapes. destruct Hshapes as (shape_sdfs & _ & Hshapes).
      inversion Hshapes as [Hfold]. clear Hshapes.
      destruct (foldl_add_shape (cfg_sdf_size config) (map_to_list shape_sdfs) ∅ ims)
        as [Hdom Hids].
      rewrite Hfold in Hdom, Hids. simpl in Hdom, Hids.
      exists (map fst (map_to_list shape_sdfs)). split; [|split].
      + apply NoDup_fst_map_to_list.
      + intros name. rewrite Hdom, lookup_empty.
        split; [intros [?|[? ?]]|]; auto; discriminate.
      + rewrite Hids, map_map. reflexivity.
    - inversion Hshapes; subst. exists []. split; [constructor|]. split.
      + intros name. rewrite lookup_empty, elem_of_nil.
        split; [intros [? ?]; discriminate|tauto].
      + simpl. now rewrite app_nil_r. }
  destruct Hs as (names & Hnd' & Hsdom & Hsids).
  exists chs, names. repeat split; auto; try apply Hcdom; try apply Hsdom.
  rewrite Hsids, Hcids. reflexivity.
Qed.






(** C6 fails on the code. For three shape tiles of side 8 in an atlas of 64
    with padding 2 the packer places "shape_circle" in a rectangle of
    28 x 28; the registry entry of "circle" takes its x and y from that
    placement and keeps the width and height 8 of the tile. *)
Theorem generate_keeps_tile_size :
  exists res characters shapes sdf_images atlas positions pos info,
    result_of (generate true nearest unit sample_fs_read sample_character_sdfs
                 sample_basic_shapes "2025-01-01T00:00:00+00:00" shapes_config) = Ok res /\
    result_of (generate_tiles unit sample_fs_read sample_character_sdfs
                 sample_basic_shapes shapes_config)
      = Ok (characters, shapes, sdf_images) /\
    result_of (pack_atlas true nearest sdf_images 64 2) = Ok (atlas, positions) /\
    positions !! shape_tile_id "circle" = Some pos /\
    reg_shapes (registry res) !! "circle" = Some info /\
    si_x info = pos_x pos /\ si_y info = pos_y pos /\
    pos_width pos = 28 /\ si_width info = 8 /\
    pos_height pos = 28 /\ si_height info = 8.
Proof.
  eexists _, _, _, _, _, _, _, _.
  split; [vm_compute; reflexivity|].
  split; [vm_compute; reflexivity|].
  split; [vm_compute; reflexivity|].
  split; [vm_compute; reflexivity|].
  split; [vm_compute; reflexivity|].
  repeat split; reflexivity.
Qed.

(** The sibling assembly of the registry, [create_registry], stores all four
    fields of the rectangles it is given. *)
Lemma create_registry_stores_rectangle atlas_width atlas_height sdf_range resolution
    padding multi_channel created (name : string) (x y w h : Z) :
  reg_shapes (create_registry atlas_width atlas_height sdf_range resolution padding
                multi_channel created ∅ {[ name := (x, y, w, h) ]}) !! name
  = Some {| si_x := x; si_y := y; si_width := w; si_height := h |}.
Proof.
  unfold create_registry. simpl. rewrite map_to_list_singleton. simpl.
  apply lookup_insert_eq.
Qed.

(** * Further properties of the code *)

(** ** The nearest pixel of the other class *)

Lemma leb_trans_positive (a b c : f32) :
  is_positive a -> is_positive b -> is_positive c ->
  F32.leb a b = true -> F32.leb b c = true -> F32.leb a c = true.
Proof.
  unfold F32.leb, SFleb.
  destruct a as [|[]| |[] ma ea]; simpl; try tauto;
  destruct b as [|[]| |[] mb eb]; simpl; try tauto;
  destruct c as [|[]| |[] mc ec]; simpl; try tauto; intros _ _ _; try congruence.
  change (Pos.compare_cont Eq ma mb) with (Pos.compare ma mb).
  change (Pos.compare_cont Eq mb mc) with (Pos.compare mb mc).
  change (Pos.compare_cont Eq ma mc) with (Pos.compare ma mc).
  destruct (Z.compare_spec ea eb); try congruence;
  destruct (Z.compare_spec eb ec); try congruence;
  destruct (Z.compare_spec ea ec); try lia; auto;
  destruct (Pos.compare_spec ma mb); try congruence;
  destruct (Pos.compare_spec mb mc); try congruence;
  destruct (Pos.compare_spec ma mc); try lia; auto.
Qed.

Lemma ltb_false_leb (a b : f32) :
  is_positive a -> is_positive b -> F32.ltb b a = false -> F32.leb a b = true.
Proof.
  unfold F32.ltb, F32.leb, SFltb, SFleb.
  destruct a as [|[]| |[] ma ea]; simpl; try tauto;
  destruct b as [|[]| |[] mb eb]; simpl; try tauto; intros _ _; try congruence.
  change (Pos.compare_cont Eq mb ma) with (Pos.compare mb ma).
  change (Pos.compare_cont Eq ma mb) with (Pos.compare ma mb).
  rewrite (Z.compare_antisym eb ea), (Pos.compare_antisym mb ma).
  destruct (eb ?= ea); simpl; try congruence.
  destruct (mb ?= ma)%positive; simpl; congruence.
Qed.

Lemma min_positive_cases (a b : f32) :
  is_positive a -> is_positive b ->
  (F32.min a b = a \/ F32.min a b = b) /\
  F32.leb (F32.min a b) a = true /\ F32.leb (F32.min a b) b = true.
Proof.
  intros Ha Hb. unfold F32.min.
  assert (F32.is_nan a = false) as -> by (destruct a as [|[]| |[] ? ?]; simpl in *; tauto).
  assert (F32.is_nan b = false) as -> by (destruct b as [|[]| |[] ? ?]; simpl in *; tauto).
  destruct (F32.ltb b a) eqn:Hlt.
  - split; [now right|]. split; [|now apply leb_refl_positive].
    apply (ltb_leb_trans b a a); auto. now apply leb_refl_positive.
  - split; [now left|]. split; [now apply leb_refl_positive|].
    now apply ltb_false_leb.
Qed.

Lemma other_class_nonzero mask x y dx dy :
  other_class mask x y dx dy = true -> dx <> 0 \/ dy <> 0.
Proof.
  unfold other_class. intros H. apply andb_true_iff in H. destruct H as [_ H].
  destruct (Z.eq_dec dx 0) as [->|]; auto.
  destruct (Z.eq_dec dy 0) as [->|]; auto.
  rewrite !Z.add_0_r, eqb_reflx in H. discriminate.
Qed.

Lemma pixel_distance_positive dx dy :
  dx <> 0 \/ dy <> 0 -> is_positive (pixel_distance dx dy).
Proof.
  intros Hnz. apply positive_from_is_positive with emin32.
  apply sqrt_positive, of_Z_positive.
  pose proof (square_le_square dx (Z.abs dx) ltac:(lia)).
  pose proof (square_le_square dy (Z.abs dy) ltac:(lia)).
  destruct Hnz as [Hnz|Hnz]; apply square_nonzero in Hnz; lia.
Qed.

Section NearestOtherClass.
Variable oc : bool.
Variable mask : GrayImage.
Variables x y : Z.
Variable max_range : f32.
Hypothesis Hx : 0 <= x < width mask.
Hypothesis Hy : 0 <= y < height mask.
Hypothesis Hrange : F32.ltb F32.zero max_range = true.
Hypothesis Hfits : search_fits_i32 mask max_range.

Let R := search_radius_of max_range.
Let inside := is_inside_pixel (pixel_at mask x y).

Lemma scan_neighbor_value dy dx min_distance :
  - R <= dy <= R -> - R <= dx <= R ->
  returns (scan_neighbor oc mask x y inside dy dx min_distance)
    (fun md => md = if other_class mask x y dx dy
                    then F32.min min_distance (pixel_distance dx dy)
                    else min_distance)
    (fun _ => True).
Proof.
  intros Hdy Hdx. unfold scan_neighbor, other_class. fold inside.
  pose proof (search_radius_bounds max_range Hrange) as HR. fold R in HR.
  destruct Hfits as (Hw & Hh & Hsq). fold R in Hw, Hh, Hsq.
  unfold i32_max in *.
  rewrite !wrap_i32_small by (unfold i32_min, i32_max; lia).
  eapply returns_bind.
  { apply returns_checked. unfold i32_min, i32_max. lia. }
  intros nx ->.
  eapply returns_bind.
  { apply returns_checked. unfold i32_min, i32_max. lia. }
  intros ny ->.
  unfold in_bounds.
  destruct ((0 <=? x + dx) && (x + dx <? width mask)
            && (0 <=? y + dy) && (y + dy <? height mask)) eqn:Hguard;
    [|now apply returns_ret].
  pose proof Hguard as Hg.
  rewrite !andb_true_iff, !Z.leb_le, !Z.ltb_lt in Hg.
  rewrite !wrap_u32_small by (unfold u32_max; lia).
  eapply returns_bind.
  { apply returns_get_pixel; [|exact I]. apply in_bounds_true. lia. }
  intros neighbor_pixel ->. simpl.
  destruct (negb (eqb inside (is_inside_pixel (pixel_at mask (x + dx) (y + dy)))))
    eqn:Hdiff; [|now apply returns_ret].
  assert (Hdx2 : 0 <= dx * dx <= Z.min R (width mask - 1) * Z.min R (width mask - 1))
    by (apply square_le_square; lia).
  assert (Hdy2 : 0 <= dy * dy <= Z.min R (height mask - 1) * Z.min R (height mask - 1))
    by (apply square_le_square; lia).
  eapply returns_bind.
  { apply returns_checked. unfold i32_min, i32_max. lia. }
  intros dx2 ->.
  eapply returns_bind.
  { apply returns_checked. unfold i32_min, i32_max. lia. }
  intros dy2 ->.
  eapply returns_bind.
  { apply returns_checked. unfold i32_min, i32_max. lia. }
  intros d2 ->.
  now apply returns_ret.
Qed.

(** Adding one offset to those already seen. *)
Lemma nearest_among_step (seen seen' : Z -> Z -> Prop) dx dy min_distance :
  (forall a b, seen' a b <-> seen a b \/ (a = dx /\ b = dy)) ->
  nearest_among mask x y max_range seen min_distance ->
  nearest_among mask x y max_range seen'
    (if other_class mask x y dx dy
     then F32.min min_distance (pixel_distance dx dy) else min_distance).
Proof.
  intros Hseen ([Hpos Hle] & Hatt & Hlow).
  destruct (other_class mask x y dx dy) eqn:Hopp.
  - pose proof (pixel_distance_positive dx dy (other_class_nonzero _ _ _ _ _ Hopp)) as Hd.
    destruct (min_positive_cases min_distance (pixel_distance dx dy) Hpos Hd)
      as (Hcases & Hle1 & Hle2).
    destruct (min_invariant min_distance (pixel_distance dx dy) max_range Hpos Hle Hd)
      as [Hpos' Hle'].
    split; [split; assumption|]. split.
    + destruct Hcases as [->| ->].
      * destruct Hatt as [->|(a & b & Hab & Ho & ->)]; [now left|].
        right. exists a, b. split; [apply Hseen; now left|]. auto.
      * right. exists dx, dy. split; [apply Hseen; now right|]. auto.
    + intros a b Hab Ho. apply Hseen in Hab. destruct Hab as [Hab|[-> ->]]; [|exact Hle2].
      apply leb_trans_positive with min_distance; auto.
      apply pixel_distance_positive. eapply other_class_nonzero; eauto.
  - split; [split; assumption|]. split.
    + destruct Hatt as [->|(a & b & Hab & Ho & ->)]; [now left|].
      right. exists a, b. split; [apply Hseen; now left|]. auto.
    + intros a b Hab Ho. apply Hseen in Hab. destruct Hab as [Hab|[-> ->]]; [auto|].
      congruence.
Qed.

Lemma nearest_among_ext (seen seen' : Z -> Z -> Prop) min_distance :
  (forall a b, seen' a b <-> seen a b) ->
  nearest_among mask x y max_range seen min_distance ->
  nearest_among mask x y max_range seen' min_distance.
Proof.
  intros Hseen (Hin & Hatt & Hlow). split; [exact Hin|]. split.
  - destruct Hatt as [->|(a & b & Hab & Ho & ->)]; [now left|].
    right. exists a, b. split; [now apply Hseen|]. auto.
  - intros a b Hab. apply Hlow. now apply Hseen.
Qed.

Lemma search_returns_nearest :
  returns (calculate_distance_to_edge oc mask x y max_range)
    (fun d => exists min_distance,
       nearest_among mask x y max_range
         (fun dx dy => - R <= dx <= R /\ - R <= dy <= R) min_distance /\
       d = if inside then F32.neg min_distance else min_distance)
    (fun _ => True).
Proof.
  unfold calculate_distance_to_edge.
  pose proof (search_radius_bounds max_range Hrange) as HR. fold R in HR.
  eapply returns_bind.
  { apply returns_get_pixel; [|exact I]. apply in_bounds_true. lia. }
  intros current_pixel ->.
  eapply returns_bind.
  { apply returns_checked. fold R. unfold i32_min, i32_max in *. lia. }
  intros lo ->. fold R. fold inside.
  eapply returns_bind.
  { change (for_range_incl (- R) R ?body ?s) with (for_range (- R) (R + 1) body s).
    apply returns_for_range_indexed with
      (I := fun row md => nearest_among mask x y max_range
              (fun dx dy => - R <= dx <= R /\ - R <= dy < row) md); [lia| |].
    - intros dy md Hdy Hmd.
      change (for_range_incl (- R) R ?body ?s) with (for_range (- R) (R + 1) body s).
      eapply returns_weaken.
      { apply returns_for_range_indexed with
          (I := fun col md => nearest_among mask x y max_range
                  (fun a b => - R <= a <= R /\ - R <= b <= R /\
                              (b < dy \/ (b = dy /\ a < col))) md); [lia| |].
        - intros dx md' Hdx Hmd'.
          eapply returns_weaken; [apply scan_neighbor_value; lia|].
          simpl. intros md'' ->.
          eapply nearest_among_step; [|exact Hmd'].
          intros a b. simpl. lia.
        - eapply nearest_among_ext; [|exact Hmd]. intros a b. simpl. lia. }
      simpl. intros md' Hmd'. eapply nearest_among_ext; [|exact Hmd'].
      intros a b. simpl. lia.
    - split; [|split].
      + split; [now apply zero_ltb_is_positive|].
        apply leb_refl_positive. now apply zero_ltb_is_positive.
      + now left.
      + intros dx dy Hseen. lia. }
  intros md Hmd. apply returns_ret. exists md. split; [|reflexivity].
  eapply nearest_among_ext; [|exact Hmd]. intros a b. simpl. lia.
Qed.
End NearestOtherClass.

(** Filling an image pixel by pixel, row after row. *)
Lemma fill_image_returns {P V} (w h : Z) (compute : Z -> Z -> M V)
    (g : Z -> Z -> V -> P) (f : Z -> Z -> P) (R : Z * Z -> Prop)
    (img0 : ImageBuffer P) :
  width img0 = w -> height img0 = h -> 0 <= w -> 0 <= h ->
  (forall x y, 0 <= x < w -> 0 <= y < h ->
     returns (compute x y) (fun v => g x y v = f x y) R) ->
  returns
    (for_range 0 h (fun y img =>
       for_range 0 w (fun x img =>
         let! v := compute x y in put_pixel img x y (g x y v))
       img)
     img0)
    (fun img => width img = w /\ height img = h /\
       forall x y, 0 <= x < w -> 0 <= y < h -> pixel_at img x y = f x y)
    R.
Proof.
  intros Hw0 Hh0 Hw Hh Hcompute.
  set (rows := fun (y : Z) (img : ImageBuffer P) =>
    width img = w /\ height img = h /\
    forall x' y', 0 <= x' < w -> 0 <= y' < y -> pixel_at img x' y' = f x' y').
  eapply returns_weaken.
  { apply returns_for_range_indexed with (I := rows); [lia| |].
    - intros y img Hy (Hdw & Hdh & Hrows).
      set (cols := fun (x : Z) (img : ImageBuffer P) =>
        width img = w /\ height img = h /\
        (forall x' y', 0 <= x' < w -> 0 <= y' < y -> pixel_at img x' y' = f x' y') /\
        (forall x', 0 <= x' < x -> pixel_at img x' y = f x' y)).
      eapply returns_weaken.
      { apply returns_for_range_indexed with (I := cols); [lia| |].
        - intros x m Hx (Hmw & Hmh & Hdone & Hrow).
          eapply returns_bind; [apply Hcompute; lia|].
          intros v Hv.
          eapply returns_weaken.
          { apply returns_put_pixel. apply in_bounds_true. lia. }
          simpl. intros m' (Hw' & Hh' & Hpx).
          unfold cols. repeat split; try lia.
          + intros x' y' Hx' Hy'. rewrite Hpx.
            assert ((y' =? y) = false) as -> by (apply Z.eqb_neq; lia).
            rewrite andb_false_r. now apply Hdone.
          + intros x' Hx'. rewrite Hpx. rewrite Z.eqb_refl, andb_true_r.
            destruct (Z.eqb_spec x' x) as [->|Hne]; [exact Hv|].
            apply Hrow. lia.
        - unfold cols. repeat split; auto. intros; lia. }
      simpl. intros m (Hmw & Hmh & Hdone & Hrow).
      unfold rows. repeat split; auto.
      intros x' y' Hx' Hy'.
      destruct (Z.eq_dec y' y) as [->|Hne]; [now apply Hrow|].
      apply Hdone; lia.
    - unfold rows. repeat split; auto. intros; lia. }
  simpl. intros m (Hmw & Hmh & Hdone). auto.
Qed.

(** X1. [calculate_distance_to_edge] returns, in absolute value, the range
    itself or the distance [sqrt(dx*dx + dy*dy)] to a pixel of the other
    class inside the search window, and no pixel of the other class inside
    the window is nearer than the value returned. *)
Theorem distance_is_nearest_other_class oc (mask : GrayImage) (x y : Z)
    (max_range : f32) :
  0 <= x < width mask ->
  0 <= y < height mask ->
  F32.ltb F32.zero max_range = true ->
  search_fits_i32 mask max_range ->
  let r := search_radius_of max_range in
  exists distance,
    result_of (calculate_distance_to_edge oc mask x y max_range) = Ok distance /\
    (F32.abs distance = max_range \/
     exists dx dy, - r <= dx <= r /\ - r <= dy <= r /\
       other_class mask x y dx dy = true /\
       F32.abs distance = pixel_distance dx dy) /\
    (forall dx dy, - r <= dx <= r -> - r <= dy <= r ->
       other_class mask x y dx dy = true ->
       F32.leb (F32.abs distance) (pixel_distance dx dy) = true).
Proof.
  intros Hx Hy Hr Hfits r.
  destruct (returns_result _ _ _
              (search_returns_nearest oc mask x y max_range Hx Hy Hr Hfits))
    as (d & Hres & (md & ([Hpos Hle] & Hatt & Hlow) & Hd) & _).
  exists d. split; [exact Hres|].
  assert (Habs : F32.abs d = md).
  { subst d. destruct (is_inside_pixel (pixel_at mask x y));
      destruct md as [|[]| |[] m e]; simpl in Hpos; try contradiction; reflexivity. }
  rewrite Habs. split.
  - destruct Hatt as [->|(dx & dy & [Hdx Hdy] & Ho & ->)]; [now left|].
    right. exists dx, dy. auto.
  - intros dx dy Hdx Hdy Ho. apply Hlow; auto.
Qed.

Lemma distance_is_nearest_other_class_witness :
  exists distance,
    result_of (calculate_distance_to_edge true column_mask 2 0 range4) = Ok distance /\
    (F32.abs distance = range4 \/
     exists dx dy, - search_radius_of range4 <= dx <= search_radius_of range4 /\
       - search_radius_of range4 <= dy <= search_radius_of range4 /\
       other_class column_mask 2 0 dx dy = true /\
       F32.abs distance = pixel_distance dx dy) /\
    (forall dx dy, - search_radius_of range4 <= dx <= search_radius_of range4 ->
       - search_radius_of range4 <= dy <= search_radius_of range4 ->
       other_class column_mask 2 0 dx dy = true ->
       F32.leb (F32.abs distance) (pixel_distance dx dy) = true).
Proof.
  apply (distance_is_nearest_other_class true column_mask 2 0 range4).
  - simpl. lia.
  - simpl. lia.
  - reflexivity.
  - vm_compute. repeat split; discriminate.
Defined.

Lemma uniform_mask_distance oc (mask : GrayImage) (x y : Z) (max_range : f32) :
  0 <= x < width mask ->
  0 <= y < height mask ->
  F32.ltb F32.zero max_range = true ->
  search_fits_i32 mask max_range ->
  (forall x' y', 0 <= x' < width mask -> 0 <= y' < height mask ->
     is_inside_pixel (pixel_at mask x' y') = is_inside_pixel (pixel_at mask x y)) ->
  result_of (calculate_distance_to_edge oc mask x y max_range) =
    Ok (if is_inside_pixel (pixel_at mask x y) then F32.neg max_range else max_range).
Proof.
  intros Hx Hy Hr Hfits Hsame.
  destruct (returns_result _ _ _
              (search_returns_nearest oc mask x y max_range Hx Hy Hr Hfits))
    as (d & Hres & (md & (_ & Hatt & _) & Hd) & _).
  rewrite Hres. f_equal. subst d.
  destruct Hatt as [->|(dx & dy & _ & Ho & _)]; [reflexivity|].
  exfalso. unfold other_class in Ho. apply andb_true_iff in Ho. destruct Ho as [Hb Ho].
  apply in_bounds_true in Hb. rewrite (Hsame _ _ (proj1 Hb) (proj2 Hb)) in Ho.
  rewrite eqb_reflx in Ho. discriminate.
Qed.

(** X2. For an in-bounds pixel, a positive range and a search window whose
    [i32] arithmetic does not overflow: on a mask whose pixels are all of
    one class the search finds nothing, and the distance of the pixel is the
    range itself, negated inside. *)
Theorem uniform_mask_saturates oc (mask : GrayImage) (x y : Z) (max_range : f32) :
  0 <= x < width mask ->
  0 <= y < height mask ->
  F32.ltb F32.zero max_range = true ->
  search_fits_i32 mask max_range ->
  (forall x' y', 0 <= x' < width mask -> 0 <= y' < height mask ->
     is_inside_pixel (pixel_at mask x' y') = is_inside_pixel (pixel_at mask x y)) ->
  result_of (calculate_distance_to_edge oc mask x y max_range) =
    Ok (if is_inside_pixel (pixel_at mask x y) then F32.neg max_range else max_range).
Proof. apply uniform_mask_distance. Qed.

Lemma uniform_mask_saturates_witness :
  result_of (calculate_distance_to_edge true filled_mask 1 2 range4) =
    Ok (if is_inside_pixel (pixel_at filled_mask 1 2) then F32.neg range4 else range4).
Proof.
  apply (uniform_mask_saturates true filled_mask 1 2 range4).
  - simpl. lia.
  - simpl. lia.
  - reflexivity.
  - vm_compute. repeat split; discriminate.
  - intros x' y' _ _. reflexivity.
Defined.

Lemma generate_sdf_from_mask_encodes oc (mask : GrayImage) (range : f32) :
  0 <= width mask ->
  0 <= height mask ->
  F32.ltb F32.zero range = true ->
  search_fits_i32 mask range ->
  returns (generate_sdf_from_mask oc mask range)
    (fun sdf => width sdf = width mask /\ height sdf = height mask /\
       forall x y, 0 <= x < width mask -> 0 <= y < height mask ->
         pixel_at sdf x y = encoded_distance oc mask range x y)
    (fun _ => True).
Proof.
  intros Hw Hh Hr Hfits. unfold generate_sdf_from_mask.
  apply (fill_image_returns (width mask) (height mask)
           (fun x y => calculate_distance_to_edge oc mask x y range)
           (fun _ _ d => normalize d range)
           (encoded_distance oc mask range)); auto.
  intros x y Hx Hy.
  destruct (search_returns_nearest oc mask x y range Hx Hy Hr Hfits)
    as (d & log & Hcalc & _ & _).
  exists d, log. split; [exact Hcalc|]. split; [|apply Forall_forall; auto].
  unfold encoded_distance. now rewrite Hcalc.
Qed.

(** X3. For a positive range and a search window whose [i32] arithmetic
    does not overflow, [generate_sdf_from_mask] returns an image of the
    mask's dimensions whose pixel at [(x, y)] is the byte encoding of the
    distance that [calculate_distance_to_edge] returns for [(x, y)]. *)
Theorem sdf_pixels_are_encoded_distances oc (mask : GrayImage) (range : f32) :
  0 <= width mask ->
  0 <= height mask ->
  F32.ltb F32.zero range = true ->
  search_fits_i32 mask range ->
  exists sdf,
    result_of (generate_sdf_from_mask oc mask range) = Ok sdf /\
    width sdf = width mask /\ height sdf = height mask /\
    forall x y, 0 <= x < width mask -> 0 <= y < height mask ->
      exists distance,
        result_of (calculate_distance_to_edge oc mask x y range) = Ok distance /\
        pixel_at sdf x y = normalize distance range.
Proof.
  intros Hw Hh Hr Hfits.
  destruct (returns_result _ _ _
              (generate_sdf_from_mask_encodes oc mask range Hw Hh Hr Hfits))
    as (sdf & Hres & (Hsw & Hsh & Hpx) & _).
  exists sdf. split; [exact Hres|]. split; [exact Hsw|]. split; [exact Hsh|].
  intros x y Hx Hy.
  destruct (search_returns_nearest oc mask x y range Hx Hy Hr Hfits)
    as (d & log & Hcalc & _ & _).
  exists d. rewrite Hcalc. split; [reflexivity|].
  rewrite (Hpx x y Hx Hy). unfold encoded_distance. now rewrite Hcalc.
Qed.

Lemma sdf_pixels_are_encoded_distances_witness :
  exists sdf,
    result_of (generate_sdf_from_mask true column_mask range4) = Ok sdf /\
    width sdf = width column_mask /\ height sdf = height column_mask /\
    forall x y, 0 <= x < width column_mask -> 0 <= y < height column_mask ->
      exists distance,
        result_of (calculate_distance_to_edge true column_mask x y range4) = Ok distance /\
        pixel_at sdf x y = normalize distance range4.
Proof.
  apply (sdf_pixels_are_encoded_distances true column_mask range4).
  - simpl. lia.
  - simpl. lia.
  - reflexivity.
  - vm_compute. repeat split; discriminate.
Defined.

(** Dividing a finite number by itself, up to the sign, gives one. *)
Lemma div_by_self (s : bool) (m : positive) (e : Z) :
  F32.div (S754_finite s m e) (S754_finite false m e) =
  S754_finite s 8388608 (-23).
Proof.
  unfold F32.div, SFdiv, SFdiv_core_binary.
  replace (Zdigits2 (Z.pos m) + e - (Zdigits2 (Z.pos m) + e)) with 0 by lia.
  rewrite Z.sub_diag.
  change (Z.min (fexp F32.prec F32.emax 0) 0) with (-24).
  change (0 - -24) with 24.
  cbv iota beta.
  rewrite Z.shiftl_mul_pow2 by lia.
  assert (Hdiv : Z.div_eucl (Z.pos m * 2 ^ 24) (Z.pos m) = (2 ^ 24, 0)).
  { rewrite (surjective_pairing (Z.div_eucl _ _)).
    change (fst (Z.div_eucl ?a ?b)) with (a / b).
    change (snd (Z.div_eucl ?a ?b)) with (a mod b).
    rewrite (Z.mul_comm (Z.pos m)), Z.div_mul, Z.mod_mul by lia. reflexivity. }
  rewrite Hdiv.
  rewrite xorb_false_r.
  unfold new_location. destruct (Z.even (Z.pos m)); destruct s; reflexivity.
Qed.

Lemma normalize_at_range (m : positive) (e : Z) :
  normalize (F32.neg (S754_finite false m e)) (S754_finite false m e) = 0 /\
  normalize (S754_finite false m e) (S754_finite false m e) = 255.
Proof.
  unfold normalize. simpl F32.neg. rewrite !div_by_self. split; reflexivity.
Qed.

(** X4. The byte encoding maps the distance [-range] to 0 and the distance
    [range] to 255, for every finite positive range. *)
Theorem normalize_extremes (m : positive) (e : Z) :
  normalize (F32.neg (S754_finite false m e)) (S754_finite false m e) = 0 /\
  normalize (S754_finite false m e) (S754_finite false m e) = 255.
Proof. apply normalize_at_range. Qed.

(** X5. For a finite positive range and a search window whose [i32]
    arithmetic does not overflow, the field of a mask of one class is
    uniform: every pixel is 0 when the mask is all inside and 255 when it is
    all outside. *)
Theorem uniform_mask_encodes_uniformly oc (mask : GrayImage) (m : positive) (e : Z)
    (inside : bool) :
  0 <= width mask ->
  0 <= height mask ->
  search_fits_i32 mask (S754_finite false m e) ->
  (forall x y, 0 <= x < width mask -> 0 <= y < height mask ->
     is_inside_pixel (pixel_at mask x y) = inside) ->
  exists sdf,
    result_of (generate_sdf_from_mask oc mask (S754_finite false m e)) = Ok sdf /\
    forall x y, 0 <= x < width mask -> 0 <= y < height mask ->
      pixel_at sdf x y = if inside then 0 else 255.
Proof.
  intros Hw Hh Hfits Hsame.
  set (range := S754_finite false m e) in *.
  assert (Hr : F32.ltb F32.zero range = true) by reflexivity.
  destruct (returns_result _ _ _
              (generate_sdf_from_mask_encodes oc mask range Hw Hh Hr Hfits))
    as (sdf & Hres & (Hsw & Hsh & Hpx) & _).
  exists sdf. split; [exact Hres|].
  intros x y Hx Hy. rewrite (Hpx x y Hx Hy). unfold encoded_distance.
  rewrite (uniform_mask_distance oc mask x y range Hx Hy Hr Hfits)
    by (intros x' y' Hx' Hy'; rewrite !Hsame by assumption; reflexivity).
  rewrite (Hsame x y Hx Hy).
  destruct (normalize_at_range m e) as [Hlo Hhi].
  destruct inside; assumption.
Qed.

Lemma uniform_mask_encodes_uniformly_witness :
  exists sdf,
    result_of (generate_sdf_from_mask true filled_mask (S754_finite false 8388608 (-21)))
      = Ok sdf /\
    forall x y, 0 <= x < width filled_mask -> 0 <= y < height filled_mask ->
      pixel_at sdf x y = if true then 0 else 255.
Proof.
  apply (uniform_mask_encodes_uniformly true filled_mask 8388608 (-21) true).
  - simpl. lia.
  - simpl. lia.
  - vm_compute. repeat split; discriminate.
  - intros x y _ _. reflexivity.
Defined.

(** ** More on the packer *)

(** X6. The grid side [(image_count as f32).sqrt().ceil() as u32] is the
    integer ceiling of the square root for every count below [2^24], so the
    grid has a cell for every tile. *)
Theorem grid_size_is_ceil_sqrt (n : Z) :
  0 <= n <= max_exact_count ->
  grid_size_of n = Z.sqrt_up n /\ n <= grid_size_of n * grid_size_of n.
Proof.
  intros Hn. rewrite (grid_size_of_exact n Hn). split; [reflexivity|].
  destruct (Z.eq_dec n 0) as [->|Hn0]; [reflexivity|].
  apply (ceil_sqrt_spec n ltac:(lia)).
Qed.

Lemma grid_size_is_ceil_sqrt_witness :
  grid_size_of 10 = Z.sqrt_up 10 /\ 10 <= grid_size_of 10 * grid_size_of 10.
Proof.
  apply (grid_size_is_ceil_sqrt 10). vm_compute. split; discriminate.
Defined.

(** X7. With overflow checks, a cell smaller than twice the padding makes
    [cell_size - padding * 2] overflow: [pack_atlas] panics instead of
    returning. *)
Theorem pack_atlas_underflow_panics filter (images : list (string * DynamicImage))
    atlas_size padding :
  let n := Z.of_nat (length images) in
  0 < n <= max_exact_count ->
  0 <= atlas_size ->
  0 <= padding ->
  atlas_size / ceil_sqrt n < 2 * padding ->
  result_of (pack_atlas true filter images atlas_size padding)
    = Panic ArithmeticOverflow.
Proof.
  intros n Hn Ha Hp Hc. unfold pack_atlas. fold n.
  rewrite grid_size_of_exact by lia.
  pose proof (ceil_sqrt_spec n ltac:(lia)) as (Hg & _).
  unfold u32_div. destruct (Z.eqb_spec (ceil_sqrt n) 0) as [Hz|_]; [lia|].
  unfold u32_mul, u32_sub, checked. simpl.
  destruct ((0 <=? padding * 2) && (padding * 2 <=? u32_max)); simpl; [|reflexivity].
  assert (((0 <=? atlas_size / ceil_sqrt n - padding * 2)
           && (atlas_size / ceil_sqrt n - padding * 2 <=? u32_max)) = false) as ->.
  { apply andb_false_iff. left. apply Z.leb_gt. lia. }
  reflexivity.
Qed.

Lemma pack_atlas_underflow_panics_witness :
  result_of (pack_atlas true nearest tiles_ABC 8 3) = Panic ArithmeticOverflow.
Proof.
  apply (pack_atlas_underflow_panics nearest tiles_ABC 8 3).
  - vm_compute. split; [reflexivity|discriminate].
  - lia.
  - lia.
  - reflexivity.
Defined.

(** X8. Whenever [pack_atlas] returns, the placement map has exactly the
    ids of the tiles as keys; tiles that share an id share one placement. *)
Theorem pack_atlas_keys_are_tile_ids oc filter (images : list (string * DynamicImage))
    atlas_size padding atlas (positions : gmap string AtlasPosition) :
  result_of (pack_atlas oc filter images atlas_size padding) = Ok (atlas, positions) ->
  (forall id : string, is_Some (positions !! id) <-> id ∈ map fst images) /\
  (size positions <= length images)%nat.
Proof.
  intros Hres. pose proof (pack_atlas_Ok_ids _ _ _ _ _ _ _ Hres) as Hids.
  split; [exact Hids|].
  rewrite <- (length_map fst images), <- size_dom.
  assert (Hsub : dom positions ⊆ list_to_set (C := gset string) (map fst images)).
  { intros id Hid. apply elem_of_dom in Hid. apply elem_of_list_to_set. now apply Hids. }
  etransitivity; [apply (subseteq_size _ _ Hsub)|].
  generalize (map fst images). intros l. induction l as [|a l IH].
  - rewrite list_to_set_nil, size_empty. simpl. lia.
  - rewrite list_to_set_cons, size_union_alt, size_singleton.
    assert (Hdiff : list_to_set (C := gset string) l ∖ {[a]} ⊆ list_to_set l)
      by (intros x Hx; apply elem_of_difference in Hx; tauto).
    apply subseteq_size in Hdiff. simpl. lia.
Qed.

Lemma pack_atlas_keys_are_tile_ids_witness :
  exists atlas positions,
    result_of (pack_atlas true nearest tiles_ABC 8 2) = Ok (atlas, positions) /\
    (forall id : string, is_Some (positions !! id) <-> id ∈ map fst tiles_ABC) /\
    (size positions <= length tiles_ABC)%nat.
Proof.
  eexists _, _. split; [vm_compute; reflexivity|].
  eapply (pack_atlas_keys_are_tile_ids true nearest tiles_ABC 8 2).
  vm_compute. reflexivity.
Defined.

Lemma returns_for_each_prefix {A S} (J : list A -> S -> Prop) (l : list A)
    (body : A -> S -> M S) R (s0 : S) :
  J [] s0 ->
  (forall pre a post s, l = pre ++ a :: post -> J pre s ->
     returns (body a s) (J (pre ++ [a])) R) ->
  returns (for_each l body s0) (J l) R.
Proof.
  intros H0 Hstep.
  assert (Hgen : forall post pre s, l = pre ++ post -> J pre s ->
            returns (for_each post body s) (J l) R).
  { induction post as [|a post IH]; intros pre s Hl Hpre; simpl.
    - apply returns_ret. rewrite Hl, app_nil_r. exact Hpre.
    - eapply returns_bind; [eapply Hstep; eauto|].
      intros s' Hs'. apply (IH (pre ++ [a])); [|exact Hs'].
      rewrite Hl, <- app_assoc. reflexivity. }
  apply (Hgen l [] s0); auto.
Qed.

Lemma copy_to_atlas_pixels oc (rgba_image : RgbaImage) x y content_size atlas_size
    (atlas : RgbaImage) :
  width rgba_image = content_size -> height rgba_image = content_size ->
  width atlas = atlas_size -> height atlas = atlas_size ->
  0 <= x -> 0 <= y -> 0 <= content_size ->
  x + content_size <= atlas_size -> y + content_size <= atlas_size ->
  atlas_size <= u32_max ->
  returns (copy_to_atlas oc rgba_image x y content_size atlas_size atlas)
    (fun atlas' =>
       width atlas' = atlas_size /\ height atlas' = atlas_size /\
       (forall px py, 0 <= px < content_size -> 0 <= py < content_size ->
          pixel_at atlas' (x + px) (y + py) = pixel_at rgba_image px py) /\
       (forall X Y, ~ (x <= X < x + content_size /\ y <= Y < y + content_size) ->
          pixel_at atlas' X Y = pixel_at atlas X Y))
    (fun _ => True).
Proof.
  intros Hrw Hrh Haw Hah Hx Hy Hs Hxs Hys Hmax. unfold copy_to_atlas.
  set (rows := fun (row : Z) (a : RgbaImage) =>
    width a = atlas_size /\ height a = atlas_size /\
    (forall px py, 0 <= px < content_size -> 0 <= py < row ->
       pixel_at a (x + px) (y + py) = pixel_at rgba_image px py) /\
    (forall X Y, ~ (x <= X < x + content_size /\ y <= Y < y + row) ->
       pixel_at a X Y = pixel_at atlas X Y)).
  eapply returns_weaken.
  { apply returns_for_range_indexed with (I := rows); [lia| |].
    - intros py a Hpy (Hw & Hh & Hdone & Hframe).
      set (cols := fun (col : Z) (a' : RgbaImage) =>
        width a' = atlas_size /\ height a' = atlas_size /\
        (forall px' py', 0 <= px' < content_size -> 0 <= py' < py ->
           pixel_at a' (x + px') (y + py') = pixel_at rgba_image px' py') /\
        (forall px', 0 <= px' < col ->
           pixel_at a' (x + px') (y + py) = pixel_at rgba_image px' py) /\
        (forall X Y, ~ (x <= X < x + content_size /\ y <= Y < y + py) ->
           ~ (x <= X < x + col /\ Y = y + py) ->
           pixel_at a' X Y = pixel_at atlas X Y)).
      eapply returns_weaken.
      { apply returns_for_range_indexed with (I := cols); [lia| |].
        - intros px a' Hpx (Hw' & Hh' & Hdone' & Hrow & Hframe').
          eapply returns_bind; [apply returns_checked; lia|]. intros xp ->.
          destruct (Z.ltb_spec (x + px) atlas_size); [|lia].
          eapply returns_bind; [apply returns_checked; lia|]. intros yp ->.
          destruct (Z.ltb_spec (y + py) atlas_size); [|lia].
          eapply returns_bind.
          { apply returns_get_pixel; [|exact I]. apply in_bounds_true. lia. }
          intros source_pixel ->.
          eapply returns_weaken.
          { apply returns_put_pixel. apply in_bounds_true. lia. }
          simpl. intros a'' (Hw'' & Hh'' & Hput).
          unfold cols. split; [lia|]. split; [lia|]. split; [|split].
          + intros px' py' Hpx' Hpy'. rewrite Hput.
            assert ((y + py' =? y + py) = false) as -> by (apply Z.eqb_neq; lia).
            rewrite andb_false_r. now apply Hdone'.
          + intros px' Hpx'. rewrite Hput, Z.eqb_refl, andb_true_r.
            destruct (Z.eqb_spec (x + px') (x + px)) as [Heq|Hne].
            * f_equal. lia.
            * apply Hrow. lia.
          + intros X Y Hout1 Hout2. rewrite Hput.
            destruct (Z.eqb_spec X (x + px)) as [->|HX];
              destruct (Z.eqb_spec Y (y + py)) as [->|HY]; simpl;
              try (apply Hframe'; auto; lia).
            exfalso. apply Hout2. lia.
        - unfold cols. split; [exact Hw|]. split; [exact Hh|]. split; [exact Hdone|].
          split; [intros; lia|]. intros X Y Hout _. now apply Hframe. }
      simpl. intros a' (Hw' & Hh' & Hdone' & Hrow & Hframe').
      unfold rows. split; [exact Hw'|]. split; [exact Hh'|]. split.
      + intros px' py' Hpx' Hpy'.
        destruct (Z.eq_dec py' py) as [->|Hne]; [now apply Hrow|].
        apply Hdone'; lia.
      + intros X Y Hout. apply Hframe'; lia.
    - unfold rows. split; [exact Haw|]. split; [exact Hah|]. split; [intros; lia|].
      reflexivity. }
  simpl. intros a (Hw & Hh & Hdone & Hframe). auto.
Qed.

Lemma lookup_enumerate {A} (l : list A) (i : nat) (a : A) :
  l !! i = Some a -> (Z.of_nat i, a) ∈ enumerate l.
Proof.
  unfold enumerate. intros Hi.
  apply list_elem_of_lookup. exists i.
  apply lookup_zip_with_Some. exists (Z.of_nat i), a.
  split; [reflexivity|]. split; [|exact Hi].
  apply lookup_seqZ. split; [lia|]. apply lookup_lt_Some in Hi. lia.
Qed.

Lemma enumerate_indices_NoDup {A} (l : list A) : NoDup (map fst (enumerate l)).
Proof.
  unfold enumerate.
  change (map fst (zip (seqZ 0 (Z.of_nat (length l))) l))
    with ((zip (seqZ 0 (Z.of_nat (length l))) l).*1).
  rewrite fst_zip by (rewrite length_seqZ; lia). apply NoDup_seqZ.
Qed.

Lemma spec_placement_disjoint (n atlas_size padding i1 i2 : Z) :
  0 < n -> 0 <= atlas_size -> 0 <= padding ->
  0 <= i1 < n -> 0 <= i2 < n -> i1 <> i2 ->
  disjoint_rectangles (spec_placement n atlas_size padding i1)
                      (spec_placement n atlas_size padding i2).
Proof.
  intros Hn Ha Hp Hi1 Hi2 Hne.
  pose proof (ceil_sqrt_spec n ltac:(lia)) as (Hg & _).
  set (g := ceil_sqrt n) in *. set (c := atlas_size / g).
  assert (Hc0 : 0 <= c) by (apply Z.div_pos; lia).
  pose proof (Z.div_mod i1 g ltac:(lia)) as Hdm1.
  pose proof (Z.div_mod i2 g ltac:(lia)) as Hdm2.
  unfold disjoint_rectangles, spec_placement. simpl. fold g c.
  set (x1 := i1 mod g) in *. set (y1 := i1 / g) in *.
  set (x2 := i2 mod g) in *. set (y2 := i2 / g) in *.
  clearbody x1 y1 x2 y2 c g.
  destruct (Z.lt_total x1 x2) as [Hx|[Hx|Hx]].
  - left. nia.
  - destruct (Z.lt_total y1 y2) as [Hy|[Hy|Hy]].
    + right. right. left. nia.
    + exfalso. apply Hne. subst. lia.
    + right. right. right. nia.
  - right. left. nia.
Qed.

Section AtlasPixels.
Variable oc : bool.
Variable filter : FilterType.
Variable images : list (string * DynamicImage).
Variables atlas_size padding : Z.
Let n := Z.of_nat (length images).
Let s := atlas_size / ceil_sqrt n - 2 * padding.
Let P := spec_placement n atlas_size padding.
Hypothesis Hcount : 0 < n <= max_exact_count.
Hypothesis Hatlas : 0 <= atlas_size <= u32_max.
Hypothesis Hpadding : 0 <= padding.
Hypothesis Hcontent : 2 * padding <= atlas_size / ceil_sqrt n.

Lemma place_tile_pixels pre i id image post atlas positions :
  enumerate images = pre ++ (i, (id, image)) :: post ->
  atlas_holds filter n atlas_size padding pre atlas ->
  returns
    (place_tile oc filter atlas_size padding (ceil_sqrt n)
       (atlas_size / ceil_sqrt n) s (i, (id, image)) (atlas, positions))
    (fun state' =>
       atlas_holds filter n atlas_size padding (pre ++ [(i, (id, image))]) (fst state'))
    (fun _ => True).
Proof.
  intros Hsplit (Hw & Hh & Htiles & Hback). unfold place_tile.
  assert (Hin : In (i, (id, image)) (enumerate images))
    by (rewrite Hsplit; apply in_or_app; right; now left).
  pose proof (In_enumerate _ _ _ Hin) as Hi. fold n in Hi.
  pose proof (cell_in_atlas n atlas_size i ltac:(lia) ltac:(lia) Hi) as Hcell.
  cbv zeta in Hcell. destruct Hcell as (Hmod & Hdiv & Hc & Hxc & Hyc).
  assert (Hn24 : n <= u32_max) by (unfold max_exact_count, u32_max in *; lia).
  rewrite wrap_u32_small by lia.
  pose proof (ceil_sqrt_spec n ltac:(lia)) as (Hg & _).
  assert (Hgx : 0 <= i mod ceil_sqrt n * (atlas_size / ceil_sqrt n))
    by (apply Z.mul_nonneg_nonneg; lia).
  assert (Hgy : 0 <= i / ceil_sqrt n * (atlas_size / ceil_sqrt n))
    by (apply Z.mul_nonneg_nonneg; lia).
  eapply returns_bind; [apply returns_u32_rem; lia|]. intros grid_x ->.
  eapply returns_bind; [apply returns_u32_div; lia|]. intros grid_y ->.
  eapply returns_bind; [apply returns_checked; unfold u32_max in *; lia|]. intros gxc ->.
  eapply returns_bind; [apply returns_checked; unfold u32_max in *; lia|]. intros x ->.
  eapply returns_bind; [apply returns_checked; unfold u32_max in *; lia|]. intros gyc ->.
  eapply returns_bind; [apply returns_checked; unfold u32_max in *; lia|]. intros y ->.
  destruct (resized_dimensions image s s filter) as [Hrw Hrh].
  eapply returns_bind.
  { apply copy_to_atlas_pixels; auto; unfold s in *; lia. }
  intros atlas' (Hw' & Hh' & Hcopy & Hframe). apply returns_ret. simpl.
  assert (Hrect : forall X Y, in_rectangle (P i) X Y <->
            (i mod ceil_sqrt n * (atlas_size / ceil_sqrt n) + padding <= X
               < i mod ceil_sqrt n * (atlas_size / ceil_sqrt n) + padding + s /\
             i / ceil_sqrt n * (atlas_size / ceil_sqrt n) + padding <= Y
               < i / ceil_sqrt n * (atlas_size / ceil_sqrt n) + padding + s))
    by (intros X Y; unfold in_rectangle, P, spec_placement; simpl; fold s; tauto).
  assert (Hother : forall j id' image', (j, (id', image')) ∈ pre ->
            forall X Y, in_rectangle (P j) X Y -> ~ in_rectangle (P i) X Y).
  { intros j id' image' Hj X Y Hj_in Hi_in.
    assert (Hjn : 0 <= j < n).
    { apply (In_enumerate images j (id', image')). rewrite Hsplit.
      apply in_or_app. left. now apply list_elem_of_In. }
    assert (Hji : j <> i).
    { pose proof (enumerate_indices_NoDup images) as Hnd.
      rewrite Hsplit, map_app in Hnd. apply NoDup_app in Hnd.
      destruct Hnd as (_ & Hnd & _). intros ->.
      apply (Hnd i).
      - apply list_elem_of_fmap. exists (i, (id', image')). auto.
      - simpl. apply list_elem_of_here. }
    pose proof (spec_placement_disjoint n atlas_size padding j i
                  ltac:(lia) ltac:(lia) Hpadding Hjn Hi Hji) as Hdis.
    unfold disjoint_rectangles in Hdis. unfold in_rectangle in Hj_in, Hi_in.
    fold P in Hdis. lia. }
  split; [exact Hw'|]. split; [exact Hh'|]. split.
  - intros j id' image' Hj px py Hpx Hpy.
    apply elem_of_app in Hj. destruct Hj as [Hj|Hj].
    + rewrite Hframe; [now apply (Htiles j id' image')|].
      intros Hin_i. apply (Hother j id' image' Hj (pos_x (P j) + px) (pos_y (P j) + py)).
      * unfold in_rectangle, P, spec_placement. simpl. fold s. lia.
      * apply Hrect. exact Hin_i.
    + apply list_elem_of_singleton in Hj. inversion Hj; subst j id' image'.
      unfold P, spec_placement. simpl. apply Hcopy; assumption.
  - intros X Y Hnone. rewrite Hframe.
    + apply Hback. intros j id' image' Hj. apply (Hnone j id' image').
      apply elem_of_app. now left.
    + intros Hin_i. apply (Hnone i id image).
      * apply elem_of_app. right. apply list_elem_of_singleton. reflexivity.
      * apply Hrect. exact Hin_i.
Qed.

Lemma pack_atlas_pixels :
  returns (pack_atlas oc filter images atlas_size padding)
    (fun packed => atlas_holds filter n atlas_size padding (enumerate images) (fst packed))
    (fun _ => True).
Proof.
  unfold pack_atlas. fold n.
  rewrite grid_size_of_exact by lia.
  pose proof (ceil_sqrt_spec n ltac:(lia)) as (Hg & _).
  assert (Hc : 0 <= atlas_size / ceil_sqrt n <= atlas_size).
  { split; [apply Z.div_pos; lia|]. apply Z.div_le_upper_bound; nia. }
  eapply returns_bind; [apply returns_u32_div; lia|]. intros cell_size ->.
  eapply returns_bind; [apply returns_checked; unfold u32_max in *; lia|].
  intros padding2 ->.
  eapply returns_bind; [apply returns_checked; unfold u32_max in *; lia|].
  intros content_size ->.
  replace (atlas_size / ceil_sqrt n - padding * 2) with s by (unfold s; lia).
  apply (returns_for_each_prefix
           (fun placed (state : RgbaImage * gmap string AtlasPosition) =>
              atlas_holds filter n atlas_size padding placed (fst state))).
  - simpl. split; [reflexivity|]. split; [reflexivity|]. split.
    + intros i id image Hin. inversion Hin.
    + reflexivity.
  - intros pre [i [id image]] post [atlas positions] Hsplit Hpre.
    now apply (place_tile_pixels pre i id image post).
Qed.
End AtlasPixels.

(** X9. The atlas that [pack_atlas] returns has the requested side; the
    content rectangle of tile [i] holds the tile resampled to the content
    size, in RGBA, and every pixel outside all content rectangles is the
    transparent background. *)
Theorem pack_atlas_places_tiles oc filter (images : list (string * DynamicImage))
    atlas_size padding :
  let n := Z.of_nat (length images) in
  let s := atlas_size / ceil_sqrt n - 2 * padding in
  0 < n <= max_exact_count ->
  0 < atlas_size <= u32_max ->
  0 <= padding ->
  0 <= s ->
  exists atlas positions,
    result_of (pack_atlas oc filter images atlas_size padding) = Ok (atlas, positions) /\
    width atlas = atlas_size /\ height atlas = atlas_size /\
    (forall (i : nat) id image, images !! i = Some (id, image) ->
       forall px py, 0 <= px < s -> 0 <= py < s ->
         pixel_at atlas
           (pos_x (spec_placement n atlas_size padding (Z.of_nat i)) + px)
           (pos_y (spec_placement n atlas_size padding (Z.of_nat i)) + py)
         = pixel_at (resized_tile filter s image) px py) /\
    (forall X Y,
       (forall i, 0 <= i < n ->
          ~ in_rectangle (spec_placement n atlas_size padding i) X Y) ->
       pixel_at atlas X Y = (0, 0, 0, 0)).
Proof.
  intros n s Hn Ha Hp Hs.
  destruct (returns_result _ _ _
              (pack_atlas_pixels oc filter images atlas_size padding
                 Hn ltac:(lia) Hp ltac:(fold n; unfold s in Hs; lia)))
    as ([atlas positions] & Hres & (Hw & Hh & Htiles & Hback) & _).
  simpl in Hw, Hh, Htiles, Hback.
  exists atlas, positions. split; [exact Hres|]. split; [exact Hw|]. split; [exact Hh|].
  split.
  - intros i id image Hi px py Hpx Hpy.
    apply (Htiles (Z.of_nat i) id image); auto. now apply lookup_enumerate.
  - intros X Y Hnone. apply Hback. intros i id image Hin.
    apply Hnone. apply (In_enumerate images i (id, image)). now apply list_elem_of_In.
Qed.

Lemma pack_atlas_places_tiles_witness :
  exists atlas positions,
    result_of (pack_atlas true nearest five_tiles 100 3) = Ok (atlas, positions) /\
    width atlas = 100 /\ height atlas = 100 /\
    (forall (i : nat) id image, five_tiles !! i = Some (id, image) ->
       forall px py, 0 <= px < 27 -> 0 <= py < 27 ->
         pixel_at atlas
           (pos_x (spec_placement 5 100 3 (Z.of_nat i)) + px)
           (pos_y (spec_placement 5 100 3 (Z.of_nat i)) + py)
         = pixel_at (resized_tile nearest 27 image) px py) /\
    (forall X Y,
       (forall i, 0 <= i < 5 -> ~ in_rectangle (spec_placement 5 100 3 i) X Y) ->
       pixel_at atlas X Y = (0, 0, 0, 0)).
Proof.
  apply (pack_atlas_places_tiles true nearest five_tiles 100 3).
  - vm_compute. split; [reflexivity|discriminate].
  - vm_compute. split; [reflexivity|discriminate].
  - lia.
  - vm_compute. discriminate.
Defined.

(** ** More on the registry *)

Lemma strip_prefix_app (prefix s : string) :
  strip_prefix prefix (prefix +:+ s) = Some s.
Proof.
  induction prefix as [|a prefix IH]; [reflexivity|].
  simpl. now rewrite Ascii.eqb_refl.
Qed.

Lemma update_position_char ch pos (characters : gmap ascii CharacterInfo)
    (shapes : gmap string ShapeInfo) :
  update_position (char_tile_id ch, pos) (characters, shapes)
  = (match characters !! ch with
     | Some info => <[ch := move_character (Some pos) info]> characters
     | None => characters
     end, shapes).
Proof.
  unfold update_position, char_tile_id. rewrite strip_prefix_app. simpl.
  destruct (characters !! ch); reflexivity.
Qed.

Lemma update_position_shape name pos (characters : gmap ascii CharacterInfo)
    (shapes : gmap string ShapeInfo) :
  update_position (shape_tile_id name, pos) (characters, shapes)
  = (characters,
     match shapes !! name with
     | Some info => <[name := move_shape (Some pos) info]> shapes
     | None => shapes
     end).
Proof.
  unfold update_position.
  replace (strip_prefix "char_" (shape_tile_id name)) with (@None string) by reflexivity.
  unfold shape_tile_id. rewrite strip_prefix_app.
  destruct (shapes !! name); reflexivity.
Qed.

(** X10. One step of the loop that updates the registry, at the tile id of a
    key: the entry of that key, if present, moves to the placement's [x] and
    [y], and nothing else changes. *)
Theorem update_position_by_key (k : registry_key) pos
    (characters : gmap ascii CharacterInfo) (shapes : gmap string ShapeInfo) :
  update_position (tile_id_of k, pos) (characters, shapes)
  = match k with
    | CharKey ch => (alter (move_character (Some pos)) ch characters, shapes)
    | ShapeKey name => (characters, alter (move_shape (Some pos)) name shapes)
    end.
Proof.
  destruct k as [ch|name]; unfold tile_id_of.
  - rewrite update_position_char. f_equal. apply map_eq. intros ch'.
    destruct (decide (ch = ch')) as [<-|Hne].
    + rewrite lookup_alter_eq. destruct (characters !! ch) eqn:Hch; simpl.
      * now rewrite lookup_insert_eq.
      * now rewrite Hch.
    + rewrite lookup_alter_ne by exact Hne.
      destruct (characters !! ch); [now rewrite lookup_insert_ne|reflexivity].
  - rewrite update_position_shape. f_equal. apply map_eq. intros name'.
    destruct (decide (name = name')) as [<-|Hne].
    + rewrite lookup_alter_eq. destruct (shapes !! name) eqn:Hn; simpl.
      * now rewrite lookup_insert_eq.
      * now rewrite Hn.
    + rewrite lookup_alter_ne by exact Hne.
      destruct (shapes !! name); [now rewrite lookup_insert_ne|reflexivity].
Qed.

(** The update loop over entries whose ids are tile ids of keys, each id
    once: every entry present before is moved to the placement of its own
    tile id, if there is one. *)
Lemma update_positions_lookup (entries : list (string * AtlasPosition))
    (characters : gmap ascii CharacterInfo) (shapes : gmap string ShapeInfo) :
  NoDup (map fst entries) ->
  (forall id, id ∈ map fst entries -> exists k, id = tile_id_of k) ->
  let placed : gmap string AtlasPosition := list_to_map entries in
  let r := update_positions entries characters shapes in
  (forall ch, fst r !! ch
     = move_character (placed !! char_tile_id ch) <$> characters !! ch) /\
  (forall name, snd r !! name
     = move_shape (placed !! shape_tile_id name) <$> shapes !! name).
Proof.
  unfold update_positions. revert characters shapes.
  induction entries as [|[id pos] entries IH]; intros characters shapes Hnd Hids.
  - simpl. split.
    + intros ch. rewrite lookup_empty. simpl. now destruct (characters !! ch).
    + intros name. rewrite lookup_empty. simpl. now destruct (shapes !! name).
  - cbn [foldl]. cbn [map fst] in Hnd, Hids. rewrite list_to_map_cons.
    apply NoDup_cons in Hnd. destruct Hnd as [Hfresh Hnd].
    assert (Hnone : (list_to_map entries : gmap string AtlasPosition) !! id = None).
    { apply not_elem_of_list_to_map_1. exact Hfresh. }
    destruct (Hids id) as [k ->]; [apply list_elem_of_here|].
    assert (Hids' : forall id, id ∈ map fst entries -> exists k, id = tile_id_of k).
    { intros id' Hin. apply Hids. now apply list_elem_of_further. }
    destruct k as [ch0|name0]; unfold tile_id_of in *.
    + rewrite update_position_char.
      destruct (IH (match characters !! ch0 with
                    | Some info => <[ch0 := move_character (Some pos) info]> characters
                    | None => characters
                    end) shapes Hnd Hids') as [Hc Hs].
      split.
      * intros ch. rewrite Hc. destruct (decide (ch0 = ch)) as [<-|Hne].
        -- rewrite lookup_insert_eq, Hnone.
           destruct (characters !! ch0) eqn:Hch; simpl.
           ++ now rewrite lookup_insert_eq.
           ++ now rewrite Hch.
        -- rewrite lookup_insert_ne
             by (intros Heq; apply Hne; now apply char_tile_id_inj).
           destruct (characters !! ch0); [now rewrite lookup_insert_ne|reflexivity].
      * intros name. rewrite Hs.
        rewrite lookup_insert_ne by apply char_shape_tile_id_ne. reflexivity.
    + rewrite update_position_shape.
      destruct (IH characters
                  (match shapes !! name0 with
                   | Some info => <[name0 := move_shape (Some pos) info]> shapes
                   | None => shapes
                   end) Hnd Hids') as [Hc Hs].
      split.
      * intros ch. rewrite Hc.
        rewrite lookup_insert_ne
          by (intros Heq; symmetry in Heq; now apply char_shape_tile_id_ne in Heq).
        reflexivity.
      * intros name. rewrite Hs. destruct (decide (name0 = name)) as [<-|Hne].
        -- rewrite lookup_insert_eq, Hnone.
           destruct (shapes !! name0) eqn:Hn; simpl.
           ++ now rewrite lookup_insert_eq.
           ++ now rewrite Hn.
        -- rewrite lookup_insert_ne
             by (intros Heq; apply Hne; now apply shape_tile_id_inj).
           destruct (shapes !! name0); [now rewrite lookup_insert_ne|reflexivity].
Qed.

Lemma foldl_add_shape_sizes sdf_size (l : list (string * DynamicImage)) shapes sdf_images :
  let r := foldl (add_shape sdf_size) (shapes, sdf_images) l in
  forall name info, fst r !! name = Some info ->
    info = {| si_x := 0; si_y := 0; si_width := sdf_size; si_height := sdf_size |}
    \/ shapes !! name = Some info.
Proof.
  revert shapes sdf_images.
  induction l as [|[name0 image] l IH]; intros shapes sdf_images; simpl.
  - auto.
  - intros name info Hinfo. apply IH in Hinfo. destruct Hinfo as [Hinfo|Hinfo]; [now left|].
    destruct (decide (name0 = name)) as [<-|Hne].
    + rewrite lookup_insert_eq in Hinfo. left. congruence.
    + rewrite lookup_insert_ne in Hinfo by exact Hne. now right.
Qed.

Lemma generate_tiles_shape_sizes FontData fs_read generate_character_sdfs
    generate_basic_shapes config characters shapes sdf_images :
  result_of (generate_tiles FontData fs_read generate_character_sdfs
               generate_basic_shapes config) = Ok (characters, shapes, sdf_images) ->
  forall name info, shapes !! name = Some info ->
    info = {| si_x := 0; si_y := 0; si_width := cfg_sdf_size config;
              si_height := cfg_sdf_size config |}.
Proof.
  unfold generate_tiles. intros H.
  apply bind_Ok_inv in H. destruct H as ([cs ims] & Hchars & H).
  apply bind_Ok_inv in H. destruct H as ([ss ims'] & Hshapes & H).
  inversion H; subst cs ss ims'. clear H.
  destruct (cfg_include_shapes config).
  - apply bind_Ok_inv in Hshapes. destruct Hshapes as (shape_sdfs & _ & Hshapes).
    inversion Hshapes as [Hfold]. clear Hshapes.
    intros name info Hinfo.
    pose proof (foldl_add_shape_sizes (cfg_sdf_size config) (map_to_list shape_sdfs)
                  ∅ ims name info) as Hsz.
    simpl in Hsz. rewrite Hfold in Hsz. simpl in Hsz.
    destruct (Hsz Hinfo) as [->|Hempty]; [reflexivity|].
    rewrite lookup_empty in Hempty. discriminate.
  - inversion Hshapes; subst. intros name info Hinfo.
    rewrite lookup_empty in Hinfo. discriminate.
Qed.

Lemma put_pixel_Ok_dims {P} (img img' : ImageBuffer P) x y p :
  result_of (put_pixel img x y p) = Ok img' ->
  width img' = width img /\ height img' = height img.
Proof.
  unfold put_pixel. destruct (in_bounds img x y); simpl; [|discriminate].
  intros H. inversion H; subst. auto.
Qed.

Lemma copy_to_atlas_Ok_dims oc rgba_image x y content_size atlas_size
    (atlas atlas' : RgbaImage) :
  result_of (copy_to_atlas oc rgba_image x y content_size atlas_size atlas) = Ok atlas' ->
  width atlas' = width atlas /\ height atlas' = height atlas.
Proof.
  unfold copy_to_atlas, for_range.
  apply (for_each_Ok_inv
           (fun _ (a : RgbaImage) => width a = width atlas /\ height a = height atlas));
    [auto|].
  intros _ py a a1 Ha.
  apply (for_each_Ok_inv
           (fun _ (b : RgbaImage) => width b = width atlas /\ height b = height atlas));
    [auto|].
  intros _ px b b1 Hb Hres.
  apply bind_Ok_inv in Hres. destruct Hres as (xp & _ & Hres).
  destruct (xp <? atlas_size); [|inversion Hres; subst; auto].
  apply bind_Ok_inv in Hres. destruct Hres as (yp & _ & Hres).
  destruct (yp <? atlas_size); [|inversion Hres; subst; auto].
  apply bind_Ok_inv in Hres. destruct Hres as (source_pixel & _ & Hres).
  apply put_pixel_Ok_dims in Hres. destruct Hb, Hres. split; congruence.
Qed.

(** Whenever the packer returns, the atlas has the requested side. *)
Lemma pack_atlas_Ok_dims oc filter (images : list (string * DynamicImage))
    atlas_size padding atlas (positions : gmap string AtlasPosition) :
  result_of (pack_atlas oc filter images atlas_size padding) = Ok (atlas, positions) ->
  width atlas = atlas_size /\ height atlas = atlas_size.
Proof.
  unfold pack_atlas. intros H.
  do 3 (apply bind_Ok_inv in H; destruct H as (? & _ & H)).
  revert H.
  apply (for_each_Ok_inv
           (fun _ (state : RgbaImage * gmap string AtlasPosition) =>
              width (fst state) = atlas_size /\ height (fst state) = atlas_size));
    [simpl; auto|].
  intros _ [i [id image]] [a p] [a1 p1] Hpre Hres. simpl in *.
  unfold place_tile in Hres.
  do 6 (apply bind_Ok_inv in Hres; destruct Hres as (? & _ & Hres)).
  apply bind_Ok_inv in Hres. destruct Hres as (a2 & Hcopy & Hres).
  inversion Hres; subst. apply copy_to_atlas_Ok_dims in Hcopy.
  destruct Hpre, Hcopy. split; congruence.
Qed.

(** A successful run of [generate], taken apart: its tiles, its packing and
    the registry entries as the moved entries of the tiles. *)
Lemma generate_Ok_inv oc filter FontData fs_read
    generate_character_sdfs generate_basic_shapes utc_now config res :
  result_of (generate oc filter FontData fs_read generate_character_sdfs
               generate_basic_shapes utc_now config) = Ok res ->
  exists characters shapes sdf_images atlas positions,
    result_of (generate_tiles FontData fs_read generate_character_sdfs
                 generate_basic_shapes config) = Ok (characters, shapes, sdf_images) /\
    result_of (pack_atlas oc filter sdf_images (cfg_atlas_size config)
                 (cfg_padding config)) = Ok (atlas, positions) /\
    (forall ch, reg_characters (registry res) !! ch
       = move_character (positions !! char_tile_id ch) <$> characters !! ch) /\
    (forall name, reg_shapes (registry res) !! name
       = move_shape (positions !! shape_tile_id name) <$> shapes !! name) /\
    (forall ch, is_Some (characters !! ch) -> is_Some (positions !! char_tile_id ch)) /\
    (forall name, is_Some (shapes !! name) -> is_Some (positions !! shape_tile_id name)).
Proof.
  unfold generate. intros H.
  apply bind_Ok_inv in H. destruct H as ([[characters shapes] sdf_images] & Htiles & H).
  apply bind_Ok_inv in H. destruct H as ([atlas positions] & Hpack & H).
  pose proof (pack_atlas_Ok_ids _ _ _ _ _ _ _ Hpack) as Hids.
  destruct (generate_tiles_Ok _ _ _ _ _ _ _ _ Htiles)
    as (chs & names & Hndc & Hnds & Hcdom & Hsdom & Hlist).
  rewrite Hlist in Hids.
  assert (Hkeys : forall id, id ∈ map fst (map_to_list positions) ->
            exists k, id = tile_id_of k).
  { intros id Hin. apply list_elem_of_fmap in Hin. destruct Hin as ([id' pos] & -> & Hin).
    apply elem_of_map_to_list in Hin. simpl.
    assert (Hsome : is_Some (positions !! id')) by eauto.
    apply Hids, elem_of_app in Hsome.
    destruct Hsome as [Hc|Hs]; apply list_elem_of_fmap in Hc || apply list_elem_of_fmap in Hs.
    - destruct Hc as (ch & -> & _). now exists (CharKey ch).
    - destruct Hs as (name & -> & _). now exists (ShapeKey name). }
  pose proof (update_positions_lookup (map_to_list positions) characters shapes
                (NoDup_fst_map_to_list positions) Hkeys) as Hlookup.
  cbv zeta in Hlookup. rewrite list_to_map_to_list in Hlookup.
  destruct (update_positions (map_to_list positions) characters shapes)
    as [characters' shapes'].
  simpl in Hlookup. destruct Hlookup as [Hc Hs].
  inversion H; subst res; clear H. simpl.
  exists characters, shapes, sdf_images, atlas, positions.
  split; [exact Htiles|]. split; [exact Hpack|].
  split; [exact Hc|]. split; [exact Hs|]. split.
  - intros ch Hch. apply Hids, elem_of_app. left. apply list_elem_of_fmap. exists ch.
    split; [reflexivity|]. now apply Hcdom.
  - intros name Hname. apply Hids, elem_of_app. right. apply list_elem_of_fmap.
    exists name. split; [reflexivity|]. now apply Hsdom.
Qed.

(** X11. After a successful [generate], every registry entry has the [x] and
    [y] of the placement of its own tile id; a character keeps the width,
    height, advance and bearings of its tile, a shape has the width and
    height [sdf_size]. *)
Theorem generate_registry_entries oc filter FontData fs_read
    generate_character_sdfs generate_basic_shapes utc_now config res :
  result_of (generate oc filter FontData fs_read generate_character_sdfs
               generate_basic_shapes utc_now config) = Ok res ->
  exists characters shapes sdf_images atlas positions,
    result_of (generate_tiles FontData fs_read generate_character_sdfs
                 generate_basic_shapes config) = Ok (characters, shapes, sdf_images) /\
    result_of (pack_atlas oc filter sdf_images (cfg_atlas_size config)
                 (cfg_padding config)) = Ok (atlas, positions) /\
    (forall ch info, reg_characters (registry res) !! ch = Some info ->
       exists tile_info pos,
         characters !! ch = Some tile_info /\
         positions !! char_tile_id ch = Some pos /\
         ci_x info = pos_x pos /\ ci_y info = pos_y pos /\
         ci_width info = ci_width tile_info /\
         ci_height info = ci_height tile_info /\
         ci_advance info = ci_advance tile_info /\
         ci_bearing_x info = ci_bearing_x tile_info /\
         ci_bearing_y info = ci_bearing_y tile_info) /\
    (forall name info, reg_shapes (registry res) !! name = Some info ->
       exists pos,
         positions !! shape_tile_id name = Some pos /\
         si_x info = pos_x pos /\ si_y info = pos_y pos /\
         si_width info = cfg_sdf_size config /\
         si_height info = cfg_sdf_size config).
Proof.
  intros H.
  destruct (generate_Ok_inv _ _ _ _ _ _ _ _ _ H)
    as (characters & shapes & sdf_images & atlas & positions & Htiles & Hpack &
        Hc & Hs & Hcp & Hsp).
  exists characters, shapes, sdf_images, atlas, positions.
  split; [exact Htiles|]. split; [exact Hpack|]. split.
  - intros ch info Hinfo. rewrite Hc in Hinfo.
    destruct (characters !! ch) as [tile_info|] eqn:Hch; [|discriminate].
    destruct (Hcp ch ltac:(rewrite Hch; eauto)) as [pos Hpos]. rewrite Hpos in Hinfo.
    simpl in Hinfo. inversion Hinfo; subst info. simpl.
    exists tile_info, pos. repeat split; reflexivity || assumption.
  - intros name info Hinfo. rewrite Hs in Hinfo.
    destruct (shapes !! name) as [tile_info|] eqn:Hname; [|discriminate].
    destruct (Hsp name ltac:(rewrite Hname; eauto)) as [pos Hpos]. rewrite Hpos in Hinfo.
    rewrite (generate_tiles_shape_sizes _ _ _ _ _ _ _ _ Htiles name tile_info Hname)
      in Hinfo.
    simpl in Hinfo. inversion Hinfo; subst info. simpl.
    exists pos. repeat split; reflexivity || assumption.
Qed.

Lemma generate_registry_entries_witness :
  exists res,
    result_of (generate true nearest unit sample_fs_read sample_character_sdfs
                 sample_basic_shapes "2025-01-01T00:00:00+00:00" small_config) = Ok res /\
    exists characters shapes sdf_images atlas positions,
      result_of (generate_tiles unit sample_fs_read sample_character_sdfs
                   sample_basic_shapes small_config)
        = Ok (characters, shapes, sdf_images) /\
      result_of (pack_atlas true nearest sdf_images (cfg_atlas_size small_config)
                   (cfg_padding small_config)) = Ok (atlas, positions) /\
      (forall ch info, reg_characters (registry res) !! ch = Some info ->
         exists tile_info pos,
           characters !! ch = Some tile_info /\
           positions !! char_tile_id ch = Some pos /\
           ci_x info = pos_x pos /\ ci_y info = pos_y pos /\
           ci_width info = ci_width tile_info /\
           ci_height info = ci_height tile_info /\
           ci_advance info = ci_advance tile_info /\
           ci_bearing_x info = ci_bearing_x tile_info /\
           ci_bearing_y info = ci_bearing_y tile_info) /\
      (forall name info, reg_shapes (registry res) !! name = Some info ->
         exists pos,
           positions !! shape_tile_id name = Some pos /\
           si_x info = pos_x pos /\ si_y info = pos_y pos /\
           si_width info = cfg_sdf_size small_config /\
           si_height info = cfg_sdf_size small_config).
Proof.
  eexists. split.
  - vm_compute. reflexivity.
  - apply (generate_registry_entries true nearest unit sample_fs_read
             sample_character_sdfs sample_basic_shapes
             "2025-01-01T00:00:00+00:00" small_config).
    vm_compute. reflexivity.
Defined.

(** X12. After a successful [generate], the sprite sheet is an RGBA image
    whose width and height are the atlas size recorded in the metadata, and
    the metadata repeats the range, resolution and padding of the
    configuration. *)
Theorem generate_sheet_matches_metadata oc filter FontData fs_read
    generate_character_sdfs generate_basic_shapes utc_now config res :
  result_of (generate oc filter FontData fs_read generate_character_sdfs
               generate_basic_shapes utc_now config) = Ok res ->
  exists atlas,
    sprite_sheet res = ImageRgba8 atlas /\
    width atlas = md_atlas_width (reg_metadata (registry res)) /\
    height atlas = md_atlas_height (reg_metadata (registry res)) /\
    md_atlas_width (reg_metadata (registry res)) = cfg_atlas_size config /\
    md_atlas_height (reg_metadata (registry res)) = cfg_atlas_size config /\
    md_sdf_range (reg_metadata (registry res)) = cfg_sdf_range config /\
    md_resolution (reg_metadata (registry res)) = cfg_sdf_size config /\
    md_padding (reg_metadata (registry res)) = cfg_padding config.
Proof.
  unfold generate. intros H.
  apply bind_Ok_inv in H. destruct H as ([[characters shapes] sdf_images] & Htiles & H).
  apply bind_Ok_inv in H. destruct H as ([atlas positions] & Hpack & H).
  destruct (update_positions (map_to_list positions) characters shapes)
    as [characters' shapes'].
  inversion H; subst res; clear H. simpl.
  apply pack_atlas_Ok_dims in Hpack. destruct Hpack as [Hw Hh].
  exists atlas. repeat split; auto.
Qed.

Lemma generate_sheet_matches_metadata_witness :
  exists res,
    result_of (generate true nearest unit sample_fs_read sample_character_sdfs
                 sample_basic_shapes "2025-01-01T00:00:00+00:00" small_config) = Ok res /\
    exists atlas,
      sprite_sheet res = ImageRgba8 atlas /\
      width atlas = md_atlas_width (reg_metadata (registry res)) /\
      height atlas = md_atlas_height (reg_metadata (registry res)) /\
      md_atlas_width (reg_metadata (registry res)) = cfg_atlas_size small_config /\
      md_atlas_height (reg_metadata (registry res)) = cfg_atlas_size small_config /\
      md_sdf_range (reg_metadata (registry res)) = cfg_sdf_range small_config /\
      md_resolution (reg_metadata (registry res)) = cfg_sdf_size small_config /\
      md_padding (reg_metadata (registry res)) = cfg_padding small_config.
Proof.
  eexists. split.
  - vm_compute. reflexivity.
  - apply (generate_sheet_matches_metadata true nearest unit sample_fs_read
             sample_character_sdfs sample_basic_shapes
             "2025-01-01T00:00:00+00:00" small_config).
    vm_compute. reflexivity.
Defined.

(** X13. Without a font and without shapes [generate] has no tile to pack:
    it panics on the division by the grid side zero. *)
Theorem generate_without_tiles_panics oc filter FontData fs_read
    generate_character_sdfs generate_basic_shapes utc_now config :
  cfg_font_path config = None ->
  cfg_include_shapes config = false ->
  result_of (generate oc filter FontData fs_read generate_character_sdfs
               generate_basic_shapes utc_now config) = Panic DivideByZero.
Proof.
  intros Hfont Hshapes. unfold generate, generate_tiles.
  rewrite Hfont, Hshapes. reflexivity.
Qed.

Lemma generate_without_tiles_panics_witness :
  result_of (generate true nearest unit sample_fs_read sample_character_sdfs
               sample_basic_shapes "2025-01-01T00:00:00+00:00" empty_config)
  = Panic DivideByZero.
Proof.
  apply (generate_without_tiles_panics true nearest unit sample_fs_read
           sample_character_sdfs sample_basic_shapes
           "2025-01-01T00:00:00+00:00" empty_config); reflexivity.
Defined.

Lemma foldl_insert_lookup `{Countable K} {V W} (f : V -> W)
    (step : gmap K W -> K * V -> gmap K W) (l : list (K * V)) (m : gmap K W) (k : K) :
  (forall m e, step m e = <[fst e := f (snd e)]> m) ->
  NoDup (map fst l) ->
  foldl step m l !! k
  = match (list_to_map l : gmap K V) !! k with
    | Some v => Some (f v)
    | None => m !! k
    end.
Proof.
  intros Hstep. revert m. induction l as [|[k0 v0] l IH]; intros m Hnd.
  - simpl. now rewrite lookup_empty.
  - cbn [foldl map fst snd] in *. apply NoDup_cons in Hnd. destruct Hnd as [Hfresh Hnd].
    rewrite IH by exact Hnd. rewrite list_to_map_cons, Hstep. cbn [fst snd].
    destruct (decide (k0 = k)) as [<-|Hne].
    + rewrite lookup_insert_eq.
      rewrite (not_elem_of_list_to_map_1 _ _ Hfresh). now rewrite lookup_insert_eq.
    + rewrite !lookup_insert_ne by exact Hne. reflexivity.
Qed.

(** X14. [create_registry] turns every rectangle into an entry under the
    same key with the same four fields; a character's advance and vertical
    bearing are its width and height as floats, its horizontal bearing 0. *)
Theorem create_registry_entries atlas_width atlas_height sdf_range resolution padding
    multi_channel created (character_positions : gmap ascii (Z * Z * Z * Z))
    (shape_positions : gmap string (Z * Z * Z * Z)) :
  let reg := create_registry atlas_width atlas_height sdf_range resolution padding
               multi_channel created character_positions shape_positions in
  (forall ch, reg_characters reg !! ch = character_entry <$> character_positions !! ch) /\
  (forall name, reg_shapes reg !! name = shape_entry <$> shape_positions !! name).
Proof.
  unfold create_registry. simpl. split.
  - intros ch.
    rewrite (foldl_insert_lookup character_entry)
      by (try apply NoDup_fst_map_to_list; intros m [c [[[x y] w] h]]; reflexivity).
    rewrite list_to_map_to_list, lookup_empty.
    now destruct (character_positions !! ch).
  - intros name.
    rewrite (foldl_insert_lookup shape_entry)
      by (try apply NoDup_fst_map_to_list; intros m [c [[[x y] w] h]]; reflexivity).
    rewrite list_to_map_to_list, lookup_empty.
    now destruct (shape_positions !! name).
Qed.

(** ** The analytic shapes *)

(** Painting an image pixel by pixel, row after row. *)
Lemma paint_image_returns {P} (w h : Z) (f : Z -> Z -> P) (R : Z * Z -> Prop)
    (img0 : ImageBuffer P) :
  width img0 = w -> height img0 = h -> 0 <= w -> 0 <= h ->
  returns
    (for_range 0 h (fun y img =>
       for_range 0 w (fun x img => put_pixel img x y (f x y)) img)
     img0)
    (fun img => width img = w /\ height img = h /\
       forall x y, 0 <= x < w -> 0 <= y < h -> pixel_at img x y = f x y)
    R.
Proof.
  intros Hw0 Hh0 Hw Hh.
  set (rows := fun (y : Z) (img : ImageBuffer P) =>
    width img = w /\ height img = h /\
    forall x' y', 0 <= x' < w -> 0 <= y' < y -> pixel_at img x' y' = f x' y').
  eapply returns_weaken.
  { apply returns_for_range_indexed with (I := rows); [lia| |].
    - intros y img Hy (Hdw & Hdh & Hrows).
      set (cols := fun (x : Z) (img : ImageBuffer P) =>
        width img = w /\ height img = h /\
        (forall x' y', 0 <= x' < w -> 0 <= y' < y -> pixel_at img x' y' = f x' y') /\
        (forall x', 0 <= x' < x -> pixel_at img x' y = f x' y)).
      eapply returns_weaken.
      { apply returns_for_range_indexed with (I := cols); [lia| |].
        - intros x m Hx (Hmw & Hmh & Hdone & Hrow).
          eapply returns_weaken.
          { apply returns_put_pixel. apply in_bounds_true. lia. }
          simpl. intros m' (Hw' & Hh' & Hpx).
          unfold cols. repeat split; try lia.
          + intros x' y' Hx' Hy'. rewrite Hpx.
            assert ((y' =? y) = false) as -> by (apply Z.eqb_neq; lia).
            rewrite andb_false_r. now apply Hdone.
          + intros x' Hx'. rewrite Hpx. rewrite Z.eqb_refl, andb_true_r.
            destruct (Z.eqb_spec x' x) as [->|Hne]; [reflexivity|].
            apply Hrow. lia.
        - unfold cols. repeat split; auto. intros; lia. }
      simpl. intros m (Hmw & Hmh & Hdone & Hrow).
      unfold rows. repeat split; auto.
      intros x' y' Hx' Hy'.
      destruct (Z.eq_dec y' y) as [->|Hne]; [now apply Hrow|].
      apply Hdone; lia.
    - unfold rows. repeat split; auto. intros; lia. }
  simpl. intros m (Hmw & Hmh & Hdone). auto.
Qed.

Lemma generate_circle_sdf_returns size range R :
  0 <= size ->
  returns (generate_circle_sdf size range)
    (fun image => width image = size /\ height image = size /\
       forall x y, 0 <= x < size -> 0 <= y < size ->
         pixel_at image x y = normalize (circle_distance size x y) range)
    R.
Proof.
  intros Hsize. unfold generate_circle_sdf.
  apply (paint_image_returns size size
           (fun x y => normalize (circle_distance size x y) range)); auto.
Qed.

Lemma generate_triangle_sdf_returns size range R :
  0 <= size ->
  returns (generate_triangle_sdf size range)
    (fun image => width image = size /\ height image = size) R.
Proof.
  intros Hsize. unfold generate_triangle_sdf.
  eapply returns_weaken.
  { apply (paint_image_returns size size); auto. }
  simpl. tauto.
Qed.

Lemma generate_square_sdf_returns size range R :
  0 <= size ->
  returns (generate_square_sdf size range)
    (fun image => width image = size /\ height image = size) R.
Proof.
  intros Hsize. unfold generate_square_sdf.
  eapply returns_weaken.
  { apply (paint_image_returns size size); auto. }
  simpl. tauto.
Qed.

Lemma generate_basic_shapes_returns size range R :
  0 <= size ->
  returns (generate_basic_shapes size range)
    (fun shapes => exists circle triangle square : GrayImage,
       shapes = <["square"%string := ImageLuma8 square]>
                  (<["triangle"%string := ImageLuma8 triangle]>
                     (<["circle"%string := ImageLuma8 circle]> ∅)) /\
       (width circle = size /\ height circle = size) /\
       (width triangle = size /\ height triangle = size) /\
       (width square = size /\ height square = size))
    R.
Proof.
  intros Hsize. unfold generate_basic_shapes.
  eapply returns_bind; [apply generate_circle_sdf_returns; exact Hsize|].
  intros circle (Hcw & Hch & _).
  eapply returns_bind; [apply generate_triangle_sdf_returns; exact Hsize|].
  intros triangle Ht.
  eapply returns_bind; [apply generate_square_sdf_returns; exact Hsize|].
  intros square Hs.
  apply returns_ret. exists circle, triangle, square. auto.
Qed.

Lemma three_shapes_keys (circle triangle square : DynamicImage) (name : string) :
  is_Some ((<["square"%string := square]>
              (<["triangle"%string := triangle]>
                 (<["circle"%string := circle]> (∅ : gmap string DynamicImage)))) !! name)
  <-> name ∈ shape_names.
Proof.
  rewrite !lookup_insert_is_Some, lookup_empty. unfold shape_names.
  rewrite !elem_of_cons, elem_of_nil. split.
  - intros [<-|[_ [<-|[_ [<-|[_ [? ?]]]]]]]; auto. discriminate.
  - intros [->|[->|[->|[]]]].
    + right. split; [discriminate|]. right. split; [discriminate|]. now left.
    + right. split; [discriminate|]. now left.
    + now left.
Qed.

(** X15. [generate_basic_shapes] never fails: it returns exactly the three
    shapes circle, triangle and square, each a single-channel image of
    [size x size]. *)
Theorem generate_basic_shapes_three size range :
  0 <= size ->
  exists shapes,
    result_of (generate_basic_shapes size range) = Ok shapes /\
    (forall name, is_Some (shapes !! name) <-> name ∈ shape_names) /\
    (forall name image, shapes !! name = Some image ->
       exists gray, image = ImageLuma8 gray /\ width gray = size /\ height gray = size).
Proof.
  intros Hsize.
  destruct (returns_result _ _ _
              (generate_basic_shapes_returns size range (fun _ => True) Hsize))
    as (shapes & Hres & (circle & triangle & square & -> & Hc & Ht & Hs) & _).
  eexists. split; [exact Hres|]. split.
  - intros name. apply three_shapes_keys.
  - intros name image Hlook.
    destruct (decide ("square"%string = name)) as [<-|Hn1].
    { rewrite lookup_insert_eq in Hlook. inversion Hlook. exists square. tauto. }
    rewrite lookup_insert_ne in Hlook by exact Hn1.
    destruct (decide ("triangle"%string = name)) as [<-|Hn2].
    { rewrite lookup_insert_eq in Hlook. inversion Hlook. exists triangle. tauto. }
    rewrite lookup_insert_ne in Hlook by exact Hn2.
    destruct (decide ("circle"%string = name)) as [<-|Hn3].
    { rewrite lookup_insert_eq in Hlook. inversion Hlook. exists circle. tauto. }
    rewrite lookup_insert_ne in Hlook by exact Hn3.
    rewrite lookup_empty in Hlook. discriminate.
Qed.

Lemma generate_basic_shapes_three_witness :
  exists shapes,
    result_of (generate_basic_shapes 8 range4) = Ok shapes /\
    (forall name, is_Some (shapes !! name) <-> name ∈ shape_names) /\
    (forall name image, shapes !! name = Some image ->
       exists gray, image = ImageLuma8 gray /\ width gray = 8 /\ height gray = 8).
Proof. apply (generate_basic_shapes_three 8 range4). lia. Defined.

Lemma f32_add_comm (a b : f32) : F32.add a b = F32.add b a.
Proof.
  unfold F32.add.
  destruct a as [sa|sa| |sa ma ea], b as [sb|sb| |sb mb eb]; simpl; try reflexivity.
  - destruct sa, sb; reflexivity.
  - destruct sa, sb; reflexivity.
  - rewrite (Z.min_comm eb ea). f_equal. apply Z.add_comm.
Qed.

Lemma circle_distance_symmetric size x y :
  circle_distance size x y = circle_distance size y x.
Proof. unfold circle_distance. f_equal. f_equal. apply f32_add_comm. Qed.

(** X16. The circle tile holds at [(x, y)] the byte encoding of
    [sqrt(px*px + py*py) - radius], and it is symmetric about its diagonal. *)
Theorem circle_sdf_is_symmetric size range :
  0 <= size ->
  exists image,
    result_of (generate_circle_sdf size range) = Ok image /\
    width image = size /\ height image = size /\
    forall x y, 0 <= x < size -> 0 <= y < size ->
      pixel_at image x y = normalize (circle_distance size x y) range /\
      pixel_at image x y = pixel_at image y x.
Proof.
  intros Hsize.
  destruct (returns_result _ _ _
              (generate_circle_sdf_returns size range (fun _ => True) Hsize))
    as (image & Hres & (Hw & Hh & Hpx) & _).
  exists image. split; [exact Hres|]. split; [exact Hw|]. split; [exact Hh|].
  intros x y Hx Hy. split; [now apply Hpx|].
  rewrite (Hpx x y Hx Hy), (Hpx y x Hy Hx). now rewrite circle_distance_symmetric.
Qed.

Lemma circle_sdf_is_symmetric_witness :
  exists image,
    result_of (generate_circle_sdf 8 range4) = Ok image /\
    width image = 8 /\ height image = 8 /\
    forall x y, 0 <= x < 8 -> 0 <= y < 8 ->
      pixel_at image x y = normalize (circle_distance 8 x y) range4 /\
      pixel_at image x y = pixel_at image y x.
Proof. apply (circle_sdf_is_symmetric 8 range4). lia. Defined.

Lemma bind_Ok_intro {A B} (m : M A) (k : A -> M B) (a : A) (b : B) :
  result_of m = Ok a -> result_of (k a) = Ok b -> result_of (bind m k) = Ok b.
Proof.
  destruct m as [o log]. simpl. intros ->. simpl.
  destruct (k a) as [r log']. simpl. auto.
Qed.

(** [generate] after its tiles are made and packed. *)
Lemma generate_from_tiles oc filter FontData fs_read generate_character_sdfs
    generate_basic_shapes utc_now config characters shapes sdf_images atlas positions :
  result_of (generate_tiles FontData fs_read generate_character_sdfs
               generate_basic_shapes config) = Ok (characters, shapes, sdf_images) ->
  result_of (pack_atlas oc filter sdf_images (cfg_atlas_size config)
               (cfg_padding config)) = Ok (atlas, positions) ->
  exists res,
    result_of (generate oc filter FontData fs_read generate_character_sdfs
                 generate_basic_shapes utc_now config) = Ok res /\
    sprite_sheet res = ImageRgba8 atlas /\
    reg_characters (registry res)
      = fst (update_positions (map_to_list positions) characters shapes) /\
    reg_shapes (registry res)
      = snd (update_positions (map_to_list positions) characters shapes).
Proof.
  intros Htiles Hpack. unfold generate.
  destruct (update_positions (map_to_list positions) characters shapes)
    as [characters' shapes'] eqn:Hupdate.
  eexists. split.
  - eapply bind_Ok_intro; [exact Htiles|]. cbv beta iota.
    eapply bind_Ok_intro; [exact Hpack|]. cbv beta iota.
    rewrite Hupdate. reflexivity.
  - simpl. auto.
Qed.

Lemma generate_tiles_shapes_only FontData fs_read generate_character_sdfs
    generate_basic_shapes config shape_sdfs :
  cfg_font_path config = None ->
  cfg_include_shapes config = true ->
  result_of (generate_basic_shapes (cfg_sdf_size config) (cfg_sdf_range config))
    = Ok shape_sdfs ->
  result_of (generate_tiles FontData fs_read generate_character_sdfs
               generate_basic_shapes config)
  = Ok (∅,
        fst (foldl (add_shape (cfg_sdf_size config)) (∅, []) (map_to_list shape_sdfs)),
        snd (foldl (add_shape (cfg_sdf_size config)) (∅, []) (map_to_list shape_sdfs))).
Proof.
  intros Hfont Hshapes Hres. unfold generate_tiles. rewrite Hfont, Hshapes.
  eapply bind_Ok_intro; [reflexivity|]. cbv beta iota.
  eapply bind_Ok_intro.
  - eapply bind_Ok_intro; [exact Hres|]. reflexivity.
  - cbv beta.
    destruct (foldl (add_shape (cfg_sdf_size config)) (∅, []) (map_to_list shape_sdfs)).
    reflexivity.
Qed.

(** X17. The pipeline with shapes only: when the cell of a 2 x 2 grid holds
    twice the padding, [generate] succeeds with no character and exactly the
    three shapes, each of width and height [sdf_size] and placed at the
    origin of one of the first three grid cells. *)
Theorem generate_shapes_only oc filter FontData fs_read generate_character_sdfs
    utc_now config :
  cfg_font_path config = None ->
  cfg_include_shapes config = true ->
  0 <= cfg_sdf_size config ->
  0 < cfg_atlas_size config <= u32_max ->
  0 <= cfg_padding config ->
  2 * cfg_padding config <= cfg_atlas_size config / 2 ->
  exists res,
    result_of (generate oc filter FontData fs_read generate_character_sdfs
                 generate_basic_shapes utc_now config) = Ok res /\
    reg_characters (registry res) = ∅ /\
    (forall name, is_Some (reg_shapes (registry res) !! name) <-> name ∈ shape_names) /\
    (forall name info, reg_shapes (registry res) !! name = Some info ->
       si_width info = cfg_sdf_size config /\
       si_height info = cfg_sdf_size config /\
       exists i, 0 <= i < 3 /\
         si_x info = i mod 2 * (cfg_atlas_size config / 2) + cfg_padding config /\
         si_y info = i / 2 * (cfg_atlas_size config / 2) + cfg_padding config).
Proof.
  intros Hfont Hshapes Hsize Hatlas Hpadding Hcontent.
  destruct (returns_result _ _ _
              (generate_basic_shapes_returns (cfg_sdf_size config) (cfg_sdf_range config)
                 (fun _ => True) Hsize))
    as (shape_sdfs & Hres & (circle & triangle & square & Hmap & _) & _).
  pose proof (generate_tiles_shapes_only FontData fs_read generate_character_sdfs
                generate_basic_shapes config shape_sdfs Hfont Hshapes Hres) as Htiles.
  pose proof (foldl_add_shape (cfg_sdf_size config) (map_to_list shape_sdfs) ∅ [])
    as [Hdom Hids].
  pose proof (foldl_add_shape_sizes (cfg_sdf_size config) (map_to_list shape_sdfs) ∅ [])
    as Hsizes.
  destruct (foldl (add_shape (cfg_sdf_size config)) (∅, []) (map_to_list shape_sdfs))
    as [shapes sdf_images].
  simpl in Htiles, Hdom, Hids, Hsizes.
  assert (Hkeys : forall name, is_Some (shapes !! name) <-> name ∈ shape_names).
  { intros name. rewrite Hdom, lookup_empty.
    change (map fst (map_to_list shape_sdfs)) with ((map_to_list shape_sdfs).*1).
    assert (Hin : name ∈ (map_to_list shape_sdfs).*1 <-> is_Some (shape_sdfs !! name)).
    { rewrite list_elem_of_fmap. split.
      - intros ([n v] & -> & Hnv). apply elem_of_map_to_list in Hnv. simpl. eauto.
      - intros [v Hv]. exists (name, v). split; [reflexivity|].
        now apply elem_of_map_to_list. }
    rewrite Hin, Hmap, three_shapes_keys. split; [|tauto].
    intros [?|[? ?]]; [assumption|discriminate]. }
  assert (Hlen : Z.of_nat (length sdf_images) = 3).
  { rewrite <- (length_map fst sdf_images), Hids. simpl. rewrite length_map.
    rewrite length_map_to_list, Hmap.
    rewrite !map_size_insert_None, map_size_empty; [reflexivity| | |];
      repeat (rewrite lookup_insert_ne by discriminate); apply lookup_empty. }
  assert (Hgrid : ceil_sqrt (Z.of_nat (length sdf_images)) = 2)
    by (rewrite Hlen; reflexivity).
  destruct (returns_result _ _ _
              (pack_atlas_returns oc filter sdf_images (cfg_atlas_size config)
                 (cfg_padding config)
                 ltac:(rewrite Hlen; unfold max_exact_count; lia) ltac:(lia) Hpadding
                 ltac:(rewrite Hgrid; exact Hcontent)))
    as ([atlas positions] & Hpack & Hpos & _).
  simpl in Hpos.
  destruct (generate_from_tiles oc filter FontData fs_read generate_character_sdfs
              generate_basic_shapes utc_now config _ _ _ _ _ Htiles Hpack)
    as (res & Hgen & _ & Hregc & Hregs).
  pose proof (pack_atlas_Ok_ids _ _ _ _ _ _ _ Hpack) as Hplaced.
  rewrite Hids in Hplaced. simpl in Hplaced.
  assert (Htile_ids : forall id, id ∈ map fst (map_to_list positions) ->
            exists k, id = tile_id_of k).
  { intros id Hin. apply list_elem_of_fmap in Hin. destruct Hin as ([id' pos] & -> & Hin).
    apply elem_of_map_to_list in Hin. simpl.
    assert (Hsome : is_Some (positions !! id')) by eauto.
    apply Hplaced, list_elem_of_fmap in Hsome. destruct Hsome as ([name image] & -> & _).
    now exists (ShapeKey name). }
  pose proof (update_positions_lookup (map_to_list positions) ∅ shapes
                (NoDup_fst_map_to_list positions) Htile_ids) as Hlookup.
  cbv zeta in Hlookup. rewrite list_to_map_to_list in Hlookup.
  rewrite <- Hregc, <- Hregs in Hlookup. destruct Hlookup as [Hc Hs].
  exists res. split; [exact Hgen|]. split; [|split].
  - apply map_eq. intros ch. rewrite Hc, !lookup_empty. reflexivity.
  - intros name. rewrite Hs, <- Hkeys. unfold is_Some.
    destruct (shapes !! name); simpl; split; intros [? ?]; eauto; discriminate.
  - intros name info Hinfo. rewrite Hs in Hinfo.
    destruct (shapes !! name) as [tile_info|] eqn:Hname; [|discriminate].
    destruct (Hsizes name tile_info Hname) as [->|Hempty];
      [|rewrite lookup_empty in Hempty; discriminate].
    assert (Hsome : is_Some (positions !! shape_tile_id name)).
    { apply Hplaced. apply list_elem_of_fmap.
      assert (Hin : name ∈ (map_to_list shape_sdfs).*1).
      { assert (Hk : is_Some (shapes !! name)) by (rewrite Hname; eauto).
        apply Hdom in Hk. destruct Hk as [Hk|[? Hk]]; [exact Hk|].
        rewrite lookup_empty in Hk. discriminate. }
      apply list_elem_of_fmap in Hin. destruct Hin as (e & -> & He).
      exists e. auto. }
    destruct Hsome as [pos Hlook]. rewrite Hlook in Hinfo.
    simpl in Hinfo. inversion Hinfo; subst info; simpl.
    split; [reflexivity|]. split; [reflexivity|].
    rewrite Hpos in Hlook. apply spec_placements_inv in Hlook.
    destruct Hlook as (i & Hi & ->).
    apply lookup_lt_Some in Hi. rewrite length_map in Hi.
    rewrite length_map, Hlen.
    exists (Z.of_nat i). split; [lia|].
    unfold spec_placement. simpl.
    change (ceil_sqrt 3) with 2. split; reflexivity.
Qed.

Lemma generate_shapes_only_witness :
  exists res,
    result_of (generate true nearest unit sample_fs_read sample_character_sdfs
                 generate_basic_shapes "2025-01-01T00:00:00+00:00" shapes_only_config)
      = Ok res /\
    reg_characters (registry res) = ∅ /\
    (forall name, is_Some (reg_shapes (registry res) !! name) <-> name ∈ shape_names) /\
    (forall name info, reg_shapes (registry res) !! name = Some info ->
       si_width info = cfg_sdf_size shapes_only_config /\
       si_height info = cfg_sdf_size shapes_only_config /\
       exists i, 0 <= i < 3 /\
         si_x info = i mod 2 * (cfg_atlas_size shapes_only_config / 2)
                     + cfg_padding shapes_only_config /\
         si_y info = i / 2 * (cfg_atlas_size shapes_only_config / 2)
                     + cfg_padding shapes_only_config).
Proof.
  apply (generate_shapes_only true nearest unit sample_fs_read sample_character_sdfs
           "2025-01-01T00:00:00+00:00" shapes_only_config).
  - reflexivity.
  - reflexivity.
  - simpl. lia.
  - simpl. unfold u32_max. lia.
  - simpl. lia.
  - vm_compute. discriminate.
Defined.

(** ** The character tiles *)

Lemma normalize_is_byte distance range : 0 <= normalize distance range <= 255.
Proof.
  unfold normalize, F32.to_u8, F32.to_int.
  destruct (F32.clamp _ _ _) as [s|s| |s m e]; try lia.
  destruct s; lia.
Qed.

Lemma channels_ordered_all :
  forallb (fun code => forallb (channels_ordered code) (seqZ 0 256)) (seqZ 0 10) = true.
Proof. vm_compute. reflexivity. Qed.

Lemma channels_ordered_spec ch normalized :
  0 <= normalized <= 255 ->
  0 <= blue_of (pattern_freq_of ch) normalized <= normalized /\
  normalized <= green_of (pattern_freq_of ch) normalized <= 255.
Proof.
  intros Hn. pose proof channels_ordered_all as Hall.
  rewrite forallb_forall in Hall.
  assert (Hcode : 0 <= char_code ch mod 10 < 10) by (apply Z.mod_pos_bound; lia).
  specialize (Hall (char_code ch mod 10)
                ltac:(apply list_elem_of_In, elem_of_seqZ; lia)).
  rewrite forallb_forall in Hall.
  specialize (Hall normalized ltac:(apply list_elem_of_In, elem_of_seqZ; lia)).
  unfold channels_ordered in Hall. fold (pattern_freq_of ch) in Hall.
  rewrite !andb_true_iff, !Z.leb_le in Hall. lia.
Qed.

Lemma placeholder_returns ch size range multi_channel R :
  0 <= size ->
  returns (generate_character_placeholder_sdf ch size range multi_channel)
    (fun image =>
       if multi_channel then
         exists rgb : RgbImage, image = ImageRgb8 rgb /\
           width rgb = size /\ height rgb = size /\
           forall x y, 0 <= x < size -> 0 <= y < size ->
             pixel_at rgb x y =
               (normalize (placeholder_distance size x y) range,
                green_of (pattern_freq_of ch)
                  (normalize (placeholder_distance size x y) range),
                blue_of (pattern_freq_of ch)
                  (normalize (placeholder_distance size x y) range))
       else
         exists gray : GrayImage, image = ImageLuma8 gray /\
           width gray = size /\ height gray = size /\
           forall x y, 0 <= x < size -> 0 <= y < size ->
             pixel_at gray x y = normalize (placeholder_distance size x y) range)
    R.
Proof.
  intros Hsize. unfold generate_character_placeholder_sdf.
  destruct multi_channel.
  - eapply returns_bind.
    { apply (paint_image_returns size size
               (fun x y =>
                  (normalize (placeholder_distance size x y) range,
                   green_of (pattern_freq_of ch)
                     (normalize (placeholder_distance size x y) range),
                   blue_of (pattern_freq_of ch)
                     (normalize (placeholder_distance size x y) range)))); auto. }
    intros rgb (Hw & Hh & Hpx). apply returns_ret. exists rgb.
    split; [reflexivity|]. split; [exact Hw|]. split; [exact Hh|exact Hpx].
  - eapply returns_bind.
    { apply (paint_image_returns size size
               (fun x y => normalize (placeholder_distance size x y) range)); auto. }
    intros gray (Hw & Hh & Hpx). apply returns_ret. exists gray.
    split; [reflexivity|]. split; [exact Hw|]. split; [exact Hh|exact Hpx].
Qed.

(** X18. The character tile does not depend on the character in
    single-channel mode; in multi-channel mode its red channel is the
    single-channel value, its green channel is not below and its blue channel
    not above it, for every character. *)
Theorem placeholder_channels ch ch' size range :
  0 <= size ->
  exists (gray : GrayImage) (rgb : RgbImage),
    result_of (generate_character_placeholder_sdf ch size range false)
      = Ok (ImageLuma8 gray) /\
    result_of (generate_character_placeholder_sdf ch' size range true)
      = Ok (ImageRgb8 rgb) /\
    (width gray = size /\ height gray = size) /\
    (width rgb = size /\ height rgb = size) /\
    forall x y, 0 <= x < size -> 0 <= y < size ->
      exists g b,
        pixel_at rgb x y = (pixel_at gray x y, g, b) /\
        0 <= b <= pixel_at gray x y /\ pixel_at gray x y <= g <= 255.
Proof.
  intros Hsize.
  destruct (returns_result _ _ _
              (placeholder_returns ch size range false (fun _ => True) Hsize))
    as (image1 & Hres1 & (gray & -> & Hgw & Hgh & Hgray) & _).
  destruct (returns_result _ _ _
              (placeholder_returns ch' size range true (fun _ => True) Hsize))
    as (image2 & Hres2 & (rgb & -> & Hrw & Hrh & Hrgb) & _).
  exists gray, rgb. split; [exact Hres1|]. split; [exact Hres2|].
  split; [auto|]. split; [auto|].
  intros x y Hx Hy. rewrite (Hrgb x y Hx Hy), (Hgray x y Hx Hy).
  eexists _, _. split; [reflexivity|].
  apply channels_ordered_spec. apply normalize_is_byte.
Qed.

Lemma placeholder_channels_witness :
  exists (gray : GrayImage) (rgb : RgbImage),
    result_of (generate_character_placeholder_sdf "a" 8 range4 false)
      = Ok (ImageLuma8 gray) /\
    result_of (generate_character_placeholder_sdf "z" 8 range4 true)
      = Ok (ImageRgb8 rgb) /\
    (width gray = 8 /\ height gray = 8) /\
    (width rgb = 8 /\ height rgb = 8) /\
    forall x y, 0 <= x < 8 -> 0 <= y < 8 ->
      exists g b,
        pixel_at rgb x y = (pixel_at gray x y, g, b) /\
        0 <= b <= pixel_at gray x y /\ pixel_at gray x y <= g <= 255.
Proof. apply (placeholder_channels "a" "z" 8 range4). lia. Defined.

Lemma returns_with_result {A} (m : M A) Q R :
  returns m Q R -> returns m (fun a => result_of m = Ok a /\ Q a) R.
Proof. intros (a & log & -> & Ha & Hlog). exists a, log. auto. Qed.

(** X19. With a font that parses, [generate_character_sdfs] returns an entry
    for exactly the requested characters that have a glyph; each entry has
    the metrics of its glyph, width and height [sdf_size], and the tile of
    its character, an image of [sdf_size x sdf_size]. *)
Theorem generate_character_sdfs_entries (FontData : Type)
    (parse : FontData -> Face + string) font_data face characters sdf_size range
    multi_channel :
  parse font_data = inl face ->
  0 <= sdf_size ->
  let scale := F32.div (F32.of_Z sdf_size) (F32.of_Z (units_per_em face)) in
  exists results,
    result_of (generate_character_sdfs FontData parse font_data characters sdf_size
                 range multi_channel) = Ok results /\
    (forall ch, is_Some (results !! ch) <->
       ch ∈ list_ascii_of_string characters /\ is_Some (glyph_index face ch)) /\
    (forall ch sdf, results !! ch = Some sdf ->
       exists glyph_id image,
         glyph_index face ch = Some glyph_id /\
         result_of (generate_character_placeholder_sdf ch sdf_size range multi_channel)
           = Ok image /\
         sdf = character_sdf_of face scale sdf_size glyph_id image /\
         sdf_width sdf = sdf_size /\ sdf_height sdf = sdf_size /\
         width (to_rgba8 image) = sdf_size /\ height (to_rgba8 image) = sdf_size).
Proof.
  intros Hparse Hsize scale. unfold generate_character_sdfs. rewrite Hparse.
  fold scale.
  set (J := fun (pre : list ascii) (results : gmap ascii CharacterSdf) =>
    (forall ch, is_Some (results !! ch) <->
       ch ∈ pre /\ is_Some (glyph_index face ch)) /\
    (forall ch sdf, results !! ch = Some sdf ->
       exists glyph_id image,
         glyph_index face ch = Some glyph_id /\
         result_of (generate_character_placeholder_sdf ch sdf_size range multi_channel)
           = Ok image /\
         sdf = character_sdf_of face scale sdf_size glyph_id image /\
         sdf_width sdf = sdf_size /\ sdf_height sdf = sdf_size /\
         width (to_rgba8 image) = sdf_size /\ height (to_rgba8 image) = sdf_size)).
  assert (Hloop : returns
            (for_each (list_ascii_of_string characters)
               (fun ch results =>
                  match glyph_index face ch with
                  | Some glyph_id =>
                      let! sdf_image :=
                        generate_character_placeholder_sdf ch sdf_size range
                          multi_channel in
                      ret (<[ch := character_sdf_of face scale sdf_size glyph_id
                                     sdf_image]> results)
                  | None => ret results
                  end) ∅)
            (J (list_ascii_of_string characters)) (fun _ => True)).
  { apply returns_for_each_prefix.
    - split.
      + intros ch. rewrite lookup_empty, elem_of_nil.
        split; [intros [? ?]; discriminate|tauto].
      + intros ch sdf Hlook. rewrite lookup_empty in Hlook. discriminate.
    - intros pre ch0 post results _ [Hkeys Hvals].
      destruct (glyph_index face ch0) as [glyph_id|] eqn:Hglyph.
      + eapply returns_bind.
        { apply returns_with_result. apply placeholder_returns. exact Hsize. }
        intros image [Himage Hdims]. apply returns_ret. split.
        * intros ch. rewrite lookup_insert_is_Some, Hkeys, elem_of_app,
            list_elem_of_singleton.
          destruct (decide (ch0 = ch)) as [<-|Hne].
          -- rewrite Hglyph. split; [intros _; split; eauto|auto].
          -- split; [intros [?|[_ [? ?]]]; [congruence|tauto]|].
             intros [[?|?] ?]; [right; tauto|congruence].
        * intros ch sdf Hlook.
          destruct (decide (ch0 = ch)) as [<-|Hne].
          -- rewrite lookup_insert_eq in Hlook. inversion Hlook; subst sdf.
             exists glyph_id, image. split; [exact Hglyph|]. split; [exact Himage|].
             split; [reflexivity|].
             assert (Hw : width (to_rgba8 image) = sdf_size /\
                          height (to_rgba8 image) = sdf_size).
             { destruct multi_channel.
               - destruct Hdims as (rgb & -> & Hw & Hh & _). simpl. auto.
               - destruct Hdims as (gray & -> & Hw & Hh & _). simpl. auto. }
             unfold character_sdf_of.
             destruct (glyph_bounding_box face glyph_id); simpl; tauto.
          -- rewrite lookup_insert_ne in Hlook by exact Hne. now apply Hvals.
      + apply returns_ret. split.
        * intros ch. rewrite Hkeys, elem_of_app, list_elem_of_singleton.
          split; [tauto|]. intros [[? | ->] Hsome]; [tauto|].
          rewrite Hglyph in Hsome. destruct Hsome. discriminate.
        * exact Hvals. }
  destruct (returns_result _ _ _ Hloop) as (results & Hres & [Hkeys Hvals] & _).
  exists results. auto.
Qed.
Lemma generate_character_sdfs_entries_witness :
  let scale := F32.div (F32.of_Z 8) (F32.of_Z (units_per_em sample_face)) in
  exists results,
    result_of (generate_character_sdfs (list Z) sample_parse [0; 1; 0; 0] "ab1" 8
                 range4 false) = Ok results /\
    (forall ch, is_Some (results !! ch) <->
       ch ∈ list_ascii_of_string "ab1" /\ is_Some (glyph_index sample_face ch)) /\
    (forall ch sdf, results !! ch = Some sdf ->
       exists glyph_id image,
         glyph_index sample_face ch = Some glyph_id /\
         result_of (generate_character_placeholder_sdf ch 8 range4 false) = Ok image /\
         sdf = character_sdf_of sample_face scale 8 glyph_id image /\
         sdf_width sdf = 8 /\ sdf_height sdf = 8 /\
         width (to_rgba8 image) = 8 /\ height (to_rgba8 image) = 8).
Proof.
  apply (generate_character_sdfs_entries (list Z) sample_parse [0; 1; 0; 0]
           sample_face "ab1" 8 range4 false).
  - reflexivity.
  - lia.
Defined.

Lemma foldl_add_character_lookup (l : list (ascii * CharacterSdf)) characters sdf_images :
  let r := foldl add_character (characters, sdf_images) l in
  forall ch info, fst r !! ch = Some info ->
    (exists sdf_data, (ch, sdf_data) ∈ l /\ info = character_info_of sdf_data)
    \/ characters !! ch = Some info.
Proof.
  revert characters sdf_images.
  induction l as [|[ch0 sdf_data] l IH]; intros characters sdf_images; simpl.
  - auto.
  - intros ch info Hinfo. apply IH in Hinfo.
    destruct Hinfo as [(sdf & Hin & ->)|Hinfo].
    + left. exists sdf. split; [now apply list_elem_of_further|reflexivity].
    + destruct (decide (ch0 = ch)) as [<-|Hne].
      * rewrite lookup_insert_eq in Hinfo. left. exists sdf_data.
        split; [apply list_elem_of_here|]. inversion Hinfo. reflexivity.
      * rewrite lookup_insert_ne in Hinfo by exact Hne. now right.
Qed.

(** The entries of the tiles come from the collaborators' results. *)
Lemma generate_tiles_Ok_sources FontData fs_read generate_character_sdfs
    generate_basic_shapes config characters shapes sdf_images :
  result_of (generate_tiles FontData fs_read generate_character_sdfs
               generate_basic_shapes config) = Ok (characters, shapes, sdf_images) ->
  (forall ch info, characters !! ch = Some info ->
     exists font_path font_data character_sdfs sdf_data,
       cfg_font_path config = Some font_path /\
       result_of (fs_read font_path) = Ok font_data /\
       result_of (generate_character_sdfs font_data (cfg_characters config)
                    (cfg_sdf_size config) (cfg_sdf_range config)
                    (cfg_multi_channel config)) = Ok character_sdfs /\
       character_sdfs !! ch = Some sdf_data /\
       info = character_info_of sdf_data) /\
  (forall name, is_Some (shapes !! name) ->
     exists shape_sdfs,
       cfg_include_shapes config = true /\
       result_of (generate_basic_shapes (cfg_sdf_size config) (cfg_sdf_range config))
         = Ok shape_sdfs /\
       is_Some (shape_sdfs !! name)).
Proof.
  unfold generate_tiles. intros H.
  apply bind_Ok_inv in H. destruct H as ([cs ims] & Hchars & H).
  apply bind_Ok_inv in H. destruct H as ([ss ims'] & Hshapes & H).
  inversion H; subst cs ss ims'. clear H. split.
  - intros ch info Hinfo.
    destruct (cfg_font_path config) as [font_path|].
    + apply bind_Ok_inv in Hchars. destruct Hchars as (font_data & Hread & Hchars).
      apply bind_Ok_inv in Hchars. destruct Hchars as (character_sdfs & Hsdfs & Hchars).
      inversion Hchars as [Hfold]. clear Hchars.
      pose proof (foldl_add_character_lookup (map_to_list character_sdfs) ∅ [] ch info)
        as Hlook.
      simpl in Hlook. rewrite Hfold in Hlook. simpl in Hlook.
      destruct (Hlook Hinfo) as [(sdf_data & Hin & ->)|Hempty];
        [|rewrite lookup_empty in Hempty; discriminate].
      apply elem_of_map_to_list in Hin.
      exists font_path, font_data, character_sdfs, sdf_data. auto.
    + inversion Hchars; subst. rewrite lookup_empty in Hinfo. discriminate.
  - intros name Hname.
    destruct (cfg_include_shapes config).
    + apply bind_Ok_inv in Hshapes. destruct Hshapes as (shape_sdfs & Hsdfs & Hshapes).
      inversion Hshapes as [Hfold]. clear Hshapes.
      pose proof (foldl_add_shape (cfg_sdf_size config) (map_to_list shape_sdfs) ∅ ims)
        as [Hdom _].
      rewrite Hfold in Hdom. simpl in Hdom.
      apply Hdom in Hname. destruct Hname as [Hin|[? Hempty]];
        [|rewrite lookup_empty in Hempty; discriminate].
      exists shape_sdfs. split; [reflexivity|]. split; [exact Hsdfs|].
      apply list_elem_of_fmap in Hin. destruct Hin as ([n v] & -> & Hnv).
      apply elem_of_map_to_list in Hnv. simpl. eauto.
    + inversion Hshapes; subst. rewrite lookup_empty in Hname.
      destruct Hname. discriminate.
Qed.

Lemma generate_character_sdfs_Ok_inv FontData parse font_data characters sdf_size range
    multi_channel results :
  result_of (generate_character_sdfs FontData parse font_data characters sdf_size
               range multi_channel) = Ok results ->
  forall ch sdf_data, results !! ch = Some sdf_data ->
    ch ∈ list_ascii_of_string characters /\
    sdf_width sdf_data = sdf_size /\ sdf_height sdf_data = sdf_size.
Proof.
  unfold generate_character_sdfs.
  destruct (parse font_data) as [face|e]; [|discriminate].
  apply (for_each_Ok_inv
           (fun pre (results : gmap ascii CharacterSdf) =>
              forall ch sdf_data, results !! ch = Some sdf_data ->
                ch ∈ pre /\
                sdf_width sdf_data = sdf_size /\ sdf_height sdf_data = sdf_size)).
  - intros ch sdf_data Hlook. rewrite lookup_empty in Hlook. discriminate.
  - intros pre ch0 results0 results1 Hpre Hbody ch sdf_data Hlook.
    rewrite elem_of_app, list_elem_of_singleton.
    destruct (glyph_index face ch0) as [glyph_id|].
    + apply bind_Ok_inv in Hbody. destruct Hbody as (image & _ & Hbody).
      inversion Hbody; subst results1. clear Hbody.
      destruct (decide (ch0 = ch)) as [<-|Hne].
      * rewrite lookup_insert_eq in Hlook. inversion Hlook; subst sdf_data.
        split; [now right|]. unfold character_sdf_of.
        destruct (glyph_bounding_box face glyph_id); simpl; auto.
      * rewrite lookup_insert_ne in Hlook by exact Hne.
        destruct (Hpre ch sdf_data Hlook) as [? ?]. auto.
    + inversion Hbody; subst results1.
      destruct (Hpre ch sdf_data Hlook) as [? ?]. auto.
Qed.

(** X20. In the pipeline with the font and shape generators of the
    repository, every registry entry of a successful run has the width and
    height [sdf_size], whatever the rectangle it was packed into; the
    characters are among those requested and the shapes among circle,
    triangle and square. *)
Theorem pipeline_entries_have_tile_size oc filter FontData fs_read parse utc_now
    config res :
  0 <= cfg_sdf_size config ->
  result_of (generate oc filter FontData fs_read (generate_character_sdfs FontData parse)
               generate_basic_shapes utc_now config) = Ok res ->
  (forall ch info, reg_characters (registry res) !! ch = Some info ->
     ch ∈ list_ascii_of_string (cfg_characters config) /\
     ci_width info = cfg_sdf_size config /\ ci_height info = cfg_sdf_size config) /\
  (forall name info, reg_shapes (registry res) !! name = Some info ->
     name ∈ shape_names /\
     si_width info = cfg_sdf_size config /\ si_height info = cfg_sdf_size config).
Proof.
  intros Hsize H.
  destruct (generate_Ok_inv _ _ _ _ _ _ _ _ _ H)
    as (characters & shapes & sdf_images & atlas & positions & Htiles & Hpack &
        Hc & Hs & Hcp & Hsp).
  destruct (generate_tiles_Ok_sources _ _ _ _ _ _ _ _ Htiles) as [Hcsrc Hssrc].
  split.
  - intros ch info Hinfo. rewrite Hc in Hinfo.
    destruct (characters !! ch) as [tile_info|] eqn:Hch; [|discriminate].
    destruct (Hcsrc ch tile_info Hch)
      as (font_path & font_data & character_sdfs & sdf_data & _ & _ & Hsdfs & Hlook & ->).
    destruct (generate_character_sdfs_Ok_inv _ _ _ _ _ _ _ _ Hsdfs ch sdf_data Hlook)
      as (Hin & Hw & Hh).
    simpl in Hinfo. inversion Hinfo; subst info.
    split; [exact Hin|].
    destruct (positions !! char_tile_id ch); simpl; auto.
  - intros name info Hinfo. rewrite Hs in Hinfo.
    destruct (shapes !! name) as [tile_info|] eqn:Hname; [|discriminate].
    destruct (Hssrc name ltac:(rewrite Hname; eauto)) as (shape_sdfs & _ & Hsdfs & Hsome).
    rewrite (generate_tiles_shape_sizes _ _ _ _ _ _ _ _ Htiles name tile_info Hname)
      in Hinfo.
    simpl in Hinfo. inversion Hinfo; subst info.
    split.
    + destruct (returns_result _ _ _
                  (generate_basic_shapes_returns (cfg_sdf_size config)
                     (cfg_sdf_range config) (fun _ => True) Hsize))
        as (shape_sdfs' & Hres & (circle & triangle & square & Hmap & _) & _).
      assert (Heq : shape_sdfs = shape_sdfs') by congruence.
      rewrite Heq, Hmap in Hsome. now apply three_shapes_keys in Hsome.
    + destruct (positions !! shape_tile_id name); simpl; auto.
Qed.

Lemma pipeline_entries_have_tile_size_witness :
  exists res,
    result_of (generate true nearest (list Z) sample_font_read
                 (generate_character_sdfs (list Z) sample_parse)
                 generate_basic_shapes "2025-01-01T00:00:00+00:00" small_config)
      = Ok res /\
    (forall ch info, reg_characters (registry res) !! ch = Some info ->
       ch ∈ list_ascii_of_string (cfg_characters small_config) /\
       ci_width info = cfg_sdf_size small_config /\
       ci_height info = cfg_sdf_size small_config) /\
    (forall name info, reg_shapes (registry res) !! name = Some info ->
       name ∈ shape_names /\
       si_width info = cfg_sdf_size small_config /\
       si_height info = cfg_sdf_size small_config).
Proof.
  eexists. split.
  - vm_compute. reflexivity.
  - apply (pipeline_entries_have_tile_size true nearest (list Z) sample_font_read
             sample_parse "2025-01-01T00:00:00+00:00" small_config).
    + simpl. lia.
    + vm_compute. reflexivity.
Defined.

(** ** The utilities *)

Lemma bind_ext {A B} (m1 m2 : M A) (k1 k2 : A -> M B) :
  m1 = m2 -> (forall a, k1 a = k2 a) -> bind m1 k1 = bind m2 k2.
Proof.
  intros <- Hk. destruct m1 as [[a|e|p] log]; simpl; auto. now rewrite Hk.
Qed.

Lemma for_each_ext {A S} (l : list A) (body1 body2 : A -> S -> M S) (s : S) :
  (forall a s, body1 a s = body2 a s) ->
  for_each l body1 s = for_each l body2 s.
Proof.
  intros Hbody. revert s. induction l as [|a l IH]; intros s; simpl; [reflexivity|].
  apply bind_ext; auto.
Qed.

(** Reading a pixel and using only its class. *)
Lemma get_pixel_class_ext {B} (m1 m2 : GrayImage) x y (k : bool -> M B) :
  same_classes m1 m2 ->
  bind (get_pixel m1 x y) (fun p => k (is_inside_pixel p))
  = bind (get_pixel m2 x y) (fun p => k (is_inside_pixel p)).
Proof.
  intros (Hw & Hh & Hclass). unfold get_pixel.
  assert (Hb : in_bounds m2 x y = in_bounds m1 x y)
    by (unfold in_bounds; now rewrite Hw, Hh).
  rewrite Hb. destruct (in_bounds m1 x y) eqn:Hin; [|reflexivity].
  simpl. now rewrite (Hclass x y Hin).
Qed.

Lemma scan_neighbor_ext oc (m1 m2 : GrayImage) x y is_inside dy dx min_distance :
  same_classes m1 m2 ->
  scan_neighbor oc m1 x y is_inside dy dx min_distance
  = scan_neighbor oc m2 x y is_inside dy dx min_distance.
Proof.
  intros Hsame. pose proof Hsame as (Hw & Hh & _). unfold scan_neighbor.
  apply bind_ext; [reflexivity|]. intros nx.
  apply bind_ext; [reflexivity|]. intros ny.
  rewrite Hw, Hh. destruct (_ && _); [|reflexivity].
  apply (get_pixel_class_ext m1 m2 (wrap_u32 nx) (wrap_u32 ny)
           (fun neighbor_inside =>
              if negb (eqb is_inside neighbor_inside) then
                let! dx2 := i32_mul oc dx dx in
                let! dy2 := i32_mul oc dy dy in
                let! d2 := i32_add oc dx2 dy2 in
                ret (F32.min min_distance (F32.sqrt (F32.of_Z d2)))
              else ret min_distance) Hsame).
Qed.

Lemma calculate_distance_to_edge_ext oc (m1 m2 : GrayImage) x y max_range :
  same_classes m1 m2 ->
  calculate_distance_to_edge oc m1 x y max_range
  = calculate_distance_to_edge oc m2 x y max_range.
Proof.
  intros Hsame. unfold calculate_distance_to_edge.
  set (k := fun (m : GrayImage) (is_inside : bool) =>
    let search_radius := search_radius_of max_range in
    let! lo := i32_neg oc search_radius in
    let! min_distance :=
      for_range_incl lo search_radius (fun dy min_distance =>
        for_range_incl lo search_radius (fun dx min_distance =>
          scan_neighbor oc m x y is_inside dy dx min_distance)
        min_distance)
      max_range in
    ret (if is_inside then F32.neg min_distance else min_distance)).
  transitivity (bind (get_pixel m1 x y) (fun p => k m2 (is_inside_pixel p))).
  - apply bind_ext; [reflexivity|]. intros current_pixel. unfold k. cbv zeta.
    apply bind_ext; [reflexivity|]. intros lo.
    apply bind_ext; [|reflexivity].
    unfold for_range_incl. apply for_each_ext. intros dy min_distance.
    apply for_each_ext. intros dx min_distance'.
    now apply scan_neighbor_ext.
  - exact (get_pixel_class_ext m1 m2 x y (k m2) Hsame).
Qed.

Lemma generate_sdf_from_mask_ext oc (m1 m2 : GrayImage) range :
  same_classes m1 m2 ->
  generate_sdf_from_mask oc m1 range = generate_sdf_from_mask oc m2 range.
Proof.
  intros Hsame. pose proof Hsame as (Hw & Hh & _). unfold generate_sdf_from_mask.
  rewrite Hw, Hh. unfold for_range. apply for_each_ext. intros y sdf.
  apply for_each_ext. intros x sdf'.
  apply bind_ext; [|reflexivity]. now apply calculate_distance_to_edge_ext.
Qed.

(** X21. The distance field depends on the mask only through its dimensions
    and the class (inside or outside) of its pixels: two such masks give the
    same distances, the same single-channel and the same multi-channel
    field, reads and panics included. *)
Theorem sdf_depends_on_classes_only oc (m1 m2 : GrayImage) range :
  same_classes m1 m2 ->
  (forall x y, calculate_distance_to_edge oc m1 x y range
               = calculate_distance_to_edge oc m2 x y range) /\
  generate_sdf_from_mask oc m1 range = generate_sdf_from_mask oc m2 range /\
  generate_msdf_from_mask oc m1 range = generate_msdf_from_mask oc m2 range.
Proof.
  intros Hsame. split; [|split].
  - intros x y. now apply calculate_distance_to_edge_ext.
  - now apply generate_sdf_from_mask_ext.
  - unfold generate_msdf_from_mask. now rewrite (generate_sdf_from_mask_ext oc m1 m2).
Qed.

Lemma create_mask_returns (image : GrayImage) threshold :
  0 <= width image -> 0 <= height image ->
  returns (create_mask image threshold)
    (fun mask => width mask = width image /\ height mask = height image /\
       forall x y, 0 <= x < width image -> 0 <= y < height image ->
         pixel_at mask x y = if threshold <? pixel_at image x y then 255 else 0)
    (read_in_bounds image).
Proof.
  intros Hw Hh. unfold create_mask.
  apply (fill_image_returns (width image) (height image)
           (fun x y => get_pixel image x y)
           (fun _ _ pixel => if threshold <? pixel then 255 else 0)
           (fun x y => if threshold <? pixel_at image x y then 255 else 0)); auto.
  intros x y Hx Hy.
  eapply returns_weaken.
  { apply returns_get_pixel; [apply in_bounds_true; lia|].
    unfold read_in_bounds. simpl. lia. }
  simpl. intros p ->. reflexivity.
Qed.

Lemma create_mask_same_classes (image mask : GrayImage) :
  width mask = width image -> height mask = height image ->
  (forall x y, 0 <= x < width image -> 0 <= y < height image ->
     pixel_at mask x y = if 128 <? pixel_at image x y then 255 else 0) ->
  same_classes mask image.
Proof.
  intros Hw Hh Hpx. split; [exact Hw|]. split; [exact Hh|].
  intros x y Hin. apply in_bounds_true in Hin. rewrite Hpx by lia.
  unfold is_inside_pixel. destruct (128 <? pixel_at image x y); reflexivity.
Qed.

(** X22. [create_mask] returns a mask of the image's dimensions, 255 where
    the pixel exceeds the threshold and 0 elsewhere, reading only pixels of
    the image; for a threshold below 255, masking the mask again changes
    nothing. *)
Theorem create_mask_thresholds (image : GrayImage) threshold :
  0 <= width image -> 0 <= height image ->
  exists mask,
    result_of (create_mask image threshold) = Ok mask /\
    Forall (read_in_bounds image) (reads_of (create_mask image threshold)) /\
    width mask = width image /\ height mask = height image /\
    (forall x y, 0 <= x < width image -> 0 <= y < height image ->
       pixel_at mask x y = if threshold <? pixel_at image x y then 255 else 0) /\
    (0 <= threshold < 255 ->
     exists mask',
       result_of (create_mask mask threshold) = Ok mask' /\
       forall x y, 0 <= x < width image -> 0 <= y < height image ->
         pixel_at mask' x y = pixel_at mask x y).
Proof.
  intros Hw Hh.
  destruct (returns_result _ _ _ (create_mask_returns image threshold Hw Hh))
    as (mask & Hres & (Hmw & Hmh & Hpx) & Hreads).
  exists mask. split; [exact Hres|]. split; [exact Hreads|].
  split; [exact Hmw|]. split; [exact Hmh|]. split; [exact Hpx|].
  intros Ht.
  destruct (returns_result _ _ _
              (create_mask_returns mask threshold ltac:(lia) ltac:(lia)))
    as (mask' & Hres' & (_ & _ & Hpx') & _).
  exists mask'. split; [exact Hres'|].
  intros x y Hx Hy. rewrite Hpx' by lia. rewrite (Hpx x y Hx Hy).
  destruct (threshold <? pixel_at image x y).
  - destruct (Z.ltb_spec threshold 255); [reflexivity|lia].
  - destruct (Z.ltb_spec threshold 0); [lia|reflexivity].
Qed.

Lemma create_mask_thresholds_witness :
  exists mask,
    result_of (create_mask grey_mask 100) = Ok mask /\
    Forall (read_in_bounds grey_mask) (reads_of (create_mask grey_mask 100)) /\
    width mask = width grey_mask /\ height mask = height grey_mask /\
    (forall x y, 0 <= x < width grey_mask -> 0 <= y < height grey_mask ->
       pixel_at mask x y = if 100 <? pixel_at grey_mask x y then 255 else 0) /\
    (0 <= 100 < 255 ->
     exists mask',
       result_of (create_mask mask 100) = Ok mask' /\
       forall x y, 0 <= x < width grey_mask -> 0 <= y < height grey_mask ->
         pixel_at mask' x y = pixel_at mask x y).
Proof.
  apply (create_mask_thresholds grey_mask 100); simpl; lia.
Defined.

(** X23. Binarising an image at 128 before computing its field changes
    nothing: the mask and the image have the same single-channel and
    multi-channel field. *)
Theorem create_mask_preserves_sdf oc (image : GrayImage) range :
  0 <= width image -> 0 <= height image ->
  exists mask,
    result_of (create_mask image 128) = Ok mask /\
    generate_sdf_from_mask oc mask range = generate_sdf_from_mask oc image range /\
    generate_msdf_from_mask oc mask range = generate_msdf_from_mask oc image range.
Proof.
  intros Hw Hh.
  destruct (returns_result _ _ _ (create_mask_returns image 128 Hw Hh))
    as (mask & Hres & (Hmw & Hmh & Hpx) & _).
  exists mask. split; [exact Hres|].
  pose proof (create_mask_same_classes image mask Hmw Hmh Hpx) as Hsame.
  split.
  - now apply generate_sdf_from_mask_ext.
  - unfold generate_msdf_from_mask.
    now rewrite (generate_sdf_from_mask_ext oc mask image).
Qed.

Lemma create_mask_preserves_sdf_witness :
  exists mask,
    result_of (create_mask grey_mask 128) = Ok mask /\
    generate_sdf_from_mask true mask range4 = generate_sdf_from_mask true grey_mask range4 /\
    generate_msdf_from_mask true mask range4
      = generate_msdf_from_mask true grey_mask range4.
Proof.
  apply (create_mask_preserves_sdf true grey_mask range4); simpl; lia.
Defined.

Lemma sdf_depends_on_classes_only_witness :
  same_classes grey_mask column_mask /\
  (forall x y, calculate_distance_to_edge true grey_mask x y range4
               = calculate_distance_to_edge true column_mask x y range4) /\
  generate_sdf_from_mask true grey_mask range4
    = generate_sdf_from_mask true column_mask range4 /\
  generate_msdf_from_mask true grey_mask range4
    = generate_msdf_from_mask true column_mask range4.
Proof.
  assert (Hsame : same_classes grey_mask column_mask).
  { split; [reflexivity|]. split; [reflexivity|].
    intros x y Hin. apply in_bounds_true in Hin. simpl in Hin.
    assert (Hx : x = 0 \/ x = 1 \/ x = 2) by lia.
    assert (Hy : y = 0 \/ y = 1) by lia.
    destruct Hx as [->|[->| ->]], Hy as [->| ->]; reflexivity. }
  split; [exact Hsame|].
  apply (sdf_depends_on_classes_only true grey_mask column_mask range4 Hsame).
Defined.

Lemma compare_swap (a b : f32) :
  SFcompare b a = option_map CompOpp (SFcompare a b).
Proof.
  destruct a as [sa|sa| |sa ma ea], b as [sb|sb| |sb mb eb]; simpl;
    try reflexivity; try (destruct sa; reflexivity); try (destruct sb; reflexivity);
    try (destruct sa, sb; reflexivity).
  change (Pos.compare_cont Eq mb ma) with (Pos.compare mb ma).
  change (Pos.compare_cont Eq ma mb) with (Pos.compare ma mb).
  rewrite (Z.compare_antisym ea eb), (Pos.compare_antisym ma mb).
  destruct sa, sb; simpl; try reflexivity;
    destruct (ea ?= eb); simpl; try reflexivity;
    destruct (ma ?= mb)%positive; reflexivity.
Qed.

Lemma leb_not_nan (a b : f32) :
  F32.leb a b = true -> F32.is_nan a = false /\ F32.is_nan b = false.
Proof.
  unfold F32.leb, SFleb.
  destruct a as [sa|sa| |sa ma ea], b as [sb|sb| |sb mb eb]; simpl; auto; discriminate.
Qed.

Lemma leb_ltb_false (a b : f32) : F32.leb a b = true -> F32.ltb b a = false.
Proof.
  unfold F32.leb, F32.ltb, SFleb, SFltb. rewrite (compare_swap a b).
  destruct (SFcompare a b) as [[]|]; simpl; congruence.
Qed.

Lemma ltb_false_leb_general (a b : f32) :
  F32.is_nan a = false -> F32.is_nan b = false ->
  F32.ltb a b = false -> F32.leb b a = true.
Proof.
  unfold F32.leb, F32.ltb, SFleb, SFltb. rewrite (compare_swap a b).
  intros Ha Hb.
  assert (Hsome : is_Some (SFcompare a b)).
  { destruct a as [sa|sa| |sa ma ea], b as [sb|sb| |sb mb eb]; simpl in *;
      try discriminate; eauto. }
  destruct Hsome as [c ->]. destruct c; simpl; congruence.
Qed.

Lemma leb_refl_general (a : f32) : F32.is_nan a = false -> F32.leb a a = true.
Proof.
  unfold F32.leb, SFleb.
  destruct a as [sa|sa| |sa ma ea]; simpl; try discriminate; intros _;
    try reflexivity; try (destruct sa; reflexivity).
  change (Pos.compare_cont Eq ma ma) with (Pos.compare ma ma).
  rewrite Z.compare_refl, Pos.compare_refl. destruct sa; reflexivity.
Qed.

Lemma ltb_leb (a b : f32) : F32.ltb a b = true -> F32.leb a b = true.
Proof.
  unfold F32.ltb, F32.leb, SFltb, SFleb.
  destruct (SFcompare a b) as [[]|]; congruence.
Qed.

(** X24. [MathUtils::clamp] with [min <= max] returns a value between [min]
    and [max]; for a NaN value it returns a value equal to [min], and a
    value strictly between the bounds is returned unchanged. *)
Theorem math_clamp_within (value lo hi : f32) :
  F32.leb lo hi = true ->
  F32.leb lo (math_clamp value lo hi) = true /\
  F32.leb (math_clamp value lo hi) hi = true /\
  (F32.is_nan value = true -> F32.leb (math_clamp value lo hi) lo = true) /\
  (F32.ltb lo value = true -> F32.ltb value hi = true ->
   math_clamp value lo hi = value).
Proof.
  intros Hle. destruct (leb_not_nan lo hi Hle) as [Hlo Hhi].
  pose proof (leb_ltb_false lo hi Hle) as Hnlt.
  unfold math_clamp, F32.max, F32.min.
  destruct (F32.is_nan value) eqn:Hnan.
  - rewrite Hlo, Hhi, Hnlt.
    split; [now apply leb_refl_general|]. split; [exact Hle|].
    split; [intros _; now apply leb_refl_general|].
    intros Hv _. apply ltb_leb, leb_not_nan in Hv. destruct Hv. congruence.
  - rewrite Hlo. destruct (F32.ltb value lo) eqn:Hvlo.
    + rewrite Hlo, Hhi, Hnlt.
      split; [now apply leb_refl_general|]. split; [exact Hle|].
      split; [discriminate|].
      intros Hv _. apply ltb_leb, leb_ltb_false in Hv. congruence.
    + rewrite Hnan, Hhi.
      pose proof (ltb_false_leb_general value lo Hnan Hlo Hvlo) as Hlov.
      destruct (F32.ltb hi value) eqn:Hhv.
      * split; [exact Hle|]. split; [now apply leb_refl_general|].
        split; [discriminate|].
        intros _ Hv. apply ltb_leb, leb_ltb_false in Hv. congruence.
      * split; [exact Hlov|].
        split; [now apply ltb_false_leb_general|].
        split; [discriminate|]. reflexivity.
Qed.

Lemma math_clamp_within_witness :
  F32.leb F32.zero F32.one = true /\
  F32.leb F32.zero (math_clamp range4 F32.zero F32.one) = true /\
  F32.leb (math_clamp range4 F32.zero F32.one) F32.one = true /\
  (F32.is_nan range4 = true ->
   F32.leb (math_clamp range4 F32.zero F32.one) F32.zero = true) /\
  (F32.ltb F32.zero range4 = true -> F32.ltb range4 F32.one = true ->
   math_clamp range4 F32.zero F32.one = range4).
Proof.
  split; [reflexivity|].
  apply (math_clamp_within range4 F32.zero F32.one). reflexivity.
Defined.

(** * The limits of the machine arithmetic *)

(** ** Loops that stop in a panic *)

Lemma result_of_bind {A B} (m : M A) (k : A -> M B) :
  result_of (bind m k)
  = match result_of m with
    | Ok a => result_of (k a)
    | Err msg => Err msg
    | Panic p => Panic p
    end.
Proof.
  destruct m as [[a|msg|p] log]; simpl; auto. now destruct (k a).
Qed.

Lemma for_each_app_result {A S} (l1 l2 : list A) (body : A -> S -> M S) (s : S) :
  result_of (for_each (l1 ++ l2) body s)
  = match result_of (for_each l1 body s) with
    | Ok s' => result_of (for_each l2 body s')
    | Err msg => Err msg
    | Panic p => Panic p
    end.
Proof.
  revert s. induction l1 as [|a l1 IH]; intros s; [reflexivity|].
  cbn [app for_each]. rewrite !result_of_bind.
  destruct (result_of (body a s)); auto.
Qed.

(** A loop whose iterations leave the state as it is. *)
Lemma for_each_unchanged {A S} (l : list A) (body : A -> S -> M S) (s : S) :
  (forall a, a ∈ l -> result_of (body a s) = Ok s) ->
  result_of (for_each l body s) = Ok s.
Proof.
  induction l as [|a l IH]; intros Hbody; [reflexivity|].
  cbn [for_each]. rewrite result_of_bind, Hbody by apply list_elem_of_here.
  apply IH. intros b Hb. apply Hbody. now apply list_elem_of_further.
Qed.

(** A loop that runs into a panicking iteration. *)
Lemma for_each_stops {A S} (l1 l2 : list A) (a : A) (body : A -> S -> M S)
    (s s' : S) p :
  result_of (for_each l1 body s) = Ok s' ->
  result_of (body a s') = Panic p ->
  result_of (for_each (l1 ++ a :: l2) body s) = Panic p.
Proof.
  intros Hpre Hbody. rewrite for_each_app_result, Hpre.
  cbn [for_each]. now rewrite result_of_bind, Hbody.
Qed.

Lemma checked_in_range oc lo hi wrap v :
  lo <= v <= hi -> checked oc lo hi wrap v = ret v.
Proof.
  intros Hv. unfold checked.
  now assert ((lo <=? v) && (v <=? hi) = true) as ->
    by (apply andb_true_iff; split; apply Z.leb_le; lia).
Qed.

Lemma checked_overflow lo hi wrap v :
  ~ lo <= v <= hi -> checked true lo hi wrap v = raise ArithmeticOverflow.
Proof.
  intros Hv. unfold checked.
  now assert ((lo <=? v) && (v <=? hi) = false) as ->
    by (apply andb_false_iff; rewrite !Z.leb_gt; lia).
Qed.

(** A neighbour above the mask is passed over. *)
Lemma scan_neighbor_above oc (mask : GrayImage) x y is_inside dy dx min_distance :
  i32_min <= x <= i32_max -> i32_min <= y <= i32_max ->
  i32_min <= x + dx <= i32_max -> i32_min <= y + dy < 0 ->
  result_of (scan_neighbor oc mask x y is_inside dy dx min_distance) = Ok min_distance.
Proof.
  intros Hx Hy Hnx Hny. unfold scan_neighbor, i32_add.
  rewrite !wrap_i32_small by (unfold i32_min, i32_max in *; lia).
  rewrite !checked_in_range by (unfold i32_max in *; lia).
  repeat (rewrite result_of_bind; cbn [result_of ret fst]).
  assert ((0 <=? y + dy) = false) as -> by (apply Z.leb_gt; lia).
  rewrite andb_false_r. reflexivity.
Qed.

Section ColumnOverflow.
Variable mask : GrayImage.
Variables x y : Z.
Variable max_range : f32.
Let r := search_radius_of max_range.
Hypothesis Hx : 0 <= x < width mask.
Hypothesis Hy : 0 <= y < height mask.
Hypothesis Hxi : x <= i32_max.
Hypothesis Hyi : y <= i32_max.
Hypothesis Hr : 0 < r <= i32_max.
Hypothesis Hrow : y < r.
Hypothesis Hover : i32_max < x + r.

(** With overflow checks, a window that reaches beyond [i32::MAX] on the
    right makes [x as i32 + dx] overflow in the first row of the search. *)
Lemma search_panics_on_the_right :
  result_of (calculate_distance_to_edge true mask x y max_range)
  = Panic ArithmeticOverflow.
Proof.
  unfold calculate_distance_to_edge. fold r.
  rewrite result_of_bind. unfold get_pixel.
  assert (in_bounds mask x y = true) as -> by (apply in_bounds_true; lia).
  cbn [result_of fst].
  unfold i32_neg. rewrite checked_in_range by (unfold i32_min, i32_max in *; lia).
  rewrite result_of_bind. cbn [result_of ret fst].
  rewrite result_of_bind.
  unfold for_range_incl at 1.
  rewrite (seqZ_cons (- r)) by lia. cbn [for_each].
  rewrite result_of_bind.
  set (d0 := i32_max + 1 - x).
  assert (Hsplit : seqZ (- r) (r + 1 - - r)
                   = seqZ (- r) (d0 + r) ++ d0 :: seqZ (d0 + 1) (r - d0)).
  { replace (r + 1 - - r) with ((d0 + r) + (1 + (r - d0))) by lia.
    rewrite seqZ_app by (unfold d0; lia).
    rewrite (seqZ_cons (- r + (d0 + r))) by (unfold d0; lia).
    f_equal. f_equal; [lia|]. f_equal; lia. }
  unfold for_range_incl at 1. rewrite Hsplit.
  rewrite (for_each_stops _ _ d0 _ max_range max_range ArithmeticOverflow);
    [reflexivity| |].
  - apply for_each_unchanged. intros dx Hdx. apply elem_of_seqZ in Hdx.
    apply scan_neighbor_above; unfold d0 in *; unfold i32_min, i32_max in *; lia.
  - unfold scan_neighbor, i32_add.
    rewrite !wrap_i32_small by (unfold i32_min, i32_max in *; lia).
    rewrite checked_overflow by (unfold d0, i32_max; lia).
    reflexivity.
Qed.
End ColumnOverflow.

Section SquareOverflow.
Variable mask : GrayImage.
Variable max_range : f32.
Let r := search_radius_of max_range.
Hypothesis Hwidth : width mask = r + 1.
Hypothesis Hheight : height mask = 1.
Hypothesis Hr : 0 < r < i32_max.
Hypothesis Hsquare : i32_max < r * r.
Hypothesis Hsame : forall dx, 0 <= dx < r ->
  is_inside_pixel (pixel_at mask dx 0) = is_inside_pixel (pixel_at mask 0 0).
Hypothesis Hother :
  is_inside_pixel (pixel_at mask r 0) <> is_inside_pixel (pixel_at mask 0 0).

(** A neighbour of the class of the pixel itself is passed over. *)
Lemma scan_neighbor_same_class dx min_distance :
  - r <= dx < r ->
  result_of (scan_neighbor true mask 0 0 (is_inside_pixel (pixel_at mask 0 0)) 0 dx
               min_distance) = Ok min_distance.
Proof.
  intros Hdx. unfold scan_neighbor, i32_add.
  rewrite !wrap_i32_small by (unfold i32_min, i32_max in *; lia).
  rewrite !checked_in_range by (unfold i32_min, i32_max in *; lia).
  repeat (rewrite result_of_bind; cbn [result_of ret fst]).
  rewrite Hwidth, Hheight, !Z.add_0_l.
  destruct (Z.leb_spec 0 dx) as [Hpos|Hneg]; [|reflexivity].
  assert ((dx <? r + 1) = true) as -> by (apply Z.ltb_lt; lia).
  cbn [andb Z.leb Z.ltb Z.compare].
  rewrite !wrap_u32_small by (unfold u32_max, i32_max in *; lia).
  rewrite result_of_bind. unfold get_pixel.
  assert (in_bounds mask dx 0 = true) as ->
    by (apply in_bounds_true; rewrite Hwidth, Hheight; lia).
  cbn [result_of fst]. rewrite (Hsame dx) by lia.
  now rewrite eqb_reflx.
Qed.

(** With overflow checks, a pixel of the other class at a distance whose
    square exceeds [i32::MAX] makes [dx * dx] overflow. *)
Lemma search_panics_on_the_square :
  result_of (calculate_distance_to_edge true mask 0 0 max_range)
  = Panic ArithmeticOverflow.
Proof.
  unfold calculate_distance_to_edge. fold r.
  rewrite result_of_bind. unfold get_pixel.
  assert (in_bounds mask 0 0 = true) as ->
    by (apply in_bounds_true; rewrite Hwidth, Hheight; lia).
  cbn [result_of fst].
  unfold i32_neg. rewrite checked_in_range by (unfold i32_min, i32_max in *; lia).
  rewrite result_of_bind. cbn [result_of ret fst].
  rewrite result_of_bind.
  assert (Hrows : seqZ (- r) (r + 1 - - r) = seqZ (- r) r ++ 0 :: seqZ 1 r).
  { replace (r + 1 - - r) with (r + (1 + r)) by lia.
    rewrite seqZ_app by lia. rewrite (seqZ_cons (- r + r)) by lia.
    f_equal. f_equal; [lia|]. f_equal; lia. }
  assert (Hcols : seqZ (- r) (r + 1 - - r) = seqZ (- r) (r + r) ++ r :: []).
  { replace (r + 1 - - r) with ((r + r) + 1) by lia.
    rewrite seqZ_app by lia. rewrite (seqZ_cons (- r + (r + r))) by lia.
    rewrite (seqZ_nil _ (Z.pred 1)) by lia. f_equal. f_equal. lia. }
  unfold for_range_incl at 1. rewrite Hrows.
  rewrite (for_each_stops _ _ 0 _ max_range max_range ArithmeticOverflow);
    [reflexivity| |].
  - apply for_each_unchanged. intros dy Hdy. apply elem_of_seqZ in Hdy.
    unfold for_range_incl. apply for_each_unchanged. intros dx Hdx.
    apply elem_of_seqZ in Hdx.
    apply scan_neighbor_above; unfold i32_min, i32_max in *; lia.
  - unfold for_range_incl. rewrite Hcols.
    apply (for_each_stops _ _ r _ max_range max_range).
    + apply for_each_unchanged. intros dx Hdx. apply elem_of_seqZ in Hdx.
      apply scan_neighbor_same_class. lia.
    + unfold scan_neighbor, i32_add.
      rewrite !wrap_i32_small by (unfold i32_min, i32_max in *; lia).
      rewrite !checked_in_range by (unfold i32_min, i32_max in *; lia).
      repeat (rewrite result_of_bind; cbn [result_of ret fst]).
      rewrite Hwidth, Hheight, !Z.add_0_l.
      assert ((0 <=? r) = true) as -> by (apply Z.leb_le; lia).
      assert ((r <? r + 1) = true) as -> by (apply Z.ltb_lt; lia).
      cbn [andb Z.leb Z.ltb Z.compare].
      rewrite !wrap_u32_small by (unfold u32_max, i32_max in *; lia).
      rewrite result_of_bind. unfold get_pixel.
      assert (in_bounds mask r 0 = true) as ->
        by (apply in_bounds_true; rewrite Hwidth, Hheight; lia).
      cbn [result_of fst].
      assert (eqb (is_inside_pixel (pixel_at mask 0 0))
                  (is_inside_pixel (pixel_at mask r 0)) = false) as ->.
      { apply eqb_false_iff. intros Heq. now apply Hother. }
      cbn [negb]. unfold i32_mul.
      rewrite checked_overflow by (unfold i32_max in *; lia).
      reflexivity.
Qed.
End SquareOverflow.

(** ** The packer on the grid it computes *)

Section PackerOnGrid.
Variable oc : bool.
Variable filter : FilterType.
Variable images : list (string * DynamicImage).
Variables atlas_size padding g : Z.
Let n := Z.of_nat (length images).
Let c := atlas_size / g.
Let s := c - 2 * padding.
Hypothesis Hgrid : grid_size_of n = g.
Hypothesis Hg : 0 < g.
Hypothesis Hcount : n <= u32_max.
Hypothesis Hatlas : 0 <= atlas_size <= u32_max.
Hypothesis Hpadding : 0 <= padding.
Hypothesis Hcontent : 2 * padding <= c.
Hypothesis Hrows : (n / g) * c + c <= u32_max.

Lemma place_tile_on_grid i id image atlas positions :
  0 <= i < n ->
  width atlas = atlas_size -> height atlas = atlas_size ->
  returns
    (place_tile oc filter atlas_size padding g c s (i, (id, image)) (atlas, positions))
    (fun state' =>
       (width (fst state') = atlas_size /\ height (fst state') = atlas_size) /\
       snd state' = <[id := grid_placement g atlas_size padding i]> positions)
    (fun _ => True).
Proof.
  intros Hi Hw Hh. unfold place_tile.
  assert (Hc : 0 <= c) by (apply Z.div_pos; lia).
  assert (Hgc : g * c <= atlas_size) by (apply Z.mul_div_le; lia).
  assert (Hmod : 0 <= i mod g < g) by (apply Z.mod_pos_bound; lia).
  assert (Hdiv : 0 <= i / g <= n / g).
  { split; [apply Z.div_pos; lia|]. apply Z.div_le_mono; lia. }
  assert (Hx : 0 <= i mod g * c <= atlas_size - c) by nia.
  assert (Hy : 0 <= i / g * c <= n / g * c) by nia.
  rewrite wrap_u32_small by lia.
  eapply returns_bind; [apply returns_u32_rem; lia|]. intros grid_x ->.
  eapply returns_bind; [apply returns_u32_div; lia|]. intros grid_y ->.
  eapply returns_bind; [apply returns_checked; lia|]. intros gxc ->.
  eapply returns_bind; [apply returns_checked; lia|]. intros x ->.
  eapply returns_bind; [apply returns_checked; lia|]. intros gyc ->.
  eapply returns_bind; [apply returns_checked; unfold s in *; lia|]. intros y ->.
  destruct (resized_dimensions image s s filter) as [Hrw Hrh].
  eapply returns_bind.
  { apply copy_to_atlas_returns; auto; unfold s in *; lia. }
  intros atlas' [Hw' Hh']. apply returns_ret. simpl. split; auto.
Qed.

Lemma pack_atlas_on_grid :
  returns (pack_atlas oc filter images atlas_size padding)
    (fun packed =>
       snd packed
       = insert_indexed (grid_placement g atlas_size padding) (map fst images) 0 ∅)
    (fun _ => True).
Proof.
  unfold pack_atlas. fold n. rewrite Hgrid.
  assert (Hc : 0 <= c <= atlas_size).
  { split; [apply Z.div_pos; lia|]. apply Z.div_le_upper_bound; nia. }
  eapply returns_bind; [apply returns_u32_div; lia|]. intros cell_size ->.
  eapply returns_bind; [apply returns_checked; unfold u32_max in *; lia|].
  intros padding2 ->.
  eapply returns_bind; [apply returns_checked; fold c; unfold u32_max in *; lia|].
  intros content_size ->.
  unfold insert_indexed.
  change (zip (seqZ 0 (Z.of_nat (length (map fst images)))) (map fst images))
    with (enumerate (map fst images)).
  rewrite (foldl_enumerate_ids
             (fun positions entry =>
                <[snd entry := grid_placement g atlas_size padding (fst entry)]> positions)).
  eapply returns_weaken.
  { apply returns_for_each_fold with
      (step := fun (t : gmap string AtlasPosition)
                   (entry : Z * (string * DynamicImage)) =>
                 <[fst (snd entry) :=
                     grid_placement g atlas_size padding (fst entry)]> t)
      (rel := fun (state : RgbaImage * gmap string AtlasPosition) t =>
                (width (fst state) = atlas_size /\ height (fst state) = atlas_size) /\
                snd state = t).
    - intros [i [id image]] [atlas positions] t Hin [Hdims Hpos].
      simpl in Hdims, Hpos. subst t.
      apply In_enumerate in Hin. fold n in Hin.
      replace (atlas_size / g - padding * 2) with s by (unfold s, c; lia).
      fold c. apply place_tile_on_grid; tauto.
    - simpl. auto. }
  simpl. intros state [_ Hstate]. exact Hstate.
Qed.
End PackerOnGrid.

Lemma lookup_after_replicate {A} (n : nat) (a z : A) :
  (replicate n a ++ [z]) !! n = Some z.
Proof.
  rewrite lookup_app_r by (rewrite length_replicate; lia).
  rewrite length_replicate, Nat.sub_diag. reflexivity.
Qed.

Lemma map_replicate {A B} (f : A -> B) (n : nat) (a : A) :
  map f (replicate n a) = replicate n (f a).
Proof. induction n as [|n IH]; simpl; [reflexivity|]. now rewrite IH. Qed.

Lemma many_tiles_count : Z.of_nat (length many_tiles) = 16777217.
Proof.
  unfold many_tiles. rewrite length_app, length_replicate. cbn [length]. lia.
Qed.

Lemma many_tiles_last : map fst many_tiles !! Z.to_nat 16777216 = Some "z"%string.
Proof.
  unfold many_tiles. rewrite map_app, map_replicate.
  apply (lookup_after_replicate (Z.to_nat 16777216) "a"%string "z"%string).
Qed.

Lemma many_tiles_no_later (j : nat) :
  (Z.to_nat 16777216 < j)%nat -> map fst many_tiles !! j <> Some "z"%string.
Proof.
  intros Hj. rewrite (lookup_ge_None_2 (map fst many_tiles) j); [discriminate|].
  rewrite length_map. pose proof many_tiles_count. lia.
Qed.

(** The packer on [many_tiles]: a grid of side 4096 for 4097 rows of tiles. *)
Lemma pack_many_tiles oc filter :
  grid_size_of 16777217 = 4096 /\
  exists atlas positions,
    result_of (pack_atlas oc filter many_tiles 8192 0) = Ok (atlas, positions) /\
    positions !! "z"%string
    = Some {| pos_x := 0; pos_y := 8192; pos_width := 2; pos_height := 2 |}.
Proof.
  assert (Hgrid : grid_size_of 16777217 = 4096) by (vm_compute; reflexivity).
  split; [exact Hgrid|].
  destruct (returns_result _ _ _
              (pack_atlas_on_grid oc filter many_tiles 8192 0 4096
                 ltac:(rewrite many_tiles_count; exact Hgrid) ltac:(lia)
                 ltac:(rewrite many_tiles_count; unfold u32_max; lia)
                 ltac:(unfold u32_max; lia) ltac:(lia)
                 ltac:(change (8192 / 4096) with 2; lia)
                 ltac:(rewrite many_tiles_count;
                       change (8192 / 4096) with 2;
                       change (16777217 / 4096) with 4096; unfold u32_max; lia)))
    as ([atlas positions] & Hres & Hpos & _).
  cbn [snd] in Hpos. exists atlas, positions. split; [exact Hres|]. subst positions.
  rewrite (insert_indexed_last _ _ _ _ (Z.to_nat 16777216) "z"%string
             many_tiles_last many_tiles_no_later).
  rewrite Z2Nat.id by lia. reflexivity.
Qed.

(** ** What fails, and what holds in every run *)

Lemma reads_of_bind {A B} (m : M A) (k : A -> M B) (R : Z * Z -> Prop) :
  Forall R (reads_of m) -> (forall a, Forall R (reads_of (k a))) ->
  Forall R (reads_of (bind m k)).
Proof.
  destruct m as [[a|msg|p] log]; simpl; auto.
  intros Hlog Hk. specialize (Hk a). destruct (k a) as [r log']. simpl in *.
  apply Forall_app; auto.
Qed.

Lemma reads_of_for_each {A S} (l : list A) (body : A -> S -> M S) (s : S)
    (R : Z * Z -> Prop) :
  (forall a s, Forall R (reads_of (body a s))) ->
  Forall R (reads_of (for_each l body s)).
Proof.
  intros Hbody. revert s. induction l as [|a l IH]; intros s; simpl.
  - constructor.
  - apply reads_of_bind; auto.
Qed.

Lemma reads_of_checked oc lo hi wrap v (R : Z * Z -> Prop) :
  Forall R (reads_of (checked oc lo hi wrap v)).
Proof.
  unfold checked. destruct (_ && _); [constructor|]. destruct oc; constructor.
Qed.

Lemma wrap_i32_below (w : Z) : 0 <= w -> wrap_i32 w <= w.
Proof.
  intros Hw. unfold wrap_i32.
  pose proof (Z.mod_le (w + 2 ^ 31) (2 ^ 32) ltac:(lia) ltac:(lia)). lia.
Qed.

Lemma wrap_i32_range (w : Z) : - 2 ^ 31 <= wrap_i32 w < 2 ^ 31.
Proof.
  unfold wrap_i32.
  pose proof (Z.mod_pos_bound (w + 2 ^ 31) (2 ^ 32) ltac:(lia)). lia.
Qed.

Lemma scan_neighbor_reads oc (mask : GrayImage) x y is_inside dy dx min_distance :
  0 <= width mask -> 0 <= height mask ->
  Forall (read_in_bounds mask)
         (reads_of (scan_neighbor oc mask x y is_inside dy dx min_distance)).
Proof.
  intros Hw Hh. unfold scan_neighbor.
  apply reads_of_bind; [apply reads_of_checked|]. intros nx.
  apply reads_of_bind; [apply reads_of_checked|]. intros ny.
  destruct ((0 <=? nx) && (nx <? wrap_i32 (width mask))
            && (0 <=? ny) && (ny <? wrap_i32 (height mask))) eqn:Hguard;
    [|constructor].
  rewrite !andb_true_iff, !Z.leb_le, !Z.ltb_lt in Hguard.
  pose proof (wrap_i32_below (width mask) Hw).
  pose proof (wrap_i32_below (height mask) Hh).
  pose proof (wrap_i32_range (width mask)).
  pose proof (wrap_i32_range (height mask)).
  rewrite !wrap_u32_small by (unfold u32_max; lia).
  apply reads_of_bind.
  - unfold get_pixel. destruct (in_bounds mask nx ny); simpl;
      (constructor; [unfold read_in_bounds; simpl; lia|constructor]).
  - intros neighbor_pixel. destruct (negb _); [|constructor].
    apply reads_of_bind; [apply reads_of_checked|]. intros dx2.
    apply reads_of_bind; [apply reads_of_checked|]. intros dy2.
    apply reads_of_bind; [apply reads_of_checked|]. intros d2. constructor.
Qed.

(** X28. In every run of the search around an in-bounds pixel, whether it
    returns or panics and whatever the range and the build profile, every
    read of the mask is at coordinates inside it. *)
Theorem distance_search_never_reads_outside oc (mask : GrayImage) (x y : Z)
    (max_range : f32) :
  0 <= x < width mask ->
  0 <= y < height mask ->
  Forall (read_in_bounds mask)
         (reads_of (calculate_distance_to_edge oc mask x y max_range)).
Proof.
  intros Hx Hy. unfold calculate_distance_to_edge.
  apply reads_of_bind.
  - unfold get_pixel. destruct (in_bounds mask x y); simpl;
      (constructor; [unfold read_in_bounds; simpl; lia|constructor]).
  - intros current_pixel.
    apply reads_of_bind; [apply reads_of_checked|]. intros lo.
    apply reads_of_bind; [|intros; constructor].
    unfold for_range_incl. apply reads_of_for_each. intros dy min_distance.
    apply reads_of_for_each. intros dx min_distance'.
    apply scan_neighbor_reads; lia.
Qed.

Lemma distance_search_never_reads_outside_witness :
  Forall (read_in_bounds two_pixel_mask)
         (reads_of (calculate_distance_to_edge true two_pixel_mask 1 0 range_2_31)).
Proof.
  apply (distance_search_never_reads_outside true two_pixel_mask 1 0 range_2_31).
  - simpl. lia.
  - simpl. lia.
Defined.

(** C10 fails on the code. For the second pixel of a mask of two pixels and
    the range [2^31] the search radius is [i32::MAX]; with overflow checks
    [x as i32 + dx] overflows at the right end of the first row of the
    window, and the search panics instead of returning a value. *)
Theorem distance_search_overflows_on_the_right :
  0 <= 1 < width two_pixel_mask /\ 0 <= 0 < height two_pixel_mask /\
  F32.ltb F32.zero range_2_31 = true /\
  search_radius_of range_2_31 = 2147483647 /\
  result_of (calculate_distance_to_edge true two_pixel_mask 1 0 range_2_31)
    = Panic ArithmeticOverflow.
Proof.
  split; [simpl; lia|]. split; [simpl; lia|].
  split; [reflexivity|]. split; [reflexivity|].
  apply search_panics_on_the_right.
  - simpl. lia.
  - simpl. lia.
  - unfold i32_max. lia.
  - unfold i32_max. lia.
  - vm_compute. split; [reflexivity|discriminate].
  - vm_compute. reflexivity.
  - vm_compute. reflexivity.
Qed.

Lemma generate_sdf_panics_at_first_pixel oc (mask : GrayImage) range p :
  0 < width mask -> 0 < height mask ->
  result_of (calculate_distance_to_edge oc mask 0 0 range) = Panic p ->
  result_of (generate_sdf_from_mask oc mask range) = Panic p.
Proof.
  intros Hw Hh Hpanic. unfold generate_sdf_from_mask, for_range.
  rewrite (seqZ_cons 0 (height mask - 0)) by lia. cbn [for_each].
  rewrite result_of_bind.
  rewrite (seqZ_cons 0 (width mask - 0)) by lia. cbn [for_each].
  now rewrite !result_of_bind, Hpanic.
Qed.

(** C3 fails on the code. On a mask of one row of 46342 pixels whose last
    pixel alone is outside, with the range 46341, the search from the first
    pixel meets the outside pixel at [dx = 46341]; with overflow checks
    [dx * dx] overflows, so the engine panics and produces no distance, and
    so does [generate_sdf_from_mask]. *)
Theorem distance_search_overflows_on_the_square :
  is_inside_pixel (pixel_at long_row_mask 0 0) = true /\
  is_inside_pixel (pixel_at long_row_mask 46341 0) = false /\
  F32.ltb F32.zero range46341 = true /\
  result_of (calculate_distance_to_edge true long_row_mask 0 0 range46341)
    = Panic ArithmeticOverflow /\
  result_of (generate_sdf_from_mask true long_row_mask range46341)
    = Panic ArithmeticOverflow.
Proof.
  assert (Hpanic : result_of (calculate_distance_to_edge true long_row_mask 0 0
                                range46341) = Panic ArithmeticOverflow).
  { apply search_panics_on_the_square.
    - reflexivity.
    - reflexivity.
    - vm_compute. split; reflexivity.
    - vm_compute. reflexivity.
    - intros dx Hdx. change (search_radius_of range46341) with 46341 in Hdx.
      simpl. destruct (Z.ltb_spec dx 46341); [reflexivity|lia].
    - vm_compute. discriminate. }
  split; [reflexivity|]. split; [reflexivity|]. split; [reflexivity|].
  split; [exact Hpanic|].
  apply generate_sdf_panics_at_first_pixel; [reflexivity|reflexivity|exact Hpanic].
Qed.

(** C4 fails on the code. For [2^24 + 1] tiles in an atlas of 8192 without
    padding the specified grid side is [ceil(sqrt n) = 4097], the content
    size 1 and the last tile's rectangle [(1, 4095, 1, 1)]; the packer
    computes the grid side in binary32 as 4096 and places the last tile at
    [(0, 8192, 2, 2)]. *)
Theorem pack_atlas_grid_side_inexact oc filter :
  Z.of_nat (length many_tiles) = 16777217 /\
  map fst many_tiles !! Z.to_nat 16777216 = Some "z"%string /\
  ceil_sqrt 16777217 = 4097 /\
  0 < 8192 / ceil_sqrt 16777217 - 2 * 0 /\
  spec_placement 16777217 8192 0 16777216
    = {| pos_x := 1; pos_y := 4095; pos_width := 1; pos_height := 1 |} /\
  grid_size_of 16777217 = 4096 /\
  exists atlas positions,
    result_of (pack_atlas oc filter many_tiles 8192 0) = Ok (atlas, positions) /\
    positions !! "z"%string
    = Some {| pos_x := 0; pos_y := 8192; pos_width := 2; pos_height := 2 |}.
Proof.
  split; [apply many_tiles_count|]. split; [apply many_tiles_last|].
  split; [reflexivity|]. split; [reflexivity|]. split; [reflexivity|].
  apply pack_many_tiles.
Qed.

(** C8 fails on the code. For [2^24 + 1] tiles in an atlas of 8192 without
    padding the packer returns a placement map in which the last tile lies
    below the atlas: [y + height = 8194 > 8192]. *)
Theorem pack_atlas_places_outside_atlas oc filter :
  exists atlas positions pos,
    result_of (pack_atlas oc filter many_tiles 8192 0) = Ok (atlas, positions) /\
    positions !! "z"%string = Some pos /\
    pos_y pos + pos_height pos = 8194 /\
    ~ inside_atlas 8192 pos.
Proof.
  destruct (pack_many_tiles oc filter) as (_ & atlas & positions & Hres & Hz).
  eexists atlas, positions, _. split; [exact Hres|]. split; [exact Hz|].
  split; [reflexivity|]. unfold inside_atlas. simpl. lia.
Qed.

Lemma generate_sdf_Ok_dims oc (mask sdf : GrayImage) range :
  result_of (generate_sdf_from_mask oc mask range) = Ok sdf ->
  width sdf = width mask /\ height sdf = height mask.
Proof.
  unfold generate_sdf_from_mask, for_range.
  apply (for_each_Ok_inv
           (fun _ (a : GrayImage) => width a = width mask /\ height a = height mask));
    [simpl; auto|].
  intros _ y a a1 Ha.
  apply (for_each_Ok_inv
           (fun _ (b : GrayImage) => width b = width mask /\ height b = height mask));
    [auto|].
  intros _ x b b1 Hb Hres.
  apply bind_Ok_inv in Hres. destruct Hres as (d & _ & Hres).
  apply put_pixel_Ok_dims in Hres. destruct Hb, Hres. split; congruence.
Qed.

(** C9. The multi-channel field is the single-channel field replicated:
    whenever [generate_sdf_from_mask] returns a field, for any range,
    [generate_msdf_from_mask] returns one too, both have the dimensions of
    the mask, and every pixel of the multi-channel image carries in each of
    its three channels the value of the single-channel image at that pixel;
    and the multi-channel generator returns only if the single-channel one
    does. *)
Theorem msdf_replicates_sdf oc (mask : GrayImage) (range : f32) :
  0 < width mask ->
  0 < height mask ->
  (forall sdf, result_of (generate_sdf_from_mask oc mask range) = Ok sdf ->
     exists msdf,
       result_of (generate_msdf_from_mask oc mask range) = Ok msdf /\
       width sdf = width mask /\ height sdf = height mask /\
       width msdf = width mask /\ height msdf = height mask /\
       forall x y, 0 <= x < width mask -> 0 <= y < height mask ->
         pixel_at msdf x y = (pixel_at sdf x y, pixel_at sdf x y, pixel_at sdf x y)) /\
  (forall msdf, result_of (generate_msdf_from_mask oc mask range) = Ok msdf ->
     exists sdf, result_of (generate_sdf_from_mask oc mask range) = Ok sdf).
Proof.
  intros Hw Hh. split.
  - intros sdf Hsdf.
    destruct (generate_sdf_Ok_dims oc mask sdf range Hsdf) as [Hsw Hsh].
    destruct (replicate_channels_returns sdf ltac:(lia) ltac:(lia))
      as (msdf & log' & Hmsdf & (Hmw & Hmh & Hrep) & _).
    exists msdf. unfold generate_msdf_from_mask.
    rewrite result_of_bind, Hsdf. cbv zeta in Hmsdf. rewrite Hmsdf.
    split; [reflexivity|]. split; [exact Hsw|]. split; [exact Hsh|].
    split; [exact (eq_trans Hmw Hsw)|]. split; [exact (eq_trans Hmh Hsh)|].
    intros x y Hx Hy. apply Hrep; lia.
  - intros msdf Hmsdf. unfold generate_msdf_from_mask in Hmsdf.
    apply bind_Ok_inv in Hmsdf. destruct Hmsdf as (sdf & Hsdf & _). eauto.
Qed.

Lemma msdf_replicates_sdf_witness :
  (forall sdf, result_of (generate_sdf_from_mask true column_mask range4) = Ok sdf ->
     exists msdf,
       result_of (generate_msdf_from_mask true column_mask range4) = Ok msdf /\
       width sdf = width column_mask /\ height sdf = height column_mask /\
       width msdf = width column_mask /\ height msdf = height column_mask /\
       forall x y, 0 <= x < width column_mask -> 0 <= y < height column_mask ->
         pixel_at msdf x y = (pixel_at sdf x y, pixel_at sdf x y, pixel_at sdf x y)) /\
  (forall msdf, result_of (generate_msdf_from_mask true column_mask range4) = Ok msdf ->
     exists sdf, result_of (generate_sdf_from_mask true column_mask range4) = Ok sdf).
Proof.
  apply (msdf_replicates_sdf true column_mask range4); reflexivity.
Defined.
